(** * WildFireFighters: the simulation core, embedded and verified

    The game component keeps a [GameState] (player, fire map, trees, refill
    stations, wind, elapsed time, difficulty) and advances it once per
    animation frame: [updatePlayer], [updateFires], [checkWaterFireCollision],
    [checkGameConditions].  This file embeds those functions, together with
    [generateTrees], [initializeFires], [startGame], [gameLoop] and the key
    and touch handlers, and proves the properties the specification states
    about them, and further properties that the code has.

    Modelling conventions.
    - A JavaScript [number] is a real number: arithmetic is exact, and there
      is neither rounding nor NaN nor an infinity (the one use of [Infinity],
      the running minimum of [initializeFires], is an [option]).
    - The fire map [Map<string, FireCell>] is an association list in
      insertion order, the order a JavaScript [Map] iterates in.  Its keys
      are the two integers the source prints into the key string.
    - [Math.random] is a tape of numbers read left to right.  Only the draws
      that reach the simulation state are on the tape; the draws that only
      fill particle buffers of the renderer are not modelled.
    - Meshes, the camera and the scene graph are rendering and are left out;
      what remains of the scene is whether [sceneRef.current] is set.
    - A frame applies its state update at once, to the state its closures
      were built over.

    The file has three parts: the embedding of the source, the vocabulary
    of the statements, and the lemmas and theorems. *)

From Stdlib Require Import Reals Lra Lia ZArith List Bool String.
Import ListNotations.

Local Open Scope R_scope.

(** ** Numbers *)

Definition Rltb (a b : R) : bool := if Rlt_dec a b then true else false.
Definition Rleb (a b : R) : bool := if Rle_dec a b then true else false.
Definition Reqb (a b : R) : bool := if Req_dec_T a b then true else false.

Infix "<?" := Rltb (at level 70, no associativity) : R_scope.
Infix "<=?" := Rleb (at level 70, no associativity) : R_scope.
Infix "=?" := Reqb (at level 70, no associativity) : R_scope.

(** [a > b] and [a !== b] of the source. *)
Definition Rgtb (a b : R) : bool := b <? a.
Definition Rneqb (a b : R) : bool := negb (a =? b).

(** [Math.floor]. *)
Definition floor (r : R) : Z := Int_part r.

(** ** Constants of the source *)

Definition WORLD_SIZE : R := 40.
Definition GRID_SIZE : R := 2.
Definition WATER_RANGE : R := 8.
Definition REFILL_RATE : R := 2.
Definition FIRE_SPREAD_RATE : R := 4.
Definition INITIAL_FIRES : nat := 5.

(** ** Data model *)

Module Vector3.
Record t : Type := mk { x : R; y : R; z : R }.
End Vector3.

Module Player.
Record t : Type := mk {
  position : Vector3.t;
  rotation : R;
  waterLevel : R;
  maxWater : R;
  isRefilling : bool
}.
End Player.

Module FireCell.
Record t : Type := mk {
  x : R;
  z : R;
  intensity : R;
  spreadTime : R
}.
End FireCell.

Module RefillStation.
Record t : Type := mk { position : Vector3.t; radius : R }.
End RefillStation.

Module Tree.
Record t : Type := mk { x : R; z : R; radius : R }.
End Tree.

Inductive GameStatus : Type := playing | won | lost | tutorial.

(** The key string [`${a}-${b}`] of two integers; the decimal rendering of
    an integer never starts with a separator other than its own sign, so
    the pair determines the string and the string the pair. *)
Definition Key : Type := (Z * Z)%type.

Definition key_eqb (a b : Key) : bool :=
  (Z.eqb (fst a) (fst b) && Z.eqb (snd a) (snd b))%bool.

Definition gridKey (x z : R) : Key :=
  (floor (x / GRID_SIZE), floor (z / GRID_SIZE)).

(** ** The fire map: a [Map] in insertion order *)

Definition Fires : Type := list (Key * FireCell.t).

Module FireMap.
Definition empty : Fires := [].

Definition size (m : Fires) : nat := List.length m.

Fixpoint has (k : Key) (m : Fires) : bool :=
  match m with
  | [] => false
  | (k', _) :: rest => if key_eqb k k' then true else has k rest
  end.

Fixpoint get (k : Key) (m : Fires) : option FireCell.t :=
  match m with
  | [] => None
  | (k', v) :: rest => if key_eqb k k' then Some v else get k rest
  end.

(** [Map.set]: an existing key keeps its place and takes the new value,
    a new key goes to the end. *)
Fixpoint set (k : Key) (v : FireCell.t) (m : Fires) : Fires :=
  match m with
  | [] => [(k, v)]
  | (k', v') :: rest =>
      if key_eqb k k' then (k, v) :: rest else (k', v') :: set k v rest
  end.

Fixpoint delete (k : Key) (m : Fires) : Fires :=
  match m with
  | [] => []
  | (k', v') :: rest =>
      if key_eqb k k' then rest else (k', v') :: delete k rest
  end.

Definition keys (m : Fires) : list Key := map fst m.
Definition values (m : Fires) : list FireCell.t := map snd m.

(** What the [Map] type guarantees: no key twice. *)
Definition wf (m : Fires) : Prop := NoDup (keys m).
End FireMap.

Module GameState.
Record t : Type := mk {
  player : Player.t;
  fires : Fires;
  refillStations : list RefillStation.t;
  gameStatus : GameStatus;
  windDirection : Vector3.t;
  windSpeed : R;
  timeElapsed : R;
  gameSpeed : R;
  trees : list Tree.t
}.
End GameState.

(** ** Input: the set of keys held down ([keysRef.current]) *)

Definition KeySet : Type := list string.

Definition keys_has (k : string) (keys : KeySet) : bool :=
  existsb (String.eqb k) keys.

(** ** Input handlers *)

(** [Set.add] and [Set.delete] on the set of keys. *)
Definition keys_add (k : string) (keys : KeySet) : KeySet :=
  if keys_has k keys then keys else keys ++ [k].

Definition keys_delete (k : string) (keys : KeySet) : KeySet :=
  filter (fun k' => negb (String.eqb k k')) keys.

(** [handleKeyDown] and [handleKeyUp].  [toLowerCase] is the string method
    of the platform. *)
Definition handleKeyDown (toLowerCase : string -> string) (key : string)
    (keys : KeySet) : KeySet :=
  keys_add (toLowerCase key) keys.

Definition handleKeyUp (toLowerCase : string -> string) (key : string)
    (keys : KeySet) : KeySet :=
  keys_delete (toLowerCase key) keys.

Inductive ControlType : Type := joystickControl | buttonControl.

Module MobileControl.
Record t : Type := mk {
  type : ControlType;
  position : R * R;
  size : R;
  active : bool
}.
End MobileControl.

Module MobileControls.
Record t : Type := mk {
  joystick : MobileControl.t;
  shootButton : MobileControl.t;
  refillButton : MobileControl.t
}.
End MobileControls.

Module Touch.
Record t : Type := mk { clientX : R; clientY : R }.
End Touch.

Definition activate (c : MobileControl.t) : MobileControl.t :=
  MobileControl.mk (MobileControl.type c) (MobileControl.position c)
                   (MobileControl.size c) true.

(** The body of the loop over [e.touches].  [mobileControls] is the state
    the handler was built over, [prev] the state its updates apply to. *)
Definition touchOne (mobileControls : MobileControls.t) (touch : Touch.t)
    (st : KeySet * MobileControls.t) : KeySet * MobileControls.t :=
  let '(keys, prev) := st in
  let x := Touch.clientX touch in
  let y := Touch.clientY touch in
  let joystick := MobileControls.joystick mobileControls in
  let joystickDist :=
    sqrt ((x - fst (MobileControl.position joystick)) ^ 2
          + (y - snd (MobileControl.position joystick)) ^ 2) in
  let prev1 :=
    if joystickDist <? MobileControl.size joystick
    then MobileControls.mk (activate (MobileControls.joystick prev))
                           (MobileControls.shootButton prev)
                           (MobileControls.refillButton prev)
    else prev in
  let shootButton := MobileControls.shootButton mobileControls in
  let shootDist :=
    sqrt ((x - fst (MobileControl.position shootButton)) ^ 2
          + (y - snd (MobileControl.position shootButton)) ^ 2) in
  if shootDist <? MobileControl.size shootButton
  then (keys_add " " keys,
        MobileControls.mk (MobileControls.joystick prev1)
                          (activate (MobileControls.shootButton prev1))
                          (MobileControls.refillButton prev1))
  else (keys, prev1).

Definition handleTouchStart (isMobile : bool) (gameState : GameState.t)
    (mobileControls : MobileControls.t) (touches : list Touch.t)
    (st : KeySet * MobileControls.t) : KeySet * MobileControls.t :=
  match isMobile, GameState.gameStatus gameState with
  | true, playing =>
      fold_left (fun st touch => touchOne mobileControls touch st) touches st
  | _, _ => st
  end.

(** ** Geometry helpers *)

Definition distance3D (a b : Vector3.t) : R :=
  sqrt ((Vector3.x a - Vector3.x b) ^ 2 + (Vector3.y a - Vector3.y b) ^ 2
        + (Vector3.z a - Vector3.z b) ^ 2).

Definition normalize3D (v : Vector3.t) : Vector3.t :=
  let len := sqrt (Vector3.x v * Vector3.x v + Vector3.y v * Vector3.y v
                   + Vector3.z v * Vector3.z v) in
  if Rgtb len 0
  then Vector3.mk (Vector3.x v / len) (Vector3.y v / len) (Vector3.z v / len)
  else Vector3.mk 0 0 0.

(** ** updatePlayer *)

(** The tree loop of [updatePlayer]: it stops at the first trunk hit and
    otherwise remembers whether some foliage was entered.  The result is
    [(trunkCollision, inFoliage)]. *)
Fixpoint treeCollisions (newX newZ : R) (trees : list Tree.t)
    (inFoliage : bool) : bool * bool :=
  match trees with
  | [] => (false, inFoliage)
  | tree :: rest =>
      let distanceToTree :=
        sqrt ((newX - Tree.x tree) ^ 2 + (newZ - Tree.z tree) ^ 2) in
      let trunkRadius := 0.4 in
      if distanceToTree <? trunkRadius + 1 then (true, inFoliage)
      else
        let foliageRadius := Tree.radius tree in
        treeCollisions newX newZ rest
          (if distanceToTree <? foliageRadius + 1 then true else inFoliage)
  end.

(** The station loop: the first station the player stands in refills and
    ends the loop. *)
Fixpoint refill (stations : list RefillStation.t) (pos : Vector3.t)
    (maxWater waterLevel deltaTime : R) : bool * R :=
  match stations with
  | [] => (false, waterLevel)
  | station :: rest =>
      if distance3D pos (RefillStation.position station)
           <? RefillStation.radius station
      then (true, Rmin maxWater (waterLevel + REFILL_RATE * deltaTime * 60))
      else refill rest pos maxWater waterLevel deltaTime
  end.

Definition moveVectorOf (keys : KeySet) : R * R :=
  let z0 := 0 in
  let z1 := if keys_has "w" keys then z0 - 1 else z0 in
  let z2 := if keys_has "s" keys then z1 + 1 else z1 in
  let x0 := 0 in
  let x1 := if keys_has "a" keys then x0 - 1 else x0 in
  let x2 := if keys_has "d" keys then x1 + 1 else x1 in
  (x2, z2).

(** The heading after the arrow keys have turned the player. *)
Definition turned (keys : KeySet) (rotation deltaTime : R) : R :=
  let rotationSpeed := 0.032 in
  let rotation1 :=
    if keys_has "arrowleft" keys
    then rotation + rotationSpeed * 60 * deltaTime else rotation in
  if keys_has "arrowright" keys
  then rotation1 - rotationSpeed * 60 * deltaTime else rotation1.

(** [moveVector.x !== 0 || moveVector.z !== 0]. *)
Definition moving (keys : KeySet) : bool :=
  let '(mx, mz) := moveVectorOf keys in (Rneqb mx 0 || Rneqb mz 0)%bool.

(** The move vector, normalised and rotated by the heading:
    [(rotatedX, rotatedZ)]. *)
Definition rotatedMove (keys : KeySet) (rotation : R) : R * R :=
  let '(mx, mz) := moveVectorOf keys in
  let len := sqrt (mx * mx + mz * mz) in
  let mx' := mx / len in
  let mz' := mz / len in
  let cos := cos rotation in
  let sin := sin rotation in
  (mx' * cos - mz' * sin, mx' * sin + mz' * cos).

(** The boundary check on one coordinate. *)
Definition clampToWorld (c : R) : R :=
  let halfWorld := WORLD_SIZE / 2 - 2 in
  Rmax (- halfWorld) (Rmin halfWorld c).

Definition updatePlayer (keys : KeySet) (gameState : GameState.t)
    (player : Player.t) (deltaTime : R) : Player.t :=
  let baseSpeed := 5 in
  let rotation' := turned keys (Player.rotation player) deltaTime in
  let pos0 := Player.position player in
  let pos1 :=
    if moving keys then
      let '(rotatedX, rotatedZ) := rotatedMove keys rotation' in
      let newX := Vector3.x pos0 + rotatedX * baseSpeed * deltaTime in
      let newZ := Vector3.z pos0 + rotatedZ * baseSpeed * deltaTime in
      let '(trunkCollision, inFoliage) :=
        treeCollisions newX newZ (GameState.trees gameState) false in
      let '(px, pz) :=
        if negb trunkCollision then
          if inFoliage then
            let reducedSpeed := baseSpeed * 0.5 in
            (Vector3.x pos0 + rotatedX * reducedSpeed * deltaTime,
             Vector3.z pos0 + rotatedZ * reducedSpeed * deltaTime)
          else (newX, newZ)
        else (Vector3.x pos0, Vector3.z pos0) in
      Vector3.mk (clampToWorld px) (Vector3.y pos0) (clampToWorld pz)
    else pos0 in
  let water1 :=
    if (keys_has " " keys && Rgtb (Player.waterLevel player) 0)%bool
    then Rmax 0 (Player.waterLevel player - 30 * deltaTime)
    else Player.waterLevel player in
  let '(isRefilling, water2) :=
    refill (GameState.refillStations gameState) pos1
           (Player.maxWater player) water1 deltaTime in
  Player.mk pos1 rotation' water2 (Player.maxWater player) isRefilling.

(** ** checkWaterFireCollision *)

Definition firePosition (fire : FireCell.t) : Vector3.t :=
  Vector3.mk (FireCell.x fire) 0 (FireCell.z fire).

(** [dotProduct]: the unit direction from the player to the cell against
    the direction the water leaves the player. *)
Definition aimDot (player : Player.t) (fire : FireCell.t) : R :=
  let pos := Player.position player in
  let firePos := firePosition fire in
  let dirToFire :=
    normalize3D (Vector3.mk (Vector3.x firePos - Vector3.x pos) 0
                            (Vector3.z firePos - Vector3.z pos)) in
  let waterDirection :=
    Vector3.mk (sin (Player.rotation player)) 0
               (- cos (Player.rotation player)) in
  Vector3.x dirToFire * Vector3.x waterDirection
  + Vector3.z dirToFire * Vector3.z waterDirection.

(** The two tests a cell passes to be hit by the water jet: closer than
    [WATER_RANGE], and within the cone around the water direction. *)
Definition inWaterCone (player : Player.t) (fire : FireCell.t) : bool :=
  let distToFire := distance3D (Player.position player) (firePosition fire) in
  if distToFire <? WATER_RANGE then Rgtb (aimDot player fire) 0.4
  else false.

Definition doused (fire : FireCell.t) (deltaTime : R) : FireCell.t :=
  FireCell.mk (FireCell.x fire) (FireCell.z fire)
              (FireCell.intensity fire - 1.5 * deltaTime)
              (FireCell.spreadTime fire).

(** The loop over the entries of [newFires].  The cell object is changed in
    place (here: written back under its key) and deleted when it is out. *)
Fixpoint sprayLoop (player : Player.t) (deltaTime : R) (entries : Fires)
    (newFires : Fires) : Fires :=
  match entries with
  | [] => newFires
  | (key, fire) :: rest =>
      let newFires' :=
        if inWaterCone player fire then
          let fire' := doused fire deltaTime in
          if FireCell.intensity fire' <=? 0
          then FireMap.delete key newFires
          else FireMap.set key fire' newFires
        else newFires in
      sprayLoop player deltaTime rest newFires'
  end.

Definition checkWaterFireCollision (scene : bool) (keys : KeySet)
    (player : Player.t) (fires : Fires) (deltaTime : R) : Fires :=
  let newFires := fires in
  if negb scene then newFires
  else if (keys_has " " keys && Rgtb (Player.waterLevel player) 0)%bool
  then sprayLoop player deltaTime newFires newFires
  else newFires.

(** ** checkGameConditions *)

Definition tooClose (player : Player.t) (fire : FireCell.t) : bool :=
  let firePos := firePosition fire in
  distance3D (Player.position player) firePos <? 1.5.

Definition checkGameConditions (player : Player.t) (fires : Fires)
    : GameStatus :=
  if existsb (tooClose player) (FireMap.values fires) then lost
  else if Nat.eqb (FireMap.size fires) 0 then won
  else playing.

(** ** Math.random *)

Record Rng : Type := mkRng { tape : nat -> R; cursor : nat }.

Definition Gen (A : Type) : Type := Rng -> A * Rng.

Definition ret {A : Type} (a : A) : Gen A := fun g => (a, g).

Definition bind {A B : Type} (c : Gen A) (k : A -> Gen B) : Gen B :=
  fun g => let (a, g') := c g in k a g'.

Notation "x <- c ;; k" := (bind c (fun x => k))
  (at level 61, c at next level, right associativity).

Definition Math_random : Gen R :=
  fun g => (tape g (cursor g), mkRng (tape g) (S (cursor g))).

(** Every value [Math.random] returns lies in [0, 1). *)
Definition valid_rng (g : Rng) : Prop := forall n, 0 <= tape g n < 1.

(** ** updateFires *)

Definition directions : list (R * R) :=
  [ (GRID_SIZE, 0); (- GRID_SIZE, 0); (0, GRID_SIZE); (0, - GRID_SIZE) ].

Definition spreadCell (newX newZ : R) : FireCell.t :=
  let fireIntensity := 0.3 in
  FireCell.mk (IZR (floor (newX / GRID_SIZE)) * GRID_SIZE)
              (IZR (floor (newZ / GRID_SIZE)) * GRID_SIZE)
              fireIntensity 0.

(** One turn of the loop over [directions] for the cell [fire]. *)
Definition trySpread (gameState : GameState.t) (fire : FireCell.t)
    (spreadChance : R) (dir : R * R) (newFires : Fires) : Gen Fires :=
  r <- Math_random ;;
  if r <? spreadChance then
    let newX := FireCell.x fire + fst dir
                + Vector3.x (GameState.windDirection gameState) * GRID_SIZE in
    let newZ := FireCell.z fire + snd dir
                + Vector3.z (GameState.windDirection gameState) * GRID_SIZE in
    let newKey := gridKey newX newZ in
    let halfWorld := WORLD_SIZE / 2 in
    if ((Rabs newX <? halfWorld) && (Rabs newZ <? halfWorld)
        && negb (FireMap.has newKey newFires))%bool
    then ret (FireMap.set newKey (spreadCell newX newZ) newFires)
    else ret newFires
  else ret newFires.

Fixpoint spreadAll (gameState : GameState.t) (fire : FireCell.t)
    (spreadChance : R) (dirs : list (R * R)) (newFires : Fires) : Gen Fires :=
  match dirs with
  | [] => ret newFires
  | dir :: rest =>
      newFires' <- trySpread gameState fire spreadChance dir newFires ;;
      spreadAll gameState fire spreadChance rest newFires'
  end.

(** The cell after its timer and its intensity have grown. *)
Definition grown (fire : FireCell.t) (deltaTime : R) : FireCell.t :=
  FireCell.mk (FireCell.x fire) (FireCell.z fire)
              (Rmin 1 (FireCell.intensity fire + deltaTime * 0.1))
              (FireCell.spreadTime fire + deltaTime).

Definition timerReset (fire : FireCell.t) : FireCell.t :=
  FireCell.mk (FireCell.x fire) (FireCell.z fire) (FireCell.intensity fire) 0.

(** The body of the loop over [newFires] for one entry. *)
Definition visit (gameState : GameState.t) (deltaTime : R) (key : Key)
    (fire : FireCell.t) (newFires : Fires) : Gen Fires :=
  let fire1 := grown fire deltaTime in
  if Rgtb (FireCell.spreadTime fire1)
          (FIRE_SPREAD_RATE / GameState.gameSpeed gameState)
  then
    let fire2 := timerReset fire1 in
    let spreadChance :=
      FireCell.intensity fire2 * GameState.windSpeed gameState * 0.2 in
    spreadAll gameState fire2 spreadChance directions
              (FireMap.set key fire2 newFires)
  else ret (FireMap.set key fire1 newFires).

(** [for (const [key, fire] of newFires)]: the iterator walks the entries by
    position and also reaches the entries the body adds behind it.  [None]
    is a walk that did not end within [fuel] entries. *)
Fixpoint iterate (fuel : nat) (gameState : GameState.t) (deltaTime : R)
    (i : nat) (newFires : Fires) (g : Rng) : option (Fires * Rng) :=
  match nth_error newFires i with
  | None => Some (newFires, g)
  | Some (key, fire) =>
      match fuel with
      | O => None
      | S fuel' =>
          let (newFires', g') := visit gameState deltaTime key fire newFires g in
          iterate fuel' gameState deltaTime (S i) newFires' g'
      end
  end.

(** The grid keys of the cells inside the world: a spread only ever adds one
    of these, which bounds the walk. *)
Definition worldKeys : list Key :=
  list_prod (map (fun n => (Z.of_nat n - 10)%Z) (seq 0 20))
            (map (fun n => (Z.of_nat n - 10)%Z) (seq 0 20)).

Definition updateFires (scene : bool) (gameState : GameState.t)
    (fires : Fires) (deltaTime : R) (g : Rng) : option (Fires * Rng) :=
  let newFires := fires in
  if negb scene then Some (newFires, g)
  else iterate (FireMap.size fires + List.length worldKeys)
               gameState deltaTime 0 newFires g.

(** ** gameLoop *)

(** The state updater [gameLoop] passes to [setGameState].  [gameState] is
    the state the closures were built over (trees, stations, wind and
    difficulty are read from it), [prevState] the state being updated. *)
Definition tick (scene : bool) (keys : KeySet)
    (gameState prevState : GameState.t) (deltaTime : R) (g : Rng)
    : option (GameState.t * Rng) :=
  let updatedPlayer :=
    updatePlayer keys gameState (GameState.player prevState) deltaTime in
  match updateFires scene gameState (GameState.fires prevState) deltaTime g with
  | None => None
  | Some (updatedFires, g') =>
      let updatedFires :=
        checkWaterFireCollision scene keys updatedPlayer updatedFires
                                deltaTime in
      let newGameStatus := checkGameConditions updatedPlayer updatedFires in
      Some (GameState.mk
              updatedPlayer
              updatedFires
              (GameState.refillStations prevState)
              newGameStatus
              (GameState.windDirection prevState)
              (GameState.windSpeed prevState)
              (GameState.timeElapsed prevState + deltaTime)
              (Rmin 1.8 (1 + GameState.timeElapsed prevState / 90))
              (GameState.trees prevState),
            g')
  end.

(** What lives across frames: the time of the last frame, the game state and
    the random tape. *)
Record World : Type := mkWorld {
  lastFrameTime : R;
  state : GameState.t;
  rng : Rng
}.

Definition frameDelta (currentTime last : R) : R := (currentTime - last) / 1000.

(** One animation frame.  [scene] and [keys] are what the refs hold when the
    frame runs. *)
Definition gameLoop (scene : bool) (keys : KeySet) (currentTime : R)
    (w : World) : option World :=
  let deltaTime := frameDelta currentTime (lastFrameTime w) in
  match GameState.gameStatus (state w) with
  | playing =>
      match tick scene keys (state w) (state w) deltaTime (rng w) with
      | None => None
      | Some (s', g') => Some (mkWorld currentTime s' g')
      end
  | _ => Some (mkWorld currentTime (state w) (rng w))
  end.

(** The frames of a session, one after the other: what each finds in the
    refs, and its time. *)
Fixpoint runFrames (frames : list (bool * KeySet * R)) (w : World)
    : option World :=
  match frames with
  | [] => Some w
  | (scene, keys, t) :: rest =>
      match gameLoop scene keys t w with
      | Some w' => runFrames rest w'
      | None => None
      end
  end.

(** ** generateTrees *)

(** The [while] loop of one tree, [n] attempts left.  The result is the list
    of trees, one longer when a place was found. *)
Fixpoint treeAttempts (n : nat) (refillStations : list RefillStation.t)
    (trees : list Tree.t) : Gen (list Tree.t) :=
  match n with
  | O => ret trees
  | S n' =>
      r1 <- Math_random ;;
      let x := (r1 - 0.5) * (WORLD_SIZE - 5) in
      r2 <- Math_random ;;
      let z := (r2 - 0.5) * (WORLD_SIZE - 5) in
      let nearStation :=
        existsb (fun station =>
                   sqrt ((x - Vector3.x (RefillStation.position station)) ^ 2
                         + (z - Vector3.z (RefillStation.position station)) ^ 2)
                   <? 5) refillStations in
      let nearCenter := sqrt (x ^ 2 + z ^ 2) <? 8 in
      r3 <- Math_random ;;
      let treeRadius := r3 * 0.8 + 1 in
      let nearOtherTree :=
        existsb (fun tree =>
                   sqrt ((x - Tree.x tree) ^ 2 + (z - Tree.z tree) ^ 2)
                   <? Tree.radius tree + treeRadius + 1) trees in
      if (negb nearStation && negb nearCenter && negb nearOtherTree)%bool
      then ret (trees ++ [Tree.mk x z (treeRadius * 0.8)])
      else treeAttempts n' refillStations trees
  end.

(** The [for] loop, [n] rounds left. *)
Fixpoint treeRounds (n : nat) (refillStations : list RefillStation.t)
    (trees : list Tree.t) : Gen (list Tree.t) :=
  match n with
  | O => ret trees
  | S n' =>
      if Nat.ltb (List.length trees) 40 then
        let maxAttempts := 200%nat in
        trees' <- treeAttempts maxAttempts refillStations trees ;;
        treeRounds n' refillStations trees'
      else ret trees
  end.

Definition generateTrees (refillStations : list RefillStation.t)
    : Gen (list Tree.t) :=
  treeRounds 40 refillStations [].

(** ** initializeFires *)

(** [Math.min] over the distances to the cells placed so far, starting from
    [Infinity] ([None]). *)
Definition minDistanceTo (x z : R) (fires : Fires) : option R :=
  fold_left
    (fun minDistance existingFire =>
       let distance :=
         sqrt ((x - FireCell.x existingFire) ^ 2
               + (z - FireCell.z existingFire) ^ 2) in
       match minDistance with
       | None => Some distance
       | Some m => Some (Rmin m distance)
       end)
    (FireMap.values fires) None.

(** [minDistance > 6], true of [Infinity]. *)
Definition farEnough (minDistance : option R) : bool :=
  match minDistance with
  | None => true
  | Some m => Rgtb m 6
  end.

Definition randomSpot : Gen (R * R * Key) :=
  r1 <- Math_random ;;
  let x := (r1 - 0.5) * (WORLD_SIZE - 10) in
  r2 <- Math_random ;;
  let z := (r2 - 0.5) * (WORLD_SIZE - 10) in
  ret (x, z, gridKey x z).

(** The [while] loop of one seed fire, [n] attempts left, [spot] the last
    position drawn.  The result is [(placed, spot)]. *)
Fixpoint fireAttempts (n : nat) (fires : Fires) (spot : R * R * Key)
    : Gen (bool * (R * R * Key)) :=
  match n with
  | O => ret (false, spot)
  | S n' =>
      spot' <- randomSpot ;;
      let '(x, z, key) := spot' in
      let placed :=
        if negb (FireMap.has key fires) then
          (Nat.eqb (FireMap.size fires) 0
           || farEnough (minDistanceTo x z fires))%bool
        else false in
      if placed then ret (true, spot')
      else fireAttempts n' fires spot'
  end.

(** One round of the [for] loop: find a spot, fall back to any spot, and
    write the cell. *)
Definition seedFire (fires : Fires) : Gen Fires :=
  spot0 <- randomSpot ;;
  found <- fireAttempts 100 fires spot0 ;;
  let '(placed, spot1) := found in
  spot2 <- (if negb placed then randomSpot else ret spot1) ;;
  let '(x, z, key) := spot2 in
  r <- Math_random ;;
  let fireIntensity := r * 0.5 + 0.5 in
  ret (FireMap.set key
         (FireCell.mk (IZR (floor (x / GRID_SIZE)) * GRID_SIZE)
                      (IZR (floor (z / GRID_SIZE)) * GRID_SIZE)
                      fireIntensity 0)
         fires).

Fixpoint seedFires (n : nat) (fires : Fires) : Gen Fires :=
  match n with
  | O => ret fires
  | S n' => fires' <- seedFire fires ;; seedFires n' fires'
  end.

Definition initializeFires (scene : bool) : Gen Fires :=
  let fires := FireMap.empty in
  if negb scene then ret fires
  else seedFires INITIAL_FIRES fires.

(** ** Session start and restart *)

Definition initialGameState : GameState.t :=
  GameState.mk
    (Player.mk (Vector3.mk 0 0 0) 0 100 100 false)
    FireMap.empty
    [ RefillStation.mk (Vector3.mk (-15) 0 (-15)) 3;
      RefillStation.mk (Vector3.mk 15 0 (-15)) 3;
      RefillStation.mk (Vector3.mk (-15) 0 15) 3;
      RefillStation.mk (Vector3.mk 15 0 15) 3 ]
    tutorial
    (Vector3.mk 0.7 0 0.3)
    1.2
    0
    1
    [].

Definition startGame (scene : bool) (prevState : GameState.t)
    : Gen GameState.t :=
  newFires <- initializeFires scene ;;
  ret (GameState.mk
         (Player.mk (Vector3.mk 0 0 0) 0 100
                    (Player.maxWater (GameState.player prevState)) false)
         newFires
         (GameState.refillStations prevState)
         playing
         (GameState.windDirection prevState)
         (GameState.windSpeed prevState)
         0
         1
         (GameState.trees prevState)).

Definition withTrees (s : GameState.t) (trees : list Tree.t) : GameState.t :=
  GameState.mk (GameState.player s) (GameState.fires s)
               (GameState.refillStations s) (GameState.gameStatus s)
               (GameState.windDirection s) (GameState.windSpeed s)
               (GameState.timeElapsed s) (GameState.gameSpeed s) trees.

Definition regenerateTrees (scene : bool) (s : GameState.t)
    : Gen GameState.t :=
  if negb scene then ret s
  else
    newTrees <- generateTrees (GameState.refillStations s) ;;
    ret (withTrees s newTrees).

Definition resetGame (scene : bool) (s : GameState.t) : Gen GameState.t :=
  s' <- regenerateTrees scene s ;;
  startGame scene s'.

(** What [initScene] leaves in the game state: the trees it generates. *)
Definition initScene (s : GameState.t) : Gen GameState.t :=
  trees <- generateTrees (GameState.refillStations s) ;;
  ret (withTrees s trees).

(** [setGameState(prev => ({ ...prev, gameStatus }))], as the instructions
    button does with [tutorial]. *)
Definition withStatus (s : GameState.t) (status : GameStatus) : GameState.t :=
  GameState.mk (GameState.player s) (GameState.fires s)
               (GameState.refillStations s) status
               (GameState.windDirection s) (GameState.windSpeed s)
               (GameState.timeElapsed s) (GameState.gameSpeed s)
               (GameState.trees s).

(** * Vocabulary of the statements

    Predicates, measures and concrete states the theorems below are
    stated with. *)

Definition inWorld (pos : Vector3.t) : Prop :=
  Rabs (Vector3.x pos) <= WORLD_SIZE / 2 - 2
  /\ Rabs (Vector3.z pos) <= WORLD_SIZE / 2 - 2.

(** The two zones of a tree, as [updatePlayer] tests them on the candidate
    position. *)
Definition inTrunk (newX newZ : R) (tree : Tree.t) : Prop :=
  sqrt ((newX - Tree.x tree) ^ 2 + (newZ - Tree.z tree) ^ 2) < 0.4 + 1.

Definition inFoliageOf (newX newZ : R) (tree : Tree.t) : Prop :=
  sqrt ((newX - Tree.x tree) ^ 2 + (newZ - Tree.z tree) ^ 2)
  < Tree.radius tree + 1.

(** A player walking forward while turning left, with a tree where the
    player stands. *)
Definition walkingKeys : KeySet := ["w"; "arrowleft"]%string.

(** What the water does to one cell: [None] when the cell is put out. *)
Definition sprayed (player : Player.t) (deltaTime : R) (fire : FireCell.t)
    : option FireCell.t :=
  if inWaterCone player fire then
    if FireCell.intensity (doused fire deltaTime) <=? 0 then None
    else Some (doused fire deltaTime)
  else Some fire.

Definition originPlayer : Player.t :=
  Player.mk (Vector3.mk 0 0 0) 0 100 100 false.

Definition aheadCell (intensity : R) : FireCell.t :=
  FireCell.mk 0 (-4) intensity 0.

Definition aheadFires (intensity : R) : Fires :=
  [ (gridKey 0 (-4), aheadCell intensity) ].

Definition advance (g : Rng) : Rng := mkRng (tape g) (S (cursor g)).

(** The target of a spread from [fire] in direction [dir]. *)
Definition targetX (gs : GameState.t) (fire : FireCell.t) (dir : R * R) : R :=
  FireCell.x fire + fst dir
  + Vector3.x (GameState.windDirection gs) * GRID_SIZE.

Definition targetZ (gs : GameState.t) (fire : FireCell.t) (dir : R * R) : R :=
  FireCell.z fire + snd dir
  + Vector3.z (GameState.windDirection gs) * GRID_SIZE.

(** The four conditions under which a direction adds a cell. *)
Definition spreads (gs : GameState.t) (fire : FireCell.t) (spreadChance : R)
    (dir : R * R) (m : Fires) (g : Rng) : Prop :=
  tape g (cursor g) < spreadChance
  /\ Rabs (targetX gs fire dir) < WORLD_SIZE / 2
  /\ Rabs (targetZ gs fire dir) < WORLD_SIZE / 2
  /\ FireMap.has (gridKey (targetX gs fire dir) (targetZ gs fire dir)) m
     = false.

(** The keys of the world not yet in the map. *)
Definition missing (m : Fires) : nat :=
  List.length (filter (fun k => negb (FireMap.has k m)) worldKeys).

Definition constRng (c : R) : Rng := mkRng (fun _ => c) 0.

(** A cell at the centre of the world whose timer is about to run out. *)
Definition ripeCell : FireCell.t := FireCell.mk 0 0 1 3.95.

(** A map holding that cell alone, and the map after the cell has spread
    in all four directions under the wind of the initial state. *)
Definition ripeFires : Fires := [(gridKey 0 0, ripeCell)].

Definition ripeSpread : Fires :=
  [ ((0, 0)%Z, FireCell.mk 0 0 1 0);
    ((1, 0)%Z,
     spreadCell (0 + GRID_SIZE + 0.7 * GRID_SIZE) (0 + 0 + 0.3 * GRID_SIZE));
    ((-1, 0)%Z,
     spreadCell (0 + - GRID_SIZE + 0.7 * GRID_SIZE) (0 + 0 + 0.3 * GRID_SIZE));
    ((0, 1)%Z,
     spreadCell (0 + 0 + 0.7 * GRID_SIZE) (0 + GRID_SIZE + 0.3 * GRID_SIZE));
    ((0, -1)%Z,
     spreadCell (0 + 0 + 0.7 * GRID_SIZE)
                (0 + - GRID_SIZE + 0.3 * GRID_SIZE)) ].

(** The session state with the player at the start position and one cell
    straight ahead. *)
Definition aheadState (intensity : R) : GameState.t :=
  GameState.mk originPlayer (aheadFires intensity)
               (GameState.refillStations initialGameState) playing
               (GameState.windDirection initialGameState)
               (GameState.windSpeed initialGameState) 0 1 [].

(** Every number on the tape satisfies [D]. *)
Definition tape_all (D : R -> Prop) (g : Rng) : Prop := forall n, D (tape g n).

Definition unitDraw (r : R) : Prop := 0 <= r < 1.

(** [gen_inv D c Q]: run on a tape of numbers satisfying [D], [c] returns a
    value satisfying [Q] and leaves such a tape. *)
Definition gen_inv {A : Type} (D : R -> Prop) (c : Gen A) (Q : A -> Prop)
    : Prop :=
  forall g, tape_all D g -> Q (fst (c g)) /\ tape_all D (snd (c g)).

Definition cellOk (c : FireCell.t) : Prop := 0 <= FireCell.intensity c <= 1.

Definition cellsOk (m : Fires) : Prop := Forall cellOk (FireMap.values m).

Definition waterOk (p : Player.t) : Prop :=
  0 <= Player.waterLevel p <= Player.maxWater p.

Definition invariant (s : GameState.t) : Prop :=
  cellsOk (GameState.fires s)
  /\ waterOk (GameState.player s)
  /\ inWorld (Player.position (GameState.player s)).

(** The invariant together with what the proof needs besides: the tank
    size never changes, and the tape is a tape of [Math.random]. *)
Definition steady (s : GameState.t) : Prop :=
  invariant s /\ Player.maxWater (GameState.player s) = 100.

(** The worlds a session passes through: the component mounts with the
    initial state and a tape of [Math.random]; the scene is built; the
    player starts, restarts or returns to the instructions; and frames run
    at times that do not go back, which is what the browser's frame clock
    delivers. *)
Inductive reachable : World -> Prop :=
| reach_mount g :
    valid_rng g -> reachable (mkWorld 0 initialGameState g)
| reach_initScene w :
    reachable w ->
    reachable (mkWorld (lastFrameTime w)
                       (fst (initScene (state w) (rng w)))
                       (snd (initScene (state w) (rng w))))
| reach_startGame scene w :
    reachable w ->
    reachable (mkWorld (lastFrameTime w)
                       (fst (startGame scene (state w) (rng w)))
                       (snd (startGame scene (state w) (rng w))))
| reach_resetGame scene w :
    reachable w ->
    reachable (mkWorld (lastFrameTime w)
                       (fst (resetGame scene (state w) (rng w)))
                       (snd (resetGame scene (state w) (rng w))))
| reach_instructions w :
    reachable w ->
    reachable (mkWorld (lastFrameTime w) (withStatus (state w) tutorial)
                       (rng w))
| reach_frame scene keys t w w' :
    reachable w -> lastFrameTime w <= t ->
    gameLoop scene keys t w = Some w' -> reachable w'.

(** The world after the component has mounted and the player has pressed
    start, on a tape that always reads one half. *)
Definition mountedWorld : World := mkWorld 0 initialGameState (constRng 0.5).

Definition startedWorld : World :=
  mkWorld (lastFrameTime mountedWorld)
          (fst (startGame true (state mountedWorld) (rng mountedWorld)))
          (snd (startGame true (state mountedWorld) (rng mountedWorld))).

(** The world of a frame clock that has run ahead of the next frame. *)
Definition lateWorld : World :=
  mkWorld 1000 (aheadState 0.05) (constRng 0.5).

(** What one round of [initializeFires] does, step by step: the spot the
    round ends on, and the intensity drawn for it. *)
Definition seedSpot (fires : Fires) : Gen (bool * (R * R * Key)) :=
  spot0 <- randomSpot ;;
  found <- fireAttempts 100 fires spot0 ;;
  let '(placed, spot1) := found in
  spot2 <- (if negb placed then randomSpot else ret spot1) ;;
  ret (placed, spot2).

(** The tape that always reads one half puts every spot at the centre. *)
Definition halfDraw (r : R) : Prop := r = 0.5.

(** ** Further vocabulary *)

(** The test of the refill loop: the position is inside the station. *)
Definition inStation (pos : Vector3.t) (station : RefillStation.t) : Prop :=
  distance3D pos (RefillStation.position station)
  < RefillStation.radius station.

(** What [updateFires] does to a cell it visits. *)
Definition visited (dt : R) (c c' : FireCell.t) : Prop :=
  c' = grown c dt \/ c' = timerReset (grown c dt).

(** An entry a spread adds. *)
Definition spreadEntry (e : Key * FireCell.t) : Prop :=
  exists x z,
    Rabs x < WORLD_SIZE / 2 /\ Rabs z < WORLD_SIZE / 2
    /\ e = (gridKey x z, spreadCell x z).

(** Whether the suppression step does anything at all. *)
Definition spraying (scene : bool) (keys : KeySet) (player : Player.t)
    : bool :=
  (scene && keys_has " " keys && Rgtb (Player.waterLevel player) 0)%bool.

(** The one-cell state with 2 units of water left. *)
Definition nearlyDryState : GameState.t :=
  GameState.mk (Player.mk (Vector3.mk 0 0 0) 0 2 100 false) (aheadFires 0.5)
               (GameState.refillStations initialGameState) playing
               (GameState.windDirection initialGameState)
               (GameState.windSpeed initialGameState) 0 1 [].

(** The distance [generateTrees] takes between two trees. *)
Definition treeDistance (a b : Tree.t) : R :=
  sqrt ((Tree.x b - Tree.x a) ^ 2 + (Tree.z b - Tree.z a) ^ 2).

(** What [generateTrees] checks of a tree against the stations, the centre
    and the world, and what it draws for its radius. *)
Definition treeClear (stations : list RefillStation.t) (t : Tree.t) : Prop :=
  (forall station,
     In station stations ->
     5 <= sqrt ((Tree.x t - Vector3.x (RefillStation.position station)) ^ 2
                + (Tree.z t - Vector3.z (RefillStation.position station)) ^ 2))
  /\ 8 <= sqrt (Tree.x t ^ 2 + Tree.z t ^ 2)
  /\ 0.8 <= Tree.radius t < 1.44
  /\ Rabs (Tree.x t) <= (WORLD_SIZE - 5) / 2
  /\ Rabs (Tree.z t) <= (WORLD_SIZE - 5) / 2.

(** What it checks of a tree against a tree placed before it: the later
    tree's radius enters as drawn, before it is scaled by 0.8. *)
Definition treesApart (earlier later : Tree.t) : Prop :=
  Tree.radius earlier + Tree.radius later / 0.8 + 1
  <= treeDistance earlier later.

(** A list of trees every check of [generateTrees] has passed. *)
Definition treesOk (stations : list RefillStation.t) (trees : list Tree.t)
    : Prop :=
  Forall (treeClear stations) trees /\ ForallOrdPairs treesApart trees.

(** A spot as [initializeFires] draws it. *)
Definition spotOk (spot : R * R * Key) : Prop :=
  let '(x, z, key) := spot in
  key = gridKey x z
  /\ - (WORLD_SIZE - 10) / 2 <= x < (WORLD_SIZE - 10) / 2
  /\ - (WORLD_SIZE - 10) / 2 <= z < (WORLD_SIZE - 10) / 2.

(** A cell as [initializeFires] writes it. *)
Definition seedOk (entry : Key * FireCell.t) : Prop :=
  let '(key, cell) := entry in
  key = gridKey (FireCell.x cell) (FireCell.z cell)
  /\ (exists a b : Z,
        FireCell.x cell = IZR a * GRID_SIZE
        /\ FireCell.z cell = IZR b * GRID_SIZE)
  /\ -16 <= FireCell.x cell <= 14 /\ -16 <= FireCell.z cell <= 14
  /\ 0.5 <= FireCell.intensity cell < 1
  /\ FireCell.spreadTime cell = 0.

(** The spot is further than the minimum distance from the cell. *)
Definition farFrom (x z : R) (cell : FireCell.t) : Prop :=
  6 < sqrt ((x - FireCell.x cell) ^ 2 + (z - FireCell.z cell) ^ 2).

(** A cell sits under the grid key of its own coordinates, and that key is
    one of the keys of the world. *)
Definition placedOk (entry : Key * FireCell.t) : Prop :=
  fst entry = gridKey (FireCell.x (snd entry)) (FireCell.z (snd entry))
  /\ In (fst entry) worldKeys.

(** A fire map without duplicate keys whose cells are all in place. *)
Definition tidy (m : Fires) : Prop := FireMap.wf m /\ Forall placedOk m.

(** The clock and the difficulty of a session. *)
Definition paced (s : GameState.t) : Prop :=
  0 <= GameState.timeElapsed s
  /\ 1 <= GameState.gameSpeed s <= 1.8
  /\ GameState.gameSpeed s <= 1 + GameState.timeElapsed s / 90.

(** The timer of the cell does not run out in this tick. *)
Definition quiet (gs : GameState.t) (dt : R) (c : FireCell.t) : Prop :=
  FireCell.spreadTime c + dt <= FIRE_SPREAD_RATE / GameState.gameSpeed gs.

(** An entry after a tick in which it only grows. *)
Definition grownEntry (dt : R) (e : Key * FireCell.t) : Key * FireCell.t :=
  (fst e, grown (snd e) dt).

(** The stations are those of the initial state and the trees have passed
    the checks against them. *)
Definition wooded (s : GameState.t) : Prop :=
  GameState.refillStations s = GameState.refillStations initialGameState
  /\ (List.length (GameState.trees s) <= 40)%nat
  /\ treesOk (GameState.refillStations initialGameState) (GameState.trees s).







(** A tape on which the first two attempts of [generateTrees] place a
    tree, one east and one west of the centre, and every later draw is
    one half. *)
Definition twoTreeTape : Rng :=
  mkRng (fun n =>
           match n with
           | 0%nat => 0.9 | 1%nat => 0.5 | 2%nat => 0
           | 3%nat => 0.1 | 4%nat => 0.5 | 5%nat => 0
           | _ => 0.5
           end) 0.

Definition eastTree : Tree.t := Tree.mk 14 0 0.8.

Definition westTree : Tree.t := Tree.mk (-14) 0 0.8.

(** A session mounted on that tape, after [initScene] and [startGame]. *)
Definition woodedWorld : World :=
  let mounted := mkWorld 0 initialGameState twoTreeTape in
  let scened :=
    mkWorld (lastFrameTime mounted)
            (fst (initScene (state mounted) (rng mounted)))
            (snd (initScene (state mounted) (rng mounted))) in
  mkWorld (lastFrameTime scened)
          (fst (startGame true (state scened) (rng scened)))
          (snd (startGame true (state scened) (rng scened))).

(** * Properties *)

(** ** Numbers *)

Lemma Rltb_true a b : (a <? b) = true <-> a < b.
Proof. unfold Rltb; destruct (Rlt_dec a b); split; intros; try easy. Qed.

Lemma Rltb_false a b : (a <? b) = false <-> b <= a.
Proof.
  unfold Rltb; destruct (Rlt_dec a b); split; intros; try easy; lra.
Qed.

Lemma Rleb_true a b : (a <=? b) = true <-> a <= b.
Proof. unfold Rleb; destruct (Rle_dec a b); split; intros; try easy. Qed.

Lemma Rleb_false a b : (a <=? b) = false <-> b < a.
Proof.
  unfold Rleb; destruct (Rle_dec a b); split; intros; try easy; lra.
Qed.

Lemma Reqb_true a b : (a =? b) = true <-> a = b.
Proof. unfold Reqb; destruct (Req_dec_T a b); split; intros; try easy. Qed.

Lemma Reqb_false a b : (a =? b) = false <-> a <> b.
Proof. unfold Reqb; destruct (Req_dec_T a b); split; intros; try easy. Qed.

Lemma floor_eq (r : R) (z : Z) : IZR z <= r < IZR z + 1 -> floor r = z.
Proof.
  intros [Hlo Hhi]. symmetry. apply Int_part_spec. lra.
Qed.

Lemma floor_bounds (r : R) : IZR (floor r) <= r < IZR (floor r) + 1.
Proof.
  unfold floor. destruct (base_Int_part r) as [H1 H2]. lra.
Qed.

Lemma Rneqb_refl a : Rneqb a a = false.
Proof.
  unfold Rneqb. destruct (a =? a) eqn:E; [reflexivity|].
  apply Reqb_false in E. contradiction.
Qed.

Lemma Rabs_le_iff a b : Rabs a <= b <-> - b <= a <= b.
Proof. unfold Rabs. destruct (Rcase_abs a); lra. Qed.

Lemma Rabs_lt_iff a b : Rabs a < b <-> - b < a < b.
Proof. unfold Rabs. destruct (Rcase_abs a); lra. Qed.

Lemma sqrt_lt_of_sq (x b : R) : 0 < b -> x < b * b -> sqrt x < b.
Proof.
  intros Hb Hx. destruct (Rle_dec 0 x) as [H0|H0].
  - rewrite <- (sqrt_square b) by lra. apply sqrt_lt_1_alt. lra.
  - rewrite sqrt_neg_0 by lra. exact Hb.
Qed.

Lemma sqrt_ge_of_sq (x b : R) : 0 <= b -> b * b <= x -> b <= sqrt x.
Proof.
  intros Hb Hx. rewrite <- (sqrt_square b) by lra.
  apply sqrt_le_1_alt, Hx.
Qed.

Lemma sqrt_of_sq (x b : R) : 0 <= b -> x = b * b -> sqrt x = b.
Proof. intros Hb ->. apply sqrt_square, Hb. Qed.

(** Turns the boolean tests on reals in the goal and the context into
    inequalities. *)
Ltac reflect_R :=
  repeat match goal with
  | H : (_ <? _) = true |- _ => apply Rltb_true in H
  | H : (_ <? _) = false |- _ => apply Rltb_false in H
  | H : (_ <=? _) = true |- _ => apply Rleb_true in H
  | H : (_ <=? _) = false |- _ => apply Rleb_false in H
  | H : (_ =? _) = true |- _ => apply Reqb_true in H
  | H : (_ =? _) = false |- _ => apply Reqb_false in H
  | H : Rgtb _ _ = _ |- _ => unfold Rgtb in H
  end.

(** Decides a boolean test on reals whose two sides [lra] can compare. *)
Ltac decide_R :=
  repeat match goal with
  | |- context [Rgtb ?a ?b] => unfold Rgtb
  | |- context [?a <? ?b] =>
      let E := fresh "E" in
      destruct (a <? b) eqn:E; reflect_R; try lra
  | |- context [?a <=? ?b] =>
      let E := fresh "E" in
      destruct (a <=? b) eqn:E; reflect_R; try lra
  end.

(** ** The player *)

Lemma clampToWorld_bounds c : Rabs (clampToWorld c) <= WORLD_SIZE / 2 - 2.
Proof.
  unfold clampToWorld, WORLD_SIZE, Rmax, Rmin, Rabs.
  repeat match goal with
  | |- context [Rle_dec ?a ?b] => destruct (Rle_dec a b)
  | |- context [Rcase_abs ?a] => destruct (Rcase_abs a)
  end; lra.
Qed.

Lemma clampToWorld_id c : Rabs c <= WORLD_SIZE / 2 - 2 -> clampToWorld c = c.
Proof.
  unfold clampToWorld, WORLD_SIZE. intros H.
  apply Rabs_le_iff in H.
  rewrite Rmin_right by lra. rewrite Rmax_right by lra. reflexivity.
Qed.

Lemma moving_false keys :
  keys_has "w" keys = false -> keys_has "s" keys = false ->
  keys_has "a" keys = false -> keys_has "d" keys = false ->
  moving keys = false.
Proof.
  intros Hw Hs Ha Hd. unfold moving, moveVectorOf.
  rewrite Hw, Hs, Ha, Hd. rewrite Rneqb_refl. reflexivity.
Qed.

Lemma updatePlayer_position_still keys gs player dt :
  moving keys = false ->
  Player.position (updatePlayer keys gs player dt) = Player.position player.
Proof.
  intros Hm. unfold updatePlayer. rewrite Hm.
  destruct (refill _ _ _ _ _); reflexivity.
Qed.

Lemma updatePlayer_rotation keys gs player dt :
  Player.rotation (updatePlayer keys gs player dt)
  = turned keys (Player.rotation player) dt.
Proof.
  unfold updatePlayer.
  destruct (refill _ _ _ _ _). reflexivity.
Qed.

(** C10. With none of the move keys (forward, back, strafe left, strafe
    right) held, [updatePlayer] returns the position it was given, whatever
    that position is: the boundary check is not run on such a tick. *)
Theorem updatePlayer_idle_position (keys : KeySet) (gs : GameState.t)
    (player : Player.t) (deltaTime : R) :
  keys_has "w" keys = false -> keys_has "s" keys = false ->
  keys_has "a" keys = false -> keys_has "d" keys = false ->
  Player.position (updatePlayer keys gs player deltaTime)
  = Player.position player.
Proof.
  intros Hw Hs Ha Hd.
  apply updatePlayer_position_still, moving_false; assumption.
Qed.

Lemma treeCollisions_trunk newX newZ trees :
  forall acc,
  (exists tree, In tree trees /\ inTrunk newX newZ tree) ->
  fst (treeCollisions newX newZ trees acc) = true.
Proof.
  induction trees as [|t rest IH]; intros acc [tree [Hin Hhit]].
  - destruct Hin.
  - cbn [treeCollisions]; cbv zeta.
    destruct (_ <? 0.4 + 1) eqn:E; [reflexivity|].
    apply IH. destruct Hin as [->|Hin].
    + apply Rltb_false in E. unfold inTrunk in Hhit. lra.
    + exists tree. split; assumption.
Qed.

Lemma treeCollisions_clear newX newZ trees :
  forall acc,
  (forall tree, In tree trees -> ~ inTrunk newX newZ tree) ->
  treeCollisions newX newZ trees acc
  = (false,
     (acc || existsb (fun tree =>
                        sqrt ((newX - Tree.x tree) ^ 2
                              + (newZ - Tree.z tree) ^ 2)
                        <? Tree.radius tree + 1) trees)%bool).
Proof.
  induction trees as [|t rest IH]; intros acc Hclear.
  - simpl. rewrite orb_false_r. reflexivity.
  - cbn [treeCollisions existsb]; cbv zeta.
    destruct (_ <? 0.4 + 1) eqn:E.
    + apply Rltb_true in E. exfalso. apply (Hclear t); [left; reflexivity|].
      exact E.
    + rewrite IH by (intros tree Hin; apply Hclear; right; exact Hin).
      destruct (_ <? Tree.radius t + 1); destruct acc; reflexivity.
Qed.

Lemma foliage_existsb newX newZ trees :
  existsb (fun tree =>
             sqrt ((newX - Tree.x tree) ^ 2 + (newZ - Tree.z tree) ^ 2)
             <? Tree.radius tree + 1) trees = true
  <-> exists tree, In tree trees /\ inFoliageOf newX newZ tree.
Proof.
  rewrite existsb_exists. unfold inFoliageOf.
  split; intros [tree [Hin H]]; exists tree; split; auto;
    apply Rltb_true; exact H.
Qed.

(** C7. On a tick that moves, the heading is the turned heading in every
    case; a candidate position in the trunk zone (0.4 + 1) of some tree
    leaves the position as it was (through the boundary check, which is
    the identity inside the world); a candidate clear of every trunk but in
    the foliage zone of some tree moves the player at half of the base
    speed; a candidate clear of both moves it at the base speed. *)
Theorem updatePlayer_tree_zones (keys : KeySet) (gs : GameState.t)
    (player : Player.t) (deltaTime : R) :
  let pos := Player.position player in
  let rotation' := turned keys (Player.rotation player) deltaTime in
  let rotatedX := fst (rotatedMove keys rotation') in
  let rotatedZ := snd (rotatedMove keys rotation') in
  let newX := Vector3.x pos + rotatedX * 5 * deltaTime in
  let newZ := Vector3.z pos + rotatedZ * 5 * deltaTime in
  let player' := updatePlayer keys gs player deltaTime in
  moving keys = true ->
  Player.rotation player' = rotation'
  /\ ((exists tree, In tree (GameState.trees gs) /\ inTrunk newX newZ tree) ->
      Player.position player'
      = Vector3.mk (clampToWorld (Vector3.x pos)) (Vector3.y pos)
                   (clampToWorld (Vector3.z pos))
      /\ (inWorld pos -> Player.position player' = pos))
  /\ ((forall tree, In tree (GameState.trees gs) -> ~ inTrunk newX newZ tree) ->
      (exists tree, In tree (GameState.trees gs)
                    /\ inFoliageOf newX newZ tree) ->
      Player.position player'
      = Vector3.mk
          (clampToWorld (Vector3.x pos + rotatedX * (5 * 0.5) * deltaTime))
          (Vector3.y pos)
          (clampToWorld (Vector3.z pos + rotatedZ * (5 * 0.5) * deltaTime)))
  /\ ((forall tree, In tree (GameState.trees gs) -> ~ inTrunk newX newZ tree) ->
      (forall tree, In tree (GameState.trees gs)
                    -> ~ inFoliageOf newX newZ tree) ->
      Player.position player'
      = Vector3.mk (clampToWorld newX) (Vector3.y pos) (clampToWorld newZ)).
Proof.
  intros pos rotation' rotatedX rotatedZ newX newZ player' Hmove.
  split; [apply updatePlayer_rotation|].
  assert (Hpos : Player.position player'
    = let '(trunkCollision, inFoliage) :=
        treeCollisions newX newZ (GameState.trees gs) false in
      let '(px, pz) :=
        if negb trunkCollision then
          if inFoliage then
            (Vector3.x pos + rotatedX * (5 * 0.5) * deltaTime,
             Vector3.z pos + rotatedZ * (5 * 0.5) * deltaTime)
          else (newX, newZ)
        else (Vector3.x pos, Vector3.z pos) in
      Vector3.mk (clampToWorld px) (Vector3.y pos) (clampToWorld pz)).
  { subst player'. unfold updatePlayer. rewrite Hmove.
    fold pos. fold rotation'.
    subst newX newZ rotatedX rotatedZ.
    destruct (rotatedMove keys rotation') as [rx rz]. simpl fst. simpl snd.
    destruct (refill _ _ _ _ _). reflexivity. }
  rewrite Hpos. clear Hpos. split; [|split].
  - intros Htrunk.
    pose proof (treeCollisions_trunk newX newZ (GameState.trees gs) false
                  Htrunk) as Ht.
    destruct (treeCollisions newX newZ (GameState.trees gs) false)
      as [trunk fol].
    simpl in Ht. subst trunk. simpl. split; [reflexivity|].
    intros [Hx Hz]. rewrite !clampToWorld_id by assumption.
    destruct pos; reflexivity.
  - intros Hclear Hfol.
    rewrite (treeCollisions_clear _ _ _ false Hclear).
    apply foliage_existsb in Hfol. rewrite Hfol. reflexivity.
  - intros Hclear Hnofol.
    rewrite (treeCollisions_clear _ _ _ false Hclear).
    destruct (existsb _ (GameState.trees gs)) eqn:E.
    + apply foliage_existsb in E. destruct E as [tree [Hin Hf]].
      exfalso. exact (Hnofol tree Hin Hf).
    + reflexivity.
Qed.

Lemma moving_walkingKeys : moving walkingKeys = true.
Proof.
  unfold moving, moveVectorOf, walkingKeys. cbn [keys_has existsb String.eqb
    Ascii.eqb Bool.eqb orb].
  unfold Rneqb. destruct (0 - 1 =? 0) eqn:E.
  - apply Reqb_true in E. lra.
  - rewrite orb_true_r. reflexivity.
Qed.

Lemma rotatedMove_walkingKeys r :
  rotatedMove walkingKeys r = (sin r, - cos r).
Proof.
  unfold rotatedMove, moveVectorOf, walkingKeys. cbn [keys_has existsb
    String.eqb Ascii.eqb Bool.eqb orb].
  replace (0 * 0 + (0 - 1) * (0 - 1)) with 1 by lra.
  rewrite sqrt_1. f_equal; lra.
Qed.

Lemma updatePlayer_idle_position_witness :
  Player.position
    (updatePlayer ["arrowleft"; " "]%string initialGameState
       (Player.mk (Vector3.mk 25 0 0) 0 100 100 false) 0.1)
  = Vector3.mk 25 0 0.
Proof.
  apply (updatePlayer_idle_position ["arrowleft"; " "]%string
           initialGameState (Player.mk (Vector3.mk 25 0 0) 0 100 100 false)
           0.1); reflexivity.
Defined.

Lemma updatePlayer_tree_zones_witness :
  let gs := withTrees initialGameState [Tree.mk 10 10 1] in
  let player := Player.mk (Vector3.mk 10 0 10) 0 100 100 false in
  let player' := updatePlayer walkingKeys gs player 0.1 in
  Player.rotation player' = 0 + 0.032 * 60 * 0.1
  /\ Player.position player' = Vector3.mk 10 0 10.
Proof.
  intros gs player player'.
  destruct (updatePlayer_tree_zones walkingKeys gs player 0.1
              moving_walkingKeys) as [Hrot [Htrunk _]].
  split.
  - exact Hrot.
  - apply Htrunk.
    + exists (Tree.mk 10 10 1). split; [left; reflexivity|].
      unfold inTrunk. rewrite rotatedMove_walkingKeys.
      cbn [fst snd Player.position player Vector3.x Vector3.z Tree.x Tree.z].
      apply sqrt_lt_of_sq; [lra|].
      pose proof (sin2_cos2 (turned walkingKeys (Player.rotation player) 0.1))
        as Hsc.
      unfold Rsqr in Hsc. cbn [pow]. nra.
    + unfold inWorld, WORLD_SIZE. cbn. split; apply Rabs_le_iff; lra.
Defined.

(** ** The fire map *)

Lemma key_eqb_eq (a b : Key) : key_eqb a b = true <-> a = b.
Proof.
  destruct a as [a1 a2], b as [b1 b2]. unfold key_eqb. simpl.
  rewrite andb_true_iff, !Z.eqb_eq. split.
  - intros [-> ->]. reflexivity.
  - intros H. inversion H. auto.
Qed.

Lemma key_eqb_refl (a : Key) : key_eqb a a = true.
Proof. apply key_eqb_eq. reflexivity. Qed.

Lemma key_eqb_neq (a b : Key) : key_eqb a b = false <-> a <> b.
Proof.
  destruct (key_eqb a b) eqn:E.
  - apply key_eqb_eq in E. split; [discriminate|contradiction].
  - split; [|reflexivity]. intros _ Heq. apply key_eqb_eq in Heq. congruence.
Qed.

Lemma has_In k m : FireMap.has k m = true <-> In k (FireMap.keys m).
Proof.
  induction m as [|[k' v'] rest IH]; simpl.
  - split; [discriminate|contradiction].
  - destruct (key_eqb k k') eqn:E.
    + apply key_eqb_eq in E. subst. split; auto.
    + apply key_eqb_neq in E. rewrite IH. split; [auto|].
      intros [H|H]; [congruence|exact H].
Qed.

Lemma has_get k m : FireMap.has k m = false <-> FireMap.get k m = None.
Proof.
  induction m as [|[k' v'] rest IH]; simpl.
  - split; reflexivity.
  - destruct (key_eqb k k'); [split; discriminate|exact IH].
Qed.

Lemma get_In k v m : FireMap.get k m = Some v -> In (k, v) m.
Proof.
  induction m as [|[k' v'] rest IH]; simpl; [discriminate|].
  destruct (key_eqb k k') eqn:E.
  - apply key_eqb_eq in E. subst. intros [= ->]. left. reflexivity.
  - intros H. right. apply IH, H.
Qed.

Lemma In_get k v m : FireMap.wf m -> In (k, v) m -> FireMap.get k m = Some v.
Proof.
  unfold FireMap.wf.
  induction m as [|[k' v'] rest IH]; simpl; intros Hwf Hin; [contradiction|].
  inversion Hwf as [|? ? Hnot Hrest]; subst.
  destruct Hin as [[= -> ->]|Hin].
  - rewrite key_eqb_refl. reflexivity.
  - destruct (key_eqb k k') eqn:E.
    + apply key_eqb_eq in E. subst. exfalso. apply Hnot.
      change (In (fst (k', v)) (map fst rest)). apply in_map, Hin.
    + apply IH; assumption.
Qed.

Lemma get_set_same k v m : FireMap.get k (FireMap.set k v m) = Some v.
Proof.
  induction m as [|[k' v'] rest IH]; simpl.
  - rewrite key_eqb_refl. reflexivity.
  - destruct (key_eqb k k') eqn:E; simpl.
    + rewrite key_eqb_refl. reflexivity.
    + rewrite E. exact IH.
Qed.

Lemma get_set_other k k' v m :
  k <> k' -> FireMap.get k (FireMap.set k' v m) = FireMap.get k m.
Proof.
  intros Hne. induction m as [|[k0 v0] rest IH]; simpl.
  - apply key_eqb_neq in Hne. rewrite Hne. reflexivity.
  - destruct (key_eqb k' k0) eqn:E; simpl.
    + apply key_eqb_eq in E. subst k0.
      apply key_eqb_neq in Hne. rewrite Hne. reflexivity.
    + destruct (key_eqb k k0); [reflexivity|exact IH].
Qed.

Lemma get_delete_other k k' m :
  k <> k' -> FireMap.get k (FireMap.delete k' m) = FireMap.get k m.
Proof.
  intros Hne. induction m as [|[k0 v0] rest IH]; simpl; [reflexivity|].
  destruct (key_eqb k' k0) eqn:E; simpl.
  - apply key_eqb_eq in E. subst k0.
    apply key_eqb_neq in Hne. rewrite Hne. reflexivity.
  - destruct (key_eqb k k0); [reflexivity|exact IH].
Qed.

Lemma get_delete_same k m :
  FireMap.wf m -> FireMap.get k (FireMap.delete k m) = None.
Proof.
  unfold FireMap.wf.
  induction m as [|[k0 v0] rest IH]; simpl; intros Hwf; [reflexivity|].
  inversion Hwf as [|? ? Hnot Hrest]; subst.
  destruct (key_eqb k k0) eqn:E; simpl.
  - apply key_eqb_eq in E. subst k0.
    apply has_get. destruct (FireMap.has k rest) eqn:Hh; [|reflexivity].
    apply has_In in Hh. contradiction.
  - rewrite E. apply IH, Hrest.
Qed.

Lemma keys_set_has k v m :
  FireMap.has k m = true -> FireMap.keys (FireMap.set k v m) = FireMap.keys m.
Proof.
  induction m as [|[k0 v0] rest IH]; simpl; [discriminate|].
  destruct (key_eqb k k0) eqn:E; simpl.
  - apply key_eqb_eq in E. subst. reflexivity.
  - intros H. f_equal. apply IH, H.
Qed.

Lemma set_fresh k v m :
  FireMap.has k m = false -> FireMap.set k v m = m ++ [(k, v)].
Proof.
  induction m as [|[k0 v0] rest IH]; simpl; [reflexivity|].
  destruct (key_eqb k k0); [discriminate|].
  intros H. f_equal. apply IH, H.
Qed.

Lemma wf_set k v m : FireMap.wf m -> FireMap.wf (FireMap.set k v m).
Proof.
  intros Hwf. destruct (FireMap.has k m) eqn:E.
  - unfold FireMap.wf. rewrite keys_set_has by exact E. exact Hwf.
  - rewrite set_fresh by exact E. unfold FireMap.wf, FireMap.keys in *.
    rewrite map_app. simpl.
    apply NoDup_app; [exact Hwf|repeat constructor; intros []|].
    intros a Ha [Heq|[]]. subst a.
    assert (FireMap.has k m = true) by (apply has_In; exact Ha).
    congruence.
Qed.

Lemma keys_delete_incl k m a :
  In a (FireMap.keys (FireMap.delete k m)) -> In a (FireMap.keys m).
Proof.
  induction m as [|[k0 v0] rest IH]; simpl; [auto|].
  destruct (key_eqb k k0); simpl; [auto|].
  intros [H|H]; [left; exact H|right; apply IH, H].
Qed.

Lemma wf_delete k m : FireMap.wf m -> FireMap.wf (FireMap.delete k m).
Proof.
  unfold FireMap.wf.
  induction m as [|[k0 v0] rest IH]; simpl; intros Hwf; [constructor|].
  inversion Hwf as [|? ? Hnot Hrest]; subst.
  destruct (key_eqb k k0); simpl; [exact Hrest|].
  constructor; [|apply IH, Hrest].
  intros Hin. apply Hnot. eapply keys_delete_incl, Hin.
Qed.

(** ** Suppression *)

Lemma get_not_in k (m : Fires) :
  ~ In k (FireMap.keys m) -> FireMap.get k m = None.
Proof.
  intros Hn. apply has_get. destruct (FireMap.has k m) eqn:E; [|reflexivity].
  apply has_In in E. contradiction.
Qed.

Lemma sprayLoop_get player dt entries :
  forall m k,
  FireMap.wf entries -> FireMap.wf m ->
  (forall k' fire, In (k', fire) entries -> FireMap.get k' m = Some fire) ->
  FireMap.get k (sprayLoop player dt entries m)
  = match FireMap.get k entries with
    | Some fire => sprayed player dt fire
    | None => FireMap.get k m
    end.
Proof.
  induction entries as [|[k0 f0] rest IH]; intros m k Hwe Hwm Hsame.
  - reflexivity.
  - cbn [sprayLoop FireMap.get]; cbv zeta.
    unfold FireMap.wf in Hwe. simpl in Hwe.
    inversion Hwe as [|? ? Hnot Hrest]; subst.
    set (m' := if inWaterCone player f0
               then if FireCell.intensity (doused f0 dt) <=? 0
                    then FireMap.delete k0 m
                    else FireMap.set k0 (doused f0 dt) m
               else m).
    assert (Hwm' : FireMap.wf m').
    { subst m'. destruct (inWaterCone player f0); [|exact Hwm].
      destruct (_ <=? 0); [apply wf_delete|apply wf_set]; exact Hwm. }
    assert (Hother : forall k', k' <> k0 -> FireMap.get k' m' = FireMap.get k' m).
    { intros k' Hne. subst m'. destruct (inWaterCone player f0); [|reflexivity].
      destruct (_ <=? 0);
        [apply get_delete_other|apply get_set_other]; exact Hne. }
    assert (Hsame' : forall k' fire,
               In (k', fire) rest -> FireMap.get k' m' = Some fire).
    { intros k' fire Hin. rewrite Hother.
      - apply Hsame. right. exact Hin.
      - intros ->. apply Hnot.
        change (In (fst (k0, fire)) (map fst rest)). apply in_map, Hin. }
    rewrite (IH m' k Hrest Hwm' Hsame').
    destruct (key_eqb k k0) eqn:E.
    + apply key_eqb_eq in E. subst k.
      rewrite (get_not_in k0 rest Hnot).
      subst m'. unfold sprayed.
      destruct (inWaterCone player f0).
      * destruct (_ <=? 0); [apply get_delete_same, Hwm|apply get_set_same].
      * apply Hsame. left. reflexivity.
    + apply key_eqb_neq in E.
      destruct (FireMap.get k rest); [reflexivity|]. apply Hother, E.
Qed.

(** The fire map after suppression, cell by cell. *)
Lemma checkWaterFireCollision_get keys player fires dt k :
  FireMap.wf fires ->
  keys_has " " keys = true -> 0 < Player.waterLevel player ->
  FireMap.get k (checkWaterFireCollision true keys player fires dt)
  = match FireMap.get k fires with
    | Some fire => sprayed player dt fire
    | None => None
    end.
Proof.
  intros Hwf Hshoot Hwater. unfold checkWaterFireCollision.
  rewrite Hshoot. apply Rltb_true in Hwater. unfold Rgtb. rewrite Hwater.
  simpl negb. cbn [andb].
  rewrite sprayLoop_get; try assumption.
  - destruct (FireMap.get k fires); reflexivity.
  - intros k' fire Hin. apply In_get; assumption.
Qed.

(** C8. With the shoot key up, or with no water left, the suppression
    step returns the fire map it was given. *)
Theorem checkWaterFireCollision_idle (scene : bool) (keys : KeySet)
    (player : Player.t) (fires : Fires) (deltaTime : R) :
  keys_has " " keys = false \/ Player.waterLevel player <= 0 ->
  checkWaterFireCollision scene keys player fires deltaTime = fires.
Proof.
  intros H. unfold checkWaterFireCollision.
  destruct scene; [|reflexivity]. simpl negb. cbv iota.
  destruct H as [H|H].
  - rewrite H. reflexivity.
  - unfold Rgtb. apply Rltb_false in H. rewrite H.
    rewrite andb_false_r. reflexivity.
Qed.

(** C3. With the shoot key down and water left, a cell of the map that is
    closer than 8 to the player and whose direction from the player has a
    dot product above 0.4 with the water direction loses exactly
    1.5 * deltaTime of intensity; it is gone from the resulting map when
    what remains is at most 0, and stays under its key with the reduced
    intensity otherwise. *)
Theorem checkWaterFireCollision_hit (keys : KeySet) (player : Player.t)
    (fires : Fires) (deltaTime : R) (key : Key) (fire : FireCell.t) :
  FireMap.wf fires ->
  keys_has " " keys = true ->
  0 < Player.waterLevel player ->
  FireMap.get key fires = Some fire ->
  distance3D (Player.position player) (firePosition fire) < WATER_RANGE ->
  aimDot player fire > 0.4 ->
  let fires' := checkWaterFireCollision true keys player fires deltaTime in
  (FireMap.has key fires' = false
   <-> FireCell.intensity fire - 1.5 * deltaTime <= 0)
  /\ (0 < FireCell.intensity fire - 1.5 * deltaTime ->
      FireMap.get key fires'
      = Some (FireCell.mk (FireCell.x fire) (FireCell.z fire)
                          (FireCell.intensity fire - 1.5 * deltaTime)
                          (FireCell.spreadTime fire))).
Proof.
  intros Hwf Hshoot Hwater Hget Hdist Hdot fires'.
  assert (Hres : FireMap.get key fires' = sprayed player deltaTime fire).
  { subst fires'. rewrite checkWaterFireCollision_get by assumption.
    rewrite Hget. reflexivity. }
  assert (Hcone : inWaterCone player fire = true).
  { unfold inWaterCone. apply Rltb_true in Hdist. rewrite Hdist.
    apply Rltb_true. lra. }
  unfold sprayed in Hres. rewrite Hcone in Hres.
  change (FireCell.intensity (doused fire deltaTime))
    with (FireCell.intensity fire - 1.5 * deltaTime) in Hres.
  split.
  - rewrite has_get, Hres.
    destruct (_ <=? 0) eqn:E; reflect_R; split; intros; try lra; try easy.
  - intros Hpos. rewrite Hres.
    destruct (_ <=? 0) eqn:E; reflect_R; [lra|reflexivity].
Qed.

(** *** Scenarios A and B: one cell straight ahead *)

Lemma gridKey_ahead : gridKey 0 (-4) = (0, -2)%Z.
Proof.
  unfold gridKey, GRID_SIZE. f_equal; apply floor_eq; lra.
Qed.

Lemma distance_ahead pos_water rot mw rf i t :
  distance3D
    (Player.position (Player.mk (Vector3.mk 0 0 0) rot pos_water mw rf))
    (firePosition (FireCell.mk 0 (-4) i t)) = 4.
Proof.
  unfold distance3D, firePosition. cbn [Player.position Vector3.x Vector3.y
    Vector3.z FireCell.x FireCell.z].
  apply sqrt_of_sq; [lra|]. cbn [pow]. lra.
Qed.

Lemma aimDot_ahead water mw rf i t :
  aimDot (Player.mk (Vector3.mk 0 0 0) 0 water mw rf)
         (FireCell.mk 0 (-4) i t) = 1.
Proof.
  unfold aimDot, normalize3D, firePosition.
  cbn [Player.position Player.rotation Vector3.x Vector3.y Vector3.z
       FireCell.x FireCell.z].
  rewrite (sqrt_of_sq _ 4) by lra.
  unfold Rgtb. destruct (0 <? 4) eqn:E; reflect_R; [|lra].
  cbn [Vector3.x Vector3.z]. rewrite sin_0, cos_0. lra.
Qed.

Lemma inWaterCone_ahead water mw rf i t :
  inWaterCone (Player.mk (Vector3.mk 0 0 0) 0 water mw rf)
              (FireCell.mk 0 (-4) i t) = true.
Proof.
  unfold inWaterCone. rewrite distance_ahead, aimDot_ahead.
  unfold WATER_RANGE, Rgtb. decide_R; reflexivity.
Qed.

Lemma wf_singleton k v : FireMap.wf [(k, v)].
Proof. repeat constructor. intros []. Qed.

Lemma get_singleton k v : FireMap.get k [(k, v)] = Some v.
Proof. simpl. rewrite key_eqb_refl. reflexivity. Qed.

(** The suppression step on a map of one cell. *)
Lemma checkWaterFireCollision_singleton keys player k fire dt :
  keys_has " " keys = true -> 0 < Player.waterLevel player ->
  checkWaterFireCollision true keys player [(k, fire)] dt
  = match sprayed player dt fire with
    | Some fire' => [(k, fire')]
    | None => []
    end.
Proof.
  intros Hshoot Hwater. unfold checkWaterFireCollision.
  rewrite Hshoot. apply Rltb_true in Hwater. unfold Rgtb. rewrite Hwater.
  cbn [negb andb sprayLoop]. unfold sprayed.
  destruct (inWaterCone player fire); [|reflexivity].
  destruct (_ <=? 0); cbn [FireMap.delete FireMap.set];
    rewrite key_eqb_refl; reflexivity.
Qed.

Lemma checkWaterFireCollision_hit_witness :
  FireMap.get (gridKey 0 (-4))
    (checkWaterFireCollision true [" "%string] originPlayer
       (aheadFires 0.5) 0.1)
  = Some (aheadCell 0.35)
  /\ FireMap.has (gridKey 0 (-4))
       (checkWaterFireCollision true [" "%string] originPlayer
          (aheadFires 0.05) 0.1)
     = false.
Proof.
  split.
  - destruct (checkWaterFireCollision_hit [" "%string] originPlayer
                (aheadFires 0.5) 0.1 (gridKey 0 (-4)) (aheadCell 0.5))
      as [_ Hkept].
    + apply wf_singleton.
    + reflexivity.
    + simpl. lra.
    + apply get_singleton.
    + unfold originPlayer, aheadCell. rewrite distance_ahead.
      unfold WATER_RANGE. lra.
    + unfold originPlayer, aheadCell. rewrite aimDot_ahead. lra.
    + rewrite Hkept by (simpl; lra).
      unfold aheadCell. cbn [FireCell.x FireCell.z FireCell.intensity
        FireCell.spreadTime]. do 2 f_equal. lra.
  - destruct (checkWaterFireCollision_hit [" "%string] originPlayer
                (aheadFires 0.05) 0.1 (gridKey 0 (-4)) (aheadCell 0.05))
      as [Hgone _].
    + apply wf_singleton.
    + reflexivity.
    + simpl. lra.
    + apply get_singleton.
    + unfold originPlayer, aheadCell. rewrite distance_ahead.
      unfold WATER_RANGE. lra.
    + unfold originPlayer, aheadCell. rewrite aimDot_ahead. lra.
    + apply Hgone. simpl. lra.
Defined.

Lemma checkWaterFireCollision_idle_witness :
  checkWaterFireCollision true ["w"%string] originPlayer (aheadFires 0.5) 0.1
  = aheadFires 0.5.
Proof.
  apply (checkWaterFireCollision_idle true ["w"%string] originPlayer
           (aheadFires 0.5) 0.1).
  left. reflexivity.
Defined.

(** ** The terminal check *)

Lemma checkGameConditions_lost player fires :
  checkGameConditions player fires = lost
  <-> exists key fire,
        In (key, fire) fires
        /\ distance3D (Player.position player) (firePosition fire) < 1.5.
Proof.
  unfold checkGameConditions.
  destruct (existsb (tooClose player) (FireMap.values fires)) eqn:E.
  - split; [intros _|reflexivity].
    apply existsb_exists in E. destruct E as [fire [Hin Hclose]].
    unfold FireMap.values in Hin. apply in_map_iff in Hin.
    destruct Hin as [[key fire'] [Heq Hin]]. simpl in Heq. subst fire'.
    exists key, fire. split; [exact Hin|].
    unfold tooClose in Hclose. apply Rltb_true in Hclose. exact Hclose.
  - split.
    + destruct (Nat.eqb (FireMap.size fires) 0); discriminate.
    + intros [key [fire [Hin Hclose]]]. exfalso.
      assert (Ht : existsb (tooClose player) (FireMap.values fires) = true).
      { apply existsb_exists. exists fire. split.
        - unfold FireMap.values.
          change fire with (snd (key, fire)). apply in_map, Hin.
        - unfold tooClose. apply Rltb_true. exact Hclose. }
      congruence.
Qed.

Lemma checkGameConditions_won player fires :
  checkGameConditions player fires = won <-> fires = [].
Proof.
  unfold checkGameConditions. destruct fires as [|entry rest].
  - simpl. split; reflexivity.
  - split; [|discriminate].
    destruct (existsb _ _); [discriminate|]. simpl. discriminate.
Qed.

Lemma checkGameConditions_not_tutorial player fires :
  checkGameConditions player fires <> tutorial.
Proof.
  unfold checkGameConditions.
  destruct (existsb _ _); [discriminate|].
  destruct (Nat.eqb _ _); discriminate.
Qed.

(** ** Fire spread *)

Lemma Math_random_eq g : Math_random g = (tape g (cursor g), advance g).
Proof. reflexivity. Qed.

Lemma trySpread_yes gs fire chance dir m g :
  spreads gs fire chance dir m g ->
  trySpread gs fire chance dir m g
  = (m ++ [(gridKey (targetX gs fire dir) (targetZ gs fire dir),
            spreadCell (targetX gs fire dir) (targetZ gs fire dir))],
     advance g).
Proof.
  intros (Hdraw & Hx & Hz & Hfree).
  unfold trySpread, bind. rewrite Math_random_eq.
  fold (targetX gs fire dir). fold (targetZ gs fire dir).
  apply Rltb_true in Hdraw, Hx, Hz. rewrite Hdraw, Hx, Hz, Hfree.
  cbn [andb negb]. unfold ret. rewrite set_fresh by exact Hfree. reflexivity.
Qed.

Lemma trySpread_no gs fire chance dir m g :
  ~ spreads gs fire chance dir m g ->
  trySpread gs fire chance dir m g = (m, advance g).
Proof.
  intros Hno. unfold trySpread, bind. rewrite Math_random_eq.
  fold (targetX gs fire dir). fold (targetZ gs fire dir).
  destruct (_ <? chance) eqn:Hdraw; [|reflexivity].
  destruct (Rabs (targetX gs fire dir) <? WORLD_SIZE / 2) eqn:Hx;
    [|reflexivity].
  destruct (Rabs (targetZ gs fire dir) <? WORLD_SIZE / 2) eqn:Hz;
    [|reflexivity].
  destruct (FireMap.has _ m) eqn:Hfree; [reflexivity|].
  exfalso. apply Hno. reflect_R. repeat split; assumption.
Qed.

Lemma spreads_dec gs fire chance dir m g :
  spreads gs fire chance dir m g \/ ~ spreads gs fire chance dir m g.
Proof.
  unfold spreads.
  destruct (Rlt_dec (tape g (cursor g)) chance);
    [|right; intros H; tauto].
  destruct (Rlt_dec (Rabs (targetX gs fire dir)) (WORLD_SIZE / 2));
    [|right; intros H; tauto].
  destruct (Rlt_dec (Rabs (targetZ gs fire dir)) (WORLD_SIZE / 2));
    [|right; intros H; tauto].
  destruct (FireMap.has _ m) eqn:E; [right|left; tauto].
  intros (_ & _ & _ & H). discriminate.
Qed.

(** *** What a walk over the map preserves

    A property of the map survives [updateFires] when it survives the two
    things the loop body does: writing the grown cell (with or without its
    timer reset) back under its key, and adding a fresh cell inside the
    world at the end. *)
Section Preservation.
Variable gs : GameState.t.
Variable dt : R.
Variable P : Fires -> Prop.

Hypothesis P_update :
  forall key fire m,
    In (key, fire) m -> P m ->
    P (FireMap.set key (grown fire dt) m)
    /\ P (FireMap.set key (timerReset (grown fire dt)) m).

Hypothesis P_add :
  forall m x z,
    FireMap.has (gridKey x z) m = false ->
    Rabs x < WORLD_SIZE / 2 -> Rabs z < WORLD_SIZE / 2 ->
    P m -> P (m ++ [(gridKey x z, spreadCell x z)]).

Lemma trySpread_preserves fire chance dir m g :
  P m -> P (fst (trySpread gs fire chance dir m g)).
Proof.
  intros Hm. destruct (spreads_dec gs fire chance dir m g) as [Hs|Hs].
  - rewrite trySpread_yes by exact Hs. simpl.
    destruct Hs as (_ & Hx & Hz & Hfree). apply P_add; assumption.
  - rewrite trySpread_no by exact Hs. exact Hm.
Qed.

Lemma spreadAll_preserves fire chance dirs :
  forall m g, P m -> P (fst (spreadAll gs fire chance dirs m g)).
Proof.
  induction dirs as [|dir rest IH]; intros m g Hm; [exact Hm|].
  cbn [spreadAll]. unfold bind.
  pose proof (trySpread_preserves fire chance dir m g Hm) as H1.
  destruct (trySpread gs fire chance dir m g) as [m1 g1].
  apply IH, H1.
Qed.

Lemma visit_preserves key fire m g :
  In (key, fire) m -> P m -> P (fst (visit gs dt key fire m g)).
Proof.
  intros Hin Hm. unfold visit.
  destruct (P_update key fire m Hin Hm) as [H1 H2].
  destruct (Rgtb _ _).
  - apply spreadAll_preserves, H2.
  - exact H1.
Qed.

Lemma iterate_preserves fuel :
  forall i m g r,
    P m -> iterate fuel gs dt i m g = Some r -> P (fst r).
Proof.
  induction fuel as [|fuel IH]; intros i m g r Hm Hrun.
  - simpl in Hrun. destruct (nth_error m i) as [[key fire]|];
      [discriminate|]. injection Hrun as <-. exact Hm.
  - simpl in Hrun. destruct (nth_error m i) as [[key fire]|] eqn:Hnth.
    + pose proof (visit_preserves key fire m g
                    (nth_error_In _ _ Hnth) Hm) as Hv.
      destruct (visit gs dt key fire m g) as [m1 g1].
      eapply IH; [exact Hv|exact Hrun].
    + injection Hrun as <-. exact Hm.
Qed.

Lemma updateFires_preserves scene fires g r :
  P fires -> updateFires scene gs fires dt g = Some r -> P (fst r).
Proof.
  intros Hm Hrun. unfold updateFires in Hrun.
  destruct scene; simpl in Hrun.
  - eapply iterate_preserves; eassumption.
  - injection Hrun as <-. exact Hm.
Qed.
End Preservation.

(** *** The walk ends *)

Lemma filter_length_mono {A} (f f' : A -> bool) (l : list A) :
  (forall x, f' x = true -> f x = true) ->
  (List.length (filter f' l) <= List.length (filter f l))%nat.
Proof.
  intros Himp. induction l as [|a l IH]; simpl; [lia|].
  destruct (f' a) eqn:E'.
  - rewrite (Himp a E'). simpl. lia.
  - destruct (f a); simpl; lia.
Qed.

Lemma filter_length_strict {A} (f f' : A -> bool) (l : list A) (k : A) :
  (forall x, f' x = true -> f x = true) ->
  In k l -> f k = true -> f' k = false ->
  (List.length (filter f' l) < List.length (filter f l))%nat.
Proof.
  intros Himp Hin Hk Hk'. induction l as [|a l IH]; [destruct Hin|].
  simpl. destruct Hin as [->|Hin].
  - rewrite Hk, Hk'. simpl.
    pose proof (filter_length_mono f f' l Himp). lia.
  - specialize (IH Hin). destruct (f' a) eqn:E'.
    + rewrite (Himp a E'). simpl. lia.
    + destruct (f a); simpl; lia.
Qed.

Lemma has_app k m m' :
  FireMap.has k (m ++ m') = (FireMap.has k m || FireMap.has k m')%bool.
Proof.
  induction m as [|[k0 v0] rest IH]; simpl; [reflexivity|].
  destruct (key_eqb k k0); [reflexivity|exact IH].
Qed.

Lemma has_same_keys k m m' :
  FireMap.keys m = FireMap.keys m' -> FireMap.has k m = FireMap.has k m'.
Proof.
  revert m'. induction m as [|[k0 v0] rest IH]; intros [|[k1 v1] rest'] H;
    simpl in H; try discriminate; [reflexivity|].
  injection H as -> Hrest. simpl. rewrite (IH rest' Hrest). reflexivity.
Qed.

Lemma missing_same_keys m m' :
  FireMap.keys m = FireMap.keys m' -> missing m = missing m'.
Proof.
  intros H. unfold missing. f_equal. apply filter_ext.
  intros k. rewrite (has_same_keys k m m' H). reflexivity.
Qed.

Lemma missing_add k v m :
  In k worldKeys -> FireMap.has k m = false ->
  (missing (m ++ [(k, v)]) < missing m)%nat.
Proof.
  intros Hin Hfree. unfold missing.
  apply filter_length_strict with (k := k).
  - intros x. rewrite has_app. destruct (FireMap.has x m); simpl; auto.
  - exact Hin.
  - rewrite Hfree. reflexivity.
  - rewrite has_app. simpl. rewrite key_eqb_refl.
    rewrite orb_true_r. reflexivity.
Qed.

Lemma floor_half_world (x : R) :
  Rabs x < WORLD_SIZE / 2 ->
  (-10 <= floor (x / GRID_SIZE) <= 9)%Z.
Proof.
  unfold WORLD_SIZE, GRID_SIZE. intros H. apply Rabs_lt_iff in H.
  pose proof (floor_bounds (x / 2)) as [Hlo Hhi].
  split.
  - apply le_IZR. assert (IZR (-11) < IZR (floor (x / 2))) by lra.
    apply lt_IZR in H0. apply IZR_le. lia.
  - assert (IZR (floor (x / 2)) < IZR 10) by lra.
    apply lt_IZR in H0. lia.
Qed.

Lemma in_world_range (a : Z) :
  (-10 <= a <= 9)%Z ->
  In a (map (fun n => (Z.of_nat n - 10)%Z) (seq 0 20)).
Proof.
  intros Ha. apply in_map_iff. exists (Z.to_nat (a + 10)). split.
  - lia.
  - apply in_seq. lia.
Qed.

Lemma gridKey_in_world (x z : R) :
  Rabs x < WORLD_SIZE / 2 -> Rabs z < WORLD_SIZE / 2 ->
  In (gridKey x z) worldKeys.
Proof.
  intros Hx Hz. unfold gridKey, worldKeys. apply in_prod;
    apply in_world_range, floor_half_world; assumption.
Qed.

Lemma In_has key fire (m : Fires) : In (key, fire) m -> FireMap.has key m = true.
Proof.
  intros Hin. apply has_In. unfold FireMap.keys.
  change key with (fst (key, fire)). apply in_map, Hin.
Qed.

Lemma length_keys (m : Fires) : List.length (FireMap.keys m) = List.length m.
Proof. apply length_map. Qed.

Lemma missing_le_world m : (missing m <= List.length worldKeys)%nat.
Proof. unfold missing. apply List.filter_length_le. Qed.

(** The measure of the walk: entries still to visit plus keys still free. *)
Lemma visit_measure gs dt key fire m g :
  In (key, fire) m ->
  let m' := fst (visit gs dt key fire m g) in
  (List.length m' + missing m' <= List.length m + missing m)%nat
  /\ (List.length m <= List.length m')%nat.
Proof.
  intros Hin.
  apply (visit_preserves gs dt
           (fun m' =>
              (List.length m' + missing m' <= List.length m + missing m)%nat
              /\ (List.length m <= List.length m')%nat)).
  - intros key0 fire0 m0 Hin0 [H1 H2].
    pose proof (In_has _ _ _ Hin0) as Hhas.
    assert (Hk : forall v, FireMap.keys (FireMap.set key0 v m0)
                           = FireMap.keys m0)
      by (intros v; apply keys_set_has, Hhas).
    assert (Hl : forall v, List.length (FireMap.set key0 v m0)
                           = List.length m0).
    { intros v. rewrite <- !length_keys, Hk. reflexivity. }
    split; rewrite Hl, (missing_same_keys _ _ (Hk _)); split; assumption.
  - intros m0 x z Hfree Hx Hz [H1 H2].
    pose proof (missing_add (gridKey x z) (spreadCell x z) m0
                  (gridKey_in_world x z Hx Hz) Hfree) as Hlt.
    rewrite length_app. simpl. split; lia.
  - exact Hin.
  - split; lia.
Qed.

Lemma iterate_total gs dt fuel :
  forall i m g,
    (List.length m - i + missing m <= fuel)%nat ->
    exists r, iterate fuel gs dt i m g = Some r.
Proof.
  induction fuel as [|fuel IH]; intros i m g Hfuel.
  - simpl. destruct (nth_error m i) as [[key fire]|] eqn:Hnth.
    + assert (i < List.length m)%nat
        by (apply nth_error_Some; congruence). lia.
    + eexists. reflexivity.
  - simpl. destruct (nth_error m i) as [[key fire]|] eqn:Hnth.
    + assert (Hi : (i < List.length m)%nat)
        by (apply nth_error_Some; congruence).
      pose proof (visit_measure gs dt key fire m g (nth_error_In _ _ Hnth))
        as [H1 H2].
      destruct (visit gs dt key fire m g) as [m1 g1]. simpl in H1, H2.
      apply IH. lia.
    + eexists. reflexivity.
Qed.

(** [updateFires] returns: the fuel it is given covers every walk. *)
Lemma updateFires_total scene gs fires dt g :
  exists r, updateFires scene gs fires dt g = Some r.
Proof.
  unfold updateFires. destruct scene; cbn [negb].
  - apply iterate_total. unfold FireMap.size.
    pose proof (missing_le_world fires). lia.
  - eexists. reflexivity.
Qed.

Lemma tick_total scene keys gs prev dt g :
  exists r, tick scene keys gs prev dt g = Some r.
Proof.
  unfold tick.
  destruct (updateFires_total scene gs (GameState.fires prev) dt g)
    as [[m g'] ->].
  eexists. reflexivity.
Qed.

Lemma gameLoop_total scene keys t w :
  exists w', gameLoop scene keys t w = Some w'.
Proof.
  unfold gameLoop. destruct (GameState.gameStatus (state w));
    try (eexists; reflexivity).
  destruct (tick_total scene keys (state w) (state w)
              (frameDelta t (lastFrameTime w)) (rng w)) as [[s' g'] ->].
  eexists. reflexivity.
Qed.

(** *** The spread rule *)

Lemma get_app k (m m' : Fires) :
  FireMap.get k (m ++ m')
  = match FireMap.get k m with
    | Some v => Some v
    | None => FireMap.get k m'
    end.
Proof.
  induction m as [|[k0 v0] rest IH]; simpl; [reflexivity|].
  destruct (key_eqb k k0); [reflexivity|exact IH].
Qed.

Lemma trySpread_cursor gs fire chance dir m g :
  cursor (snd (trySpread gs fire chance dir m g)) = S (cursor g)
  /\ tape (snd (trySpread gs fire chance dir m g)) = tape g.
Proof.
  destruct (spreads_dec gs fire chance dir m g) as [Hs|Hs].
  - rewrite trySpread_yes by exact Hs. split; reflexivity.
  - rewrite trySpread_no by exact Hs. split; reflexivity.
Qed.

Lemma trySpread_get_keep gs fire chance dir m g k v :
  FireMap.get k m = Some v ->
  FireMap.get k (fst (trySpread gs fire chance dir m g)) = Some v.
Proof.
  intros Hget. destruct (spreads_dec gs fire chance dir m g) as [Hs|Hs].
  - rewrite trySpread_yes by exact Hs. simpl. rewrite get_app, Hget.
    reflexivity.
  - rewrite trySpread_no by exact Hs. exact Hget.
Qed.

Lemma spreadAll_directions gs fire chance m g :
  spreadAll gs fire chance directions m g
  = let '(m1, g1) := trySpread gs fire chance (GRID_SIZE, 0) m g in
    let '(m2, g2) := trySpread gs fire chance (- GRID_SIZE, 0) m1 g1 in
    let '(m3, g3) := trySpread gs fire chance (0, GRID_SIZE) m2 g2 in
    trySpread gs fire chance (0, - GRID_SIZE) m3 g3.
Proof.
  unfold directions. cbn [spreadAll]. unfold bind, ret.
  destruct (trySpread gs fire chance (GRID_SIZE, 0) m g) as [m1 g1].
  destruct (trySpread gs fire chance (- GRID_SIZE, 0) m1 g1) as [m2 g2].
  destruct (trySpread gs fire chance (0, GRID_SIZE) m2 g2) as [m3 g3].
  destruct (trySpread gs fire chance (0, - GRID_SIZE) m3 g3) as [m4 g4].
  reflexivity.
Qed.

Lemma spreadAll_cursor gs fire chance dirs :
  forall m g,
    cursor (snd (spreadAll gs fire chance dirs m g))
    = (cursor g + List.length dirs)%nat
    /\ tape (snd (spreadAll gs fire chance dirs m g)) = tape g.
Proof.
  induction dirs as [|dir rest IH]; intros m g.
  - simpl. split; [lia|reflexivity].
  - cbn [spreadAll]. unfold bind.
    pose proof (trySpread_cursor gs fire chance dir m g) as [Hc Ht].
    destruct (trySpread gs fire chance dir m g) as [m1 g1].
    simpl in Hc, Ht. destruct (IH m1 g1) as [Hc' Ht'].
    rewrite Hc', Ht', Hc, Ht. simpl. split; [lia|reflexivity].
Qed.

Lemma spreadAll_get_keep gs fire chance dirs k v :
  forall m g,
    FireMap.get k m = Some v ->
    FireMap.get k (fst (spreadAll gs fire chance dirs m g)) = Some v.
Proof.
  induction dirs as [|dir rest IH]; intros m g Hget; [exact Hget|].
  cbn [spreadAll]. unfold bind.
  pose proof (trySpread_get_keep gs fire chance dir m g k v Hget) as H1.
  destruct (trySpread gs fire chance dir m g) as [m1 g1].
  apply IH, H1.
Qed.

(** ** One tick *)

Lemma iterate_done fuel gs dt i m g :
  nth_error m i = None -> iterate fuel gs dt i m g = Some (m, g).
Proof. intros H. destruct fuel; simpl; rewrite H; reflexivity. Qed.

Lemma visit_quiet gs dt key fire m g :
  FireCell.spreadTime fire + dt <= FIRE_SPREAD_RATE / GameState.gameSpeed gs ->
  visit gs dt key fire m g = (FireMap.set key (grown fire dt) m, g).
Proof.
  intros H. unfold visit. unfold Rgtb.
  cbn [grown FireCell.spreadTime]. apply Rltb_false in H. rewrite H.
  reflexivity.
Qed.

(** [updateFires] on a map of one cell whose timer is not yet due. *)
Lemma updateFires_singleton_quiet gs k fire dt g :
  FireCell.spreadTime fire + dt <= FIRE_SPREAD_RATE / GameState.gameSpeed gs ->
  updateFires true gs [(k, fire)] dt g = Some ([(k, grown fire dt)], g).
Proof.
  intros H. unfold updateFires.
  cbn [negb FireMap.size List.length Nat.add iterate nth_error].
  rewrite visit_quiet by exact H.
  cbn [FireMap.set]. rewrite key_eqb_refl.
  apply iterate_done. reflexivity.
Qed.

(** *** A spread, step by step *)

Lemma worldKeys_length : List.length worldKeys = 400%nat.
Proof. reflexivity. Qed.

Lemma iterate_step fuel gs dt i m g key fire m' g' :
  nth_error m i = Some (key, fire) ->
  visit gs dt key fire m g = (m', g') ->
  iterate (S fuel) gs dt i m g = iterate fuel gs dt (S i) m' g'.
Proof. intros Hn Hv. simpl. rewrite Hn, Hv. reflexivity. Qed.

Lemma gridKey_eq x z a b :
  IZR a <= x / 2 < IZR a + 1 -> IZR b <= z / 2 < IZR b + 1 ->
  gridKey x z = (a, b).
Proof.
  intros Hx Hz. unfold gridKey, GRID_SIZE. f_equal; apply floor_eq; assumption.
Qed.

Lemma ripe_reset : timerReset (grown ripeCell 0.1) = FireCell.mk 0 0 1 0.
Proof.
  unfold timerReset, grown, ripeCell. cbn [FireCell.x FireCell.z FireCell.intensity FireCell.spreadTime].
  rewrite Rmin_left by lra. reflexivity.
Qed.


Lemma ripe_chance :
  FireCell.intensity (FireCell.mk 0 0 1 0)
  * GameState.windSpeed initialGameState * 0.2 = 0.24.
Proof. simpl. lra. Qed.

Ltac spread_yes a b :=
  rewrite trySpread_yes;
  [ unfold targetX, targetZ;
    cbn [FireCell.x FireCell.z fst snd GameState.windDirection
         initialGameState Vector3.x Vector3.z];
    rewrite (gridKey_eq _ _ a b) by (unfold GRID_SIZE; simpl; lra)
  | unfold spreads, targetX, targetZ;
    cbn [FireCell.x FireCell.z fst snd GameState.windDirection
         initialGameState Vector3.x Vector3.z tape cursor advance constRng];
    rewrite (gridKey_eq _ _ a b) by (unfold GRID_SIZE; simpl; lra);
    unfold WORLD_SIZE, GRID_SIZE;
    split; [lra|split; [apply Rabs_lt_iff; lra|split;
      [apply Rabs_lt_iff; lra|reflexivity]]] ].

Lemma visit_ripe :
  visit initialGameState 0.1 (gridKey 0 0) ripeCell ripeFires (constRng 0.1)
  = (ripeSpread, mkRng (fun _ => 0.1) 4).
Proof.
  unfold visit.
  assert (Hdue : Rgtb (FireCell.spreadTime (grown ripeCell 0.1))
                   (FIRE_SPREAD_RATE / GameState.gameSpeed initialGameState)
                 = true).
  { unfold Rgtb. apply Rltb_true. unfold FIRE_SPREAD_RATE. simpl. lra. }
  rewrite Hdue. rewrite ripe_reset, ripe_chance.
  rewrite spreadAll_directions.
  unfold ripeFires. cbn [FireMap.set]. rewrite key_eqb_refl.
  rewrite (gridKey_eq 0 0 0 0) by (simpl; lra).
  spread_yes 1%Z 0%Z. cbn [app].
  spread_yes (-1)%Z 0%Z. cbn [app].
  spread_yes 0%Z 1%Z. cbn [app].
  spread_yes 0%Z (-1)%Z. cbn [app].
  reflexivity.
Qed.

Lemma visit_new_cell key x z m g :
  visit initialGameState 0.1 key (spreadCell x z) m g
  = (FireMap.set key (grown (spreadCell x z) 0.1) m, g).
Proof.
  apply visit_quiet. unfold FIRE_SPREAD_RATE. simpl. lra.
Qed.

(** The cells a spread adds are reached by the same walk: they come out of
    [updateFires] grown once, not at the 0.3 they were added with. *)
Lemma updateFires_ripe :
  updateFires true initialGameState ripeFires 0.1 (constRng 0.1)
  = Some (map (fun entry =>
                 (fst entry,
                  match fst entry with
                  | (0, 0)%Z => snd entry
                  | _ => grown (snd entry) 0.1
                  end)) ripeSpread,
          mkRng (fun _ => 0.1) 4).
Proof.
  unfold updateFires. cbn [negb]. unfold FireMap.size.
  rewrite worldKeys_length. cbn [ripeFires List.length Nat.add].
  fold ripeFires.
  rewrite (iterate_step _ initialGameState 0.1 0 ripeFires (constRng 0.1)
             (gridKey 0 0) ripeCell ripeSpread _ eq_refl visit_ripe).
  unfold ripeSpread.
  do 4 (erewrite iterate_step;
        [|reflexivity|rewrite visit_new_cell; reflexivity]).
  rewrite iterate_done by reflexivity.
  reflexivity.
Qed.

Lemma grown_new_cell x z :
  FireCell.intensity (grown (spreadCell x z) 0.1) = 0.31
  /\ FireCell.spreadTime (grown (spreadCell x z) 0.1) = 0.1.
Proof.
  unfold grown, spreadCell. cbn [FireCell.intensity FireCell.spreadTime].
  split; [rewrite Rmin_right; lra|lra].
Qed.

Lemma tick_fields scene keys gs prev dt g s' g' :
  tick scene keys gs prev dt g = Some (s', g') ->
  exists fires1,
    updateFires scene gs (GameState.fires prev) dt g = Some (fires1, g')
    /\ GameState.player s' = updatePlayer keys gs (GameState.player prev) dt
    /\ GameState.fires s'
       = checkWaterFireCollision scene keys (GameState.player s') fires1 dt
    /\ GameState.gameStatus s'
       = checkGameConditions (GameState.player s') (GameState.fires s')
    /\ GameState.timeElapsed s' = GameState.timeElapsed prev + dt
    /\ GameState.gameSpeed s'
       = Rmin 1.8 (1 + GameState.timeElapsed prev / 90).
Proof.
  unfold tick. intros H.
  destruct (updateFires scene gs (GameState.fires prev) dt g)
    as [[fires1 g1]|]; [|discriminate].
  injection H as <- <-. exists fires1. cbn. repeat split; reflexivity.
Qed.

(** C4. A tick in the playing state returns; in the state it returns, the
    fire map is the map the suppression step returned, and the status is
    the terminal check on that map and the updated player: [lost] exactly
    when some cell is closer than 1.5 to the player, [won] exactly when the
    map is empty, [playing] otherwise.  A tick whose suppression step
    removes the last cell therefore returns [won] itself. *)
Theorem tick_terminal_check (scene : bool) (keys : KeySet)
    (gs prev : GameState.t) (deltaTime : R) (g : Rng) :
  exists s' g',
    tick scene keys gs prev deltaTime g = Some (s', g')
    /\ let player' := GameState.player s' in
       let fires' := GameState.fires s' in
       let near :=
         exists key fire,
           In (key, fire) fires'
           /\ distance3D (Player.position player') (firePosition fire)
              < 1.5 in
       (exists fires1,
          updateFires scene gs (GameState.fires prev) deltaTime g
          = Some (fires1, g')
          /\ player' = updatePlayer keys gs (GameState.player prev) deltaTime
          /\ fires'
             = checkWaterFireCollision scene keys player' fires1 deltaTime)
       /\ GameState.gameStatus s' = checkGameConditions player' fires'
       /\ (GameState.gameStatus s' = lost <-> near)
       /\ (GameState.gameStatus s' = won <-> fires' = [])
       /\ (GameState.gameStatus s' = playing <-> ~ near /\ fires' <> []).
Proof.
  destruct (tick_total scene keys gs prev deltaTime g) as [[s' g'] Htick].
  exists s', g'. split; [exact Htick|].
  intros player' fires' near.
  destruct (tick_fields _ _ _ _ _ _ _ _ Htick)
    as (fires1 & Hup & Hp & Hf & Hs & _).
  split; [exists fires1; repeat split; assumption|].
  split; [exact Hs|].
  fold player' in Hs. fold fires' in Hs.
  pose proof (checkGameConditions_lost player' fires') as Hlost.
  pose proof (checkGameConditions_won player' fires') as Hwon.
  pose proof (checkGameConditions_not_tutorial player' fires') as Hnt.
  rewrite Hs. split; [exact Hlost|]. split; [exact Hwon|].
  fold near in Hlost.
  destruct (checkGameConditions player' fires') eqn:E.
  - split; [intros _|reflexivity]. split.
    + intros Hn. apply Hlost in Hn. discriminate.
    + intros He. apply Hwon in He. discriminate.
  - split; [discriminate|]. intros [_ Hne]. exfalso. apply Hne.
    apply Hwon. reflexivity.
  - split; [discriminate|]. intros [Hn _]. exfalso. apply Hn.
    apply Hlost. reflexivity.
  - contradiction.
Qed.

(** *** Scenario D: the last cell goes out *)

Lemma refill_at_origin y mw w dt :
  refill (GameState.refillStations initialGameState) (Vector3.mk 0 y 0)
         mw w dt = (false, w).
Proof.
  assert (Hfar : forall sx sz : R,
             3 * 3 <= (0 - sx) ^ 2 + (y - 0) ^ 2 + (0 - sz) ^ 2 ->
             (distance3D (Vector3.mk 0 y 0) (Vector3.mk sx 0 sz) <? 3)
             = false).
  { intros sx sz H. apply Rltb_false. unfold distance3D.
    cbn [Vector3.x Vector3.y Vector3.z]. apply sqrt_ge_of_sq; [lra|exact H]. }
  cbn [refill GameState.refillStations initialGameState
       RefillStation.position RefillStation.radius].
  rewrite !Hfar; [reflexivity| | | |]; cbn [pow]; nra.
Qed.

Lemma moving_none keys :
  keys = [] \/ keys = [" "%string] -> moving keys = false.
Proof. intros [->| ->]; apply moving_false; reflexivity. Qed.

(** The player standing at the start position, shooting or not. *)
Lemma updatePlayer_standing keys gs w dt :
  keys = [] \/ keys = [" "%string] ->
  GameState.refillStations gs = GameState.refillStations initialGameState ->
  updatePlayer keys gs (Player.mk (Vector3.mk 0 0 0) 0 w 100 false) dt
  = Player.mk (Vector3.mk 0 0 0) 0
              (if (keys_has " " keys && Rgtb w 0)%bool
               then Rmax 0 (w - 30 * dt) else w)
              100 false.
Proof.
  intros Hk Hst. unfold updatePlayer. rewrite (moving_none keys Hk).
  cbn [Player.position Player.rotation Player.waterLevel Player.maxWater].
  rewrite Hst, refill_at_origin.
  destruct Hk as [->| ->]; reflexivity.
Qed.

Lemma sprayed_ahead w mw rf i t dt :
  sprayed (Player.mk (Vector3.mk 0 0 0) 0 w mw rf) dt (FireCell.mk 0 (-4) i t)
  = if i - 1.5 * dt <=? 0 then None
    else Some (FireCell.mk 0 (-4) (i - 1.5 * dt) t).
Proof. unfold sprayed. rewrite inWaterCone_ahead. reflexivity. Qed.

Lemma tick_terminal_check_witness :
  exists s' g',
    tick true [" "%string] (aheadState 0.05) (aheadState 0.05) 0.1
         (constRng 0.5) = Some (s', g')
    /\ GameState.fires s' = []
    /\ GameState.gameStatus s' = won.
Proof.
  destruct (tick_terminal_check true [" "%string] (aheadState 0.05)
              (aheadState 0.05) 0.1 (constRng 0.5))
    as (s' & g' & Htick & (fires1 & Hup & Hp & Hf) & _ & _ & Hwon & _).
  exists s', g'. split; [exact Htick|].
  assert (Hempty : GameState.fires s' = []).
  { rewrite Hf, Hp. clear Hf Hp.
    cbn [GameState.fires aheadState] in Hup. unfold aheadFires in Hup.
    rewrite updateFires_singleton_quiet in Hup
      by (unfold FIRE_SPREAD_RATE; simpl; lra).
    injection Hup as <- _.
    cbn [GameState.player aheadState]. unfold originPlayer.
    rewrite updatePlayer_standing by (try (right; reflexivity); reflexivity).
    cbn [keys_has existsb String.eqb Ascii.eqb Bool.eqb orb andb].
    unfold Rgtb. destruct (0 <? 100) eqn:E; reflect_R; [|lra].
    rewrite checkWaterFireCollision_singleton.
    - unfold aheadCell, grown. cbn [FireCell.x FireCell.z FireCell.intensity
        FireCell.spreadTime].
      rewrite sprayed_ahead.
      assert (Hmin : Rmin 1 (0.05 + 0.1 * 0.1) = 0.06)
        by (rewrite Rmin_right; lra).
      rewrite Hmin. destruct (_ <=? 0) eqn:E2; reflect_R; [reflexivity|lra].
    - reflexivity.
    - cbn [Player.waterLevel]. rewrite Rmax_right; lra. }
  split; [exact Hempty|]. apply Hwon, Hempty.
Defined.

(** ** Reasoning about code that draws random numbers *)

Lemma valid_rng_tape_all g : valid_rng g <-> tape_all unitDraw g.
Proof. split; intros H n; apply H. Qed.

Section GenLogic.
Variable D : R -> Prop.

Lemma gen_ret {A} (a : A) (Q : A -> Prop) : Q a -> gen_inv D (ret a) Q.
Proof. intros Ha g Hg. split; assumption. Qed.

Lemma gen_bind {A B} (c : Gen A) (k : A -> Gen B) (Q1 : A -> Prop)
    (Q2 : B -> Prop) :
  gen_inv D c Q1 -> (forall a, Q1 a -> gen_inv D (k a) Q2) ->
  gen_inv D (bind c k) Q2.
Proof.
  intros Hc Hk g Hg. unfold bind.
  destruct (Hc g Hg) as [Ha Hg']. destruct (c g) as [a g1].
  apply Hk; assumption.
Qed.

Lemma gen_random : gen_inv D Math_random D.
Proof. intros g Hg. split; [apply Hg|exact Hg]. Qed.

Lemma gen_weaken {A} (c : Gen A) (Q Q' : A -> Prop) :
  (forall a, Q a -> Q' a) -> gen_inv D c Q -> gen_inv D c Q'.
Proof.
  intros Himp Hc g Hg. destruct (Hc g Hg) as [H1 H2]. split; auto.
Qed.
End GenLogic.

Ltac gen_step :=
  match goal with
  | |- gen_inv _ (ret _) _ => apply gen_ret
  | |- gen_inv _ (bind Math_random _) _ =>
      eapply gen_bind; [apply gen_random|intros ? ?]
  | |- gen_inv _ (if ?b then _ else _) _ => destruct b
  | |- gen_inv _ (let '(_, _) := ?p in _) _ => destruct p
  end.

Lemma gen_randomSpot D : gen_inv D randomSpot (fun _ => True).
Proof. unfold randomSpot. repeat gen_step. exact I. Qed.

Lemma gen_fireAttempts D n fires :
  forall spot, gen_inv D (fireAttempts n fires spot) (fun _ => True).
Proof.
  induction n as [|n IH]; intros spot; cbn [fireAttempts].
  - apply gen_ret. exact I.
  - eapply gen_bind; [apply gen_randomSpot|]. intros [[x z] key] _.
    destruct (if negb (FireMap.has key fires) then _ else false).
    + apply gen_ret. exact I.
    + apply IH.
Qed.

Lemma gen_treeAttempts D n stations :
  forall trees, gen_inv D (treeAttempts n stations trees) (fun _ => True).
Proof.
  induction n as [|n IH]; intros trees; cbn [treeAttempts].
  - apply gen_ret. exact I.
  - do 3 gen_step. cbv zeta.
    destruct (_ && _)%bool; [apply gen_ret; exact I|apply IH].
Qed.

Lemma gen_treeRounds D n stations :
  forall trees, gen_inv D (treeRounds n stations trees) (fun _ => True).
Proof.
  induction n as [|n IH]; intros trees; cbn [treeRounds].
  - apply gen_ret. exact I.
  - destruct (Nat.ltb _ _); [|apply gen_ret; exact I].
    eapply gen_bind; [apply gen_treeAttempts|]. intros trees' _. apply IH.
Qed.

Lemma gen_generateTrees D stations :
  gen_inv D (generateTrees stations) (fun _ => True).
Proof. apply gen_treeRounds. Qed.

(** ** The invariant *)

Lemma cellsOk_set k v m : cellOk v -> cellsOk m -> cellsOk (FireMap.set k v m).
Proof.
  unfold cellsOk, FireMap.values. intros Hv.
  induction m as [|[k0 v0] rest IH]; simpl; intros Hm.
  - constructor; [exact Hv|constructor].
  - inversion Hm; subst. destruct (key_eqb k k0); simpl.
    + constructor; assumption.
    + constructor; [assumption|apply IH; assumption].
Qed.

Lemma cellsOk_delete k m : cellsOk m -> cellsOk (FireMap.delete k m).
Proof.
  unfold cellsOk, FireMap.values.
  induction m as [|[k0 v0] rest IH]; simpl; intros Hm; [constructor|].
  inversion Hm; subst. destruct (key_eqb k k0); simpl.
  - assumption.
  - constructor; [assumption|apply IH; assumption].
Qed.

Lemma cellsOk_add k v m : cellOk v -> cellsOk m -> cellsOk (m ++ [(k, v)]).
Proof.
  unfold cellsOk, FireMap.values. intros Hv Hm. rewrite map_app.
  apply Forall_app. split; [exact Hm|]. constructor; [exact Hv|constructor].
Qed.

Lemma cellsOk_In k v m : cellsOk m -> In (k, v) m -> cellOk v.
Proof.
  unfold cellsOk. intros Hm Hin. rewrite Forall_forall in Hm. apply Hm.
  unfold FireMap.values. change v with (snd (k, v)). apply in_map, Hin.
Qed.

Lemma cellOk_grown fire dt : 0 <= dt -> cellOk fire -> cellOk (grown fire dt).
Proof.
  unfold cellOk, grown. cbn [FireCell.intensity]. intros Hdt [H0 H1].
  unfold Rmin. destruct (Rle_dec _ _); lra.
Qed.

Lemma cellOk_spreadCell x z : cellOk (spreadCell x z).
Proof. unfold cellOk, spreadCell. cbn. lra. Qed.

Lemma updateFires_cellsOk scene gs fires dt g r :
  0 <= dt -> cellsOk fires ->
  updateFires scene gs fires dt g = Some r -> cellsOk (fst r).
Proof.
  intros Hdt Hok. apply (updateFires_preserves gs dt cellsOk); [| |exact Hok].
  - intros key fire m Hin Hm.
    pose proof (cellOk_grown fire dt Hdt (cellsOk_In _ _ _ Hm Hin)) as Hg.
    split; apply cellsOk_set; assumption.
  - intros m x z _ _ _ Hm. apply cellsOk_add; [apply cellOk_spreadCell|exact Hm].
Qed.

Lemma sprayLoop_cellsOk player dt entries :
  0 <= dt ->
  forall m, cellsOk entries -> cellsOk m ->
            cellsOk (sprayLoop player dt entries m).
Proof.
  intros Hdt. induction entries as [|[k f] rest IH]; intros m He Hm;
    [exact Hm|].
  cbn [sprayLoop]; cbv zeta.
  assert (Hf : cellOk f) by (eapply cellsOk_In; [exact He|left; reflexivity]).
  assert (Hrest : cellsOk rest).
  { unfold cellsOk, FireMap.values in *. simpl in He. inversion He.
    assumption. }
  apply IH; [exact Hrest|].
  destruct (inWaterCone player f); [|exact Hm].
  destruct (_ <=? 0) eqn:E.
  - apply cellsOk_delete, Hm.
  - apply cellsOk_set; [|exact Hm]. apply Rleb_false in E.
    unfold cellOk, doused in *. cbn [FireCell.intensity] in *. lra.
Qed.

Lemma checkWaterFireCollision_cellsOk scene keys player fires dt :
  0 <= dt -> cellsOk fires ->
  cellsOk (checkWaterFireCollision scene keys player fires dt).
Proof.
  intros Hdt Hok. unfold checkWaterFireCollision.
  destruct (negb scene); [exact Hok|].
  destruct (_ && _)%bool; [|exact Hok].
  apply sprayLoop_cellsOk; assumption.
Qed.

Lemma refill_bounds stations pos mw w dt :
  0 <= dt -> 0 <= w <= mw ->
  0 <= snd (refill stations pos mw w dt) <= mw.
Proof.
  intros Hdt Hw. induction stations as [|st rest IH]; cbn [refill].
  - exact Hw.
  - destruct (_ <? _); [|exact IH]. cbn [snd]. unfold REFILL_RATE, Rmin.
    destruct (Rle_dec _ _); nra.
Qed.

Lemma updatePlayer_water keys gs player dt :
  0 <= dt -> waterOk player -> waterOk (updatePlayer keys gs player dt).
Proof.
  intros Hdt [H0 H1]. unfold updatePlayer.
  match goal with
  | |- context [refill ?st ?pos ?mw ?w ?d] =>
      pose proof (refill_bounds st pos mw w d Hdt) as Hr;
      destruct (refill st pos mw w d) as [b w2]
  end.
  unfold waterOk. cbn [Player.waterLevel Player.maxWater snd] in *.
  apply Hr. destruct (_ && _)%bool; [|lra].
  unfold Rmax. destruct (Rle_dec _ _); lra.
Qed.

Lemma updatePlayer_maxWater keys gs player dt :
  Player.maxWater (updatePlayer keys gs player dt) = Player.maxWater player.
Proof. unfold updatePlayer. destruct (refill _ _ _ _ _). reflexivity. Qed.

Lemma updatePlayer_inWorld keys gs player dt :
  inWorld (Player.position player) ->
  inWorld (Player.position (updatePlayer keys gs player dt)).
Proof.
  intros Hin. destruct (moving keys) eqn:Hm.
  - unfold updatePlayer. rewrite Hm.
    destruct (rotatedMove _ _) as [rx rz].
    destruct (treeCollisions _ _ _ _) as [trunk fol].
    destruct (if negb trunk then _ else _) as [px pz].
    destruct (refill _ _ _ _ _). cbn [Player.position].
    split; apply clampToWorld_bounds.
  - rewrite updatePlayer_position_still by exact Hm. exact Hin.
Qed.

(** One tick with a time step that is not negative keeps the invariant. *)
Lemma tick_invariant scene keys gs prev dt g s' g' :
  0 <= dt -> invariant prev ->
  tick scene keys gs prev dt g = Some (s', g') -> invariant s'.
Proof.
  intros Hdt (Hc & Hw & Hp) Htick.
  destruct (tick_fields _ _ _ _ _ _ _ _ Htick)
    as (fires1 & Hup & Hpl & Hf & _).
  unfold invariant. rewrite Hf, Hpl. repeat split.
  - apply checkWaterFireCollision_cellsOk; [exact Hdt|].
    apply (updateFires_cellsOk _ _ _ _ _ _ Hdt Hc Hup).
  - apply updatePlayer_water; assumption.
  - apply updatePlayer_water; assumption.
  - apply updatePlayer_inWorld, Hp.
  - apply updatePlayer_inWorld, Hp.
Qed.

(** ** Session start keeps the invariant *)

Lemma gen_seedFire fires :
  cellsOk fires -> gen_inv unitDraw (seedFire fires) cellsOk.
Proof.
  intros Hok. unfold seedFire.
  eapply gen_bind; [apply gen_randomSpot|]. intros spot0 _.
  eapply gen_bind; [apply gen_fireAttempts|]. intros [placed spot1] _.
  eapply gen_bind with (Q1 := fun _ => True).
  - destruct (negb placed); [apply gen_randomSpot|apply gen_ret; exact I].
  - intros [[x z] key] _.
    eapply gen_bind; [apply gen_random|]. intros r [Hr0 Hr1].
    apply gen_ret. apply cellsOk_set; [|exact Hok].
    unfold cellOk. cbn [FireCell.intensity]. lra.
Qed.

Lemma gen_seedFires n :
  forall fires, cellsOk fires -> gen_inv unitDraw (seedFires n fires) cellsOk.
Proof.
  induction n as [|n IH]; intros fires Hok; cbn [seedFires].
  - apply gen_ret, Hok.
  - eapply gen_bind; [apply gen_seedFire, Hok|]. intros fires' Hok'.
    apply IH, Hok'.
Qed.

Lemma gen_initializeFires scene :
  gen_inv unitDraw (initializeFires scene) cellsOk.
Proof.
  unfold initializeFires. destruct (negb scene).
  - apply gen_ret. constructor.
  - apply gen_seedFires. constructor.
Qed.

Lemma inWorld_origin y : inWorld (Vector3.mk 0 y 0).
Proof.
  unfold inWorld, WORLD_SIZE. cbn [Vector3.x Vector3.z].
  rewrite Rabs_R0. lra.
Qed.

Lemma gen_startGame scene prev :
  Player.maxWater (GameState.player prev) = 100 ->
  gen_inv unitDraw (startGame scene prev) steady.
Proof.
  intros Hmax. unfold startGame.
  eapply gen_bind; [apply gen_initializeFires|]. intros fires Hok.
  apply gen_ret. unfold steady, invariant, waterOk.
  cbn [GameState.fires GameState.player Player.waterLevel Player.maxWater
       Player.position].
  rewrite Hmax. repeat split; try lra; try exact Hok; apply inWorld_origin.
Qed.

Lemma gen_regenerateTrees scene s :
  gen_inv unitDraw (regenerateTrees scene s)
          (fun s' => GameState.player s' = GameState.player s).
Proof.
  unfold regenerateTrees. destruct (negb scene).
  - apply gen_ret. reflexivity.
  - eapply gen_bind; [apply gen_generateTrees|]. intros trees _.
    apply gen_ret. reflexivity.
Qed.

Lemma gen_resetGame scene s :
  Player.maxWater (GameState.player s) = 100 ->
  gen_inv unitDraw (resetGame scene s) steady.
Proof.
  intros Hmax. unfold resetGame.
  eapply gen_bind; [apply gen_regenerateTrees|]. intros s' Hp.
  apply gen_startGame. rewrite Hp. exact Hmax.
Qed.

(** ** The tape across a tick *)

Lemma visit_tape gs dt key fire m g :
  tape (snd (visit gs dt key fire m g)) = tape g.
Proof.
  unfold visit. destruct (Rgtb _ _); [|reflexivity].
  apply spreadAll_cursor.
Qed.

Lemma iterate_tape gs dt fuel :
  forall i m g r, iterate fuel gs dt i m g = Some r -> tape (snd r) = tape g.
Proof.
  induction fuel as [|fuel IH]; intros i m g r Hrun; simpl in Hrun.
  - destruct (nth_error m i) as [[key fire]|]; [discriminate|].
    injection Hrun as <-. reflexivity.
  - destruct (nth_error m i) as [[key fire]|].
    + pose proof (visit_tape gs dt key fire m g) as Hv.
      destruct (visit gs dt key fire m g) as [m1 g1]. simpl in Hv.
      rewrite <- Hv. eapply IH, Hrun.
    + injection Hrun as <-. reflexivity.
Qed.

Lemma updateFires_tape scene gs fires dt g r :
  updateFires scene gs fires dt g = Some r -> tape (snd r) = tape g.
Proof.
  unfold updateFires. destruct scene; cbn [negb].
  - apply iterate_tape.
  - intros [= <-]. reflexivity.
Qed.

Lemma tick_tape scene keys gs prev dt g s' g' :
  tick scene keys gs prev dt g = Some (s', g') -> tape g' = tape g.
Proof.
  intros Htick. destruct (tick_fields _ _ _ _ _ _ _ _ Htick)
    as (fires1 & Hup & _).
  apply (updateFires_tape _ _ _ _ _ _ Hup).
Qed.

Lemma tick_steady scene keys gs prev dt g s' g' :
  0 <= dt -> steady prev ->
  tick scene keys gs prev dt g = Some (s', g') -> steady s'.
Proof.
  intros Hdt [Hinv Hmax] Htick. split.
  - eapply tick_invariant; eassumption.
  - destruct (tick_fields _ _ _ _ _ _ _ _ Htick)
      as (fires1 & _ & Hpl & _).
    rewrite Hpl, updatePlayer_maxWater. exact Hmax.
Qed.

(** ** The states a session can be in *)

Lemma frameDelta_nonneg t last : last <= t -> 0 <= frameDelta t last.
Proof. unfold frameDelta. intros H. lra. Qed.

Lemma gameLoop_steady scene keys t w w' :
  lastFrameTime w <= t ->
  steady (state w) -> valid_rng (rng w) ->
  gameLoop scene keys t w = Some w' ->
  steady (state w') /\ valid_rng (rng w').
Proof.
  intros Ht Hs Hg. unfold gameLoop.
  destruct (GameState.gameStatus (state w));
    try (intros [= <-]; split; assumption).
  destruct (tick _ _ _ _ _ _) as [[s' g']|] eqn:Htick; [|discriminate].
  intros [= <-]. cbn [state rng]. split.
  - eapply tick_steady; [apply frameDelta_nonneg, Ht|exact Hs|exact Htick].
  - intros n. rewrite (tick_tape _ _ _ _ _ _ _ _ Htick). apply Hg.
Qed.

Lemma initialGameState_steady : steady initialGameState.
Proof.
  unfold steady, invariant, waterOk, initialGameState.
  cbn [GameState.fires GameState.player Player.waterLevel Player.maxWater
       Player.position].
  split; [split; [constructor|split; [lra|apply inWorld_origin]]|reflexivity].
Qed.

Lemma reachable_steady w :
  reachable w -> steady (state w) /\ valid_rng (rng w).
Proof.
  induction 1 as [g Hg|w Hw [Hs Hg]|scene w Hw [Hs Hg]|scene w Hw [Hs Hg]
                  |w Hw [Hs Hg]|scene keys t w w' Hw [Hs Hg] Ht Hrun];
    cbn [state rng].
  - split; [apply initialGameState_steady|exact Hg].
  - unfold initScene.
    assert (Hi : gen_inv unitDraw
                   (trees <- generateTrees (GameState.refillStations (state w)) ;;
                    ret (withTrees (state w) trees)) steady).
    { eapply gen_bind; [apply gen_generateTrees|]. intros trees _.
      apply gen_ret. exact Hs. }
    destruct (Hi (rng w)) as [H1 H2]; [apply valid_rng_tape_all, Hg|].
    split; [exact H1|apply valid_rng_tape_all, H2].
  - destruct (gen_startGame scene (state w) (proj2 Hs) (rng w)) as [H1 H2];
      [apply valid_rng_tape_all, Hg|].
    split; [exact H1|apply valid_rng_tape_all, H2].
  - destruct (gen_resetGame scene (state w) (proj2 Hs) (rng w)) as [H1 H2];
      [apply valid_rng_tape_all, Hg|].
    split; [exact H1|apply valid_rng_tape_all, H2].
  - split; [exact Hs|exact Hg].
  - eapply gameLoop_steady; eassumption.
Qed.

(** C2. From every state a session can be in, a frame at a time not
    before the last frame returns, and in the state it returns every cell
    of the fire map has its intensity in [0, 1], the water level is in
    [0, maxWater], and both coordinates of the player are within
    WORLD_SIZE / 2 - 2 of the centre. *)
Theorem gameLoop_invariant (scene : bool) (keys : KeySet) (t : R)
    (w : World) :
  reachable w -> lastFrameTime w <= t ->
  exists w',
    gameLoop scene keys t w = Some w'
    /\ Forall (fun cell => 0 <= FireCell.intensity cell <= 1)
              (FireMap.values (GameState.fires (state w')))
    /\ 0 <= Player.waterLevel (GameState.player (state w'))
         <= Player.maxWater (GameState.player (state w'))
    /\ Rabs (Vector3.x (Player.position (GameState.player (state w'))))
       <= WORLD_SIZE / 2 - 2
    /\ Rabs (Vector3.z (Player.position (GameState.player (state w'))))
       <= WORLD_SIZE / 2 - 2.
Proof.
  intros Hw Ht.
  destruct (gameLoop_total scene keys t w) as [w' Hrun].
  exists w'. split; [exact Hrun|].
  destruct (reachable_steady w' (reach_frame scene keys t w w' Hw Ht Hrun))
    as [[(Hc & Hwat & Hx & Hz) _] _].
  repeat split; try assumption; apply Hwat.
Qed.

Lemma valid_constRng c : 0 <= c < 1 -> valid_rng (constRng c).
Proof. intros Hc n. exact Hc. Qed.

Lemma reachable_startedWorld : reachable startedWorld.
Proof.
  apply (reach_startGame true mountedWorld). apply reach_mount.
  apply valid_constRng. lra.
Qed.

Lemma gameLoop_invariant_witness :
  exists w',
    gameLoop true [" "%string] 16 startedWorld = Some w'
    /\ Forall (fun cell => 0 <= FireCell.intensity cell <= 1)
              (FireMap.values (GameState.fires (state w')))
    /\ 0 <= Player.waterLevel (GameState.player (state w'))
         <= Player.maxWater (GameState.player (state w'))
    /\ Rabs (Vector3.x (Player.position (GameState.player (state w'))))
       <= WORLD_SIZE / 2 - 2
    /\ Rabs (Vector3.z (Player.position (GameState.player (state w'))))
       <= WORLD_SIZE / 2 - 2.
Proof.
  apply (gameLoop_invariant true [" "%string] 16 startedWorld).
  - exact reachable_startedWorld.
  - cbn [lastFrameTime startedWorld mountedWorld]. lra.
Defined.

(** ** The time step is used as it comes *)

Lemma tick_cells_water scene keys gs prev dt g s' g' :
  0 <= dt ->
  cellsOk (GameState.fires prev) -> waterOk (GameState.player prev) ->
  tick scene keys gs prev dt g = Some (s', g') ->
  cellsOk (GameState.fires s') /\ waterOk (GameState.player s').
Proof.
  intros Hdt Hc Hw Htick.
  destruct (tick_fields _ _ _ _ _ _ _ _ Htick)
    as (fires1 & Hup & Hpl & Hf & _).
  rewrite Hf, Hpl. split.
  - apply checkWaterFireCollision_cellsOk; [exact Hdt|].
    apply (updateFires_cellsOk _ _ _ _ _ _ Hdt Hc Hup).
  - apply updatePlayer_water; assumption.
Qed.

(** C1, as the code has it.  In the playing state [gameLoop] runs the tick
    on (currentTime - lastFrameTime) / 1000 as computed, negative or not,
    and the elapsed time moves by exactly that amount.  When the frame time
    is not before the last one, the tick leaves every intensity in [0, 1]
    and the water level in [0, maxWater] if they were. *)
Theorem gameLoop_delta_unclamped (scene : bool) (keys : KeySet)
    (currentTime : R) (w : World) :
  GameState.gameStatus (state w) = playing ->
  let deltaTime := (currentTime - lastFrameTime w) / 1000 in
  exists s' g',
    tick scene keys (state w) (state w) deltaTime (rng w) = Some (s', g')
    /\ gameLoop scene keys currentTime w = Some (mkWorld currentTime s' g')
    /\ GameState.timeElapsed s'
       = GameState.timeElapsed (state w) + deltaTime
    /\ (lastFrameTime w <= currentTime ->
        cellsOk (GameState.fires (state w)) ->
        waterOk (GameState.player (state w)) ->
        cellsOk (GameState.fires s') /\ waterOk (GameState.player s')).
Proof.
  intros Hplay deltaTime.
  destruct (tick_total scene keys (state w) (state w) deltaTime (rng w))
    as [[s' g'] Htick].
  exists s', g'. split; [exact Htick|]. split; [|split].
  - unfold gameLoop. rewrite Hplay. fold (frameDelta currentTime
      (lastFrameTime w)). unfold frameDelta. fold deltaTime.
    rewrite Htick. reflexivity.
  - destruct (tick_fields _ _ _ _ _ _ _ _ Htick)
      as (fires1 & _ & _ & _ & _ & Ht & _). exact Ht.
  - intros Hle Hc Hw.
    apply (tick_cells_water scene keys (state w) (state w) deltaTime (rng w)
             s' g'); try assumption.
    apply (frameDelta_nonneg currentTime (lastFrameTime w) Hle).
Qed.

(** A tick on the one-cell state, standing still, timer not due. *)
Lemma tick_ahead keys i dt g s' g' :
  keys = [] \/ keys = [" "%string] -> dt <= 4 ->
  tick true keys (aheadState i) (aheadState i) dt g = Some (s', g') ->
  let player' :=
    Player.mk (Vector3.mk 0 0 0) 0
              (if keys_has " " keys then Rmax 0 (100 - 30 * dt) else 100)
              100 false in
  GameState.player s' = player'
  /\ GameState.fires s'
     = checkWaterFireCollision true keys player'
         [(gridKey 0 (-4), grown (aheadCell i) dt)] dt.
Proof.
  intros Hk Hdt Htick player'.
  destruct (tick_fields _ _ _ _ _ _ _ _ Htick)
    as (fires1 & Hup & Hpl & Hf & _).
  cbn [GameState.fires GameState.player aheadState] in Hup, Hpl.
  unfold aheadFires in Hup.
  rewrite updateFires_singleton_quiet in Hup
    by (unfold FIRE_SPREAD_RATE; simpl; lra).
  injection Hup as <- _.
  unfold originPlayer in Hpl.
  rewrite updatePlayer_standing in Hpl by (try exact Hk; reflexivity).
  assert (Hp : GameState.player s' = player').
  { rewrite Hpl. subst player'. unfold Rgtb.
    destruct (0 <? 100) eqn:E; reflect_R; [|lra].
    rewrite andb_true_r. reflexivity. }
  split; [exact Hp|]. rewrite Hf, Hp. reflexivity.
Qed.

(** A frame whose time lies before the last frame time: the time step is
    -1, the cell of intensity 0.05 comes out at -0.05, and with the shoot key
    held the water level comes out at 130 in a tank of 100. *)
Lemma gameLoop_negative_delta :
  (exists w',
     gameLoop true [] 0 lateWorld = Some w'
     /\ exists cell,
          GameState.fires (state w') = [(gridKey 0 (-4), cell)]
          /\ FireCell.intensity cell = -0.05)
  /\ (exists w',
        gameLoop true [" "%string] 0 lateWorld = Some w'
        /\ Player.waterLevel (GameState.player (state w')) = 130
        /\ Player.maxWater (GameState.player (state w')) = 100).
Proof.
  assert (Hdelta : frameDelta 0 (lastFrameTime lateWorld) = -1)
    by (unfold frameDelta; simpl; lra).
  split.
  - destruct (gameLoop_total true [] 0 lateWorld) as [w' Hrun].
    exists w'. split; [exact Hrun|].
    unfold gameLoop in Hrun. rewrite Hdelta in Hrun.
    cbn [GameState.gameStatus state lateWorld aheadState rng] in Hrun.
    fold (aheadState 0.05) in Hrun.
    destruct (tick true [] (aheadState 0.05) (aheadState 0.05) (-1)
                (constRng 0.5)) as [[s' g']|] eqn:Htick; [|discriminate].
    injection Hrun as <-. cbn [state].
    destruct (tick_ahead [] 0.05 (-1) _ _ _ (or_introl eq_refl)
                ltac:(lra) Htick) as [_ Hf].
    rewrite Hf.
    rewrite checkWaterFireCollision_idle by (left; reflexivity).
    eexists. split; [reflexivity|].
    cbn [grown aheadCell FireCell.intensity]. rewrite Rmin_right; lra.
  - destruct (gameLoop_total true [" "%string] 0 lateWorld) as [w' Hrun].
    exists w'. split; [exact Hrun|].
    unfold gameLoop in Hrun. rewrite Hdelta in Hrun.
    cbn [GameState.gameStatus state lateWorld aheadState rng] in Hrun.
    fold (aheadState 0.05) in Hrun.
    destruct (tick true [" "%string] (aheadState 0.05) (aheadState 0.05) (-1)
                (constRng 0.5)) as [[s' g']|] eqn:Htick; [|discriminate].
    injection Hrun as <-. cbn [state].
    destruct (tick_ahead [" "%string] 0.05 (-1) _ _ _
                (or_intror eq_refl) ltac:(lra) Htick) as [Hp _].
    rewrite Hp. cbn [Player.waterLevel Player.maxWater keys_has existsb
      String.eqb Ascii.eqb Bool.eqb orb].
    split; [|reflexivity]. rewrite Rmax_right; lra.
Qed.

Lemma gameLoop_delta_unclamped_witness :
  exists s' g',
    gameLoop true [" "%string] 100
             (mkWorld 0 (aheadState 0.5) (constRng 0.5))
    = Some (mkWorld 100 s' g')
    /\ GameState.timeElapsed s' = 0 + (100 - 0) / 1000
    /\ cellsOk (GameState.fires s') /\ waterOk (GameState.player s').
Proof.
  destruct (gameLoop_delta_unclamped true [" "%string] 100
              (mkWorld 0 (aheadState 0.5) (constRng 0.5)) eq_refl)
    as (s' & g' & _ & Hrun & Htime & Hsafe).
  exists s', g'. split; [exact Hrun|]. split; [exact Htime|].
  apply Hsafe.
  - cbn [lastFrameTime]. lra.
  - cbn [state GameState.fires aheadState]. unfold cellsOk, aheadFires.
    cbn [FireMap.values map snd].
    constructor; [|constructor]. unfold cellOk, aheadCell.
    cbn [FireCell.intensity]. lra.
  - cbn [state GameState.player aheadState]. unfold waterOk, originPlayer.
    cbn [Player.waterLevel Player.maxWater]. lra.
Defined.

(** ** Seeding the fires and the trees *)

Lemma length_set k v m :
  List.length (FireMap.set k v m)
  = if FireMap.has k m then List.length m else S (List.length m).
Proof.
  induction m as [|[k0 v0] rest IH]; simpl; [reflexivity|].
  destruct (key_eqb k k0); simpl; [reflexivity|].
  rewrite IH. destruct (FireMap.has k rest); reflexivity.
Qed.

Lemma has_set_same k v m : FireMap.has k (FireMap.set k v m) = true.
Proof.
  destruct (FireMap.has k (FireMap.set k v m)) eqn:E; [reflexivity|].
  apply has_get in E. rewrite get_set_same in E. discriminate.
Qed.

Lemma seedFire_seedSpot fires g :
  seedFire fires g
  = (let '((placed, (x, z, key)), g1) := seedSpot fires g in
     let '(r, g2) := Math_random g1 in
     (FireMap.set key
        (FireCell.mk (IZR (floor (x / GRID_SIZE)) * GRID_SIZE)
                     (IZR (floor (z / GRID_SIZE)) * GRID_SIZE)
                     (r * 0.5 + 0.5) 0)
        fires, g2)).
Proof.
  unfold seedFire, seedSpot, bind, ret.
  destruct (randomSpot g) as [spot0 g0].
  destruct (fireAttempts 100 fires spot0 g0) as [[placed spot1] g1].
  destruct (negb placed).
  - destruct (randomSpot g1) as [[[x z] key] g2]. reflexivity.
  - destruct spot1 as [[x z] key]. reflexivity.
Qed.

Lemma seedFire_size fires g :
  (FireMap.size fires <= FireMap.size (fst (seedFire fires g))
   <= S (FireMap.size fires))%nat
  /\ (1 <= FireMap.size (fst (seedFire fires g)))%nat.
Proof.
  rewrite seedFire_seedSpot.
  destruct (seedSpot fires g) as [[placed [[x z] key]] g1].
  destruct (Math_random g1) as [r g2]. cbn [fst]. unfold FireMap.size.
  rewrite length_set. destruct (FireMap.has key fires) eqn:E.
  - split; [lia|]. destruct fires; [discriminate|simpl; lia].
  - lia.
Qed.

Lemma seedFires_size n :
  forall fires g,
    (FireMap.size fires <= FireMap.size (fst (seedFires n fires g))
     <= n + FireMap.size fires)%nat
    /\ (0 < n -> 1 <= FireMap.size (fst (seedFires n fires g)))%nat.
Proof.
  induction n as [|n IH]; intros fires g; cbn [seedFires].
  - simpl. split; lia.
  - unfold bind. pose proof (seedFire_size fires g) as [H1 H2].
    destruct (seedFire fires g) as [fires1 g1]. cbn [fst] in H1, H2.
    destruct (IH fires1 g1) as [H3 H4]. split; lia.
Qed.

Lemma tape_all_half : tape_all halfDraw (constRng 0.5).
Proof. intros n. reflexivity. Qed.

Lemma gen_randomSpot_half :
  gen_inv halfDraw randomSpot (fun spot => snd spot = gridKey 0 0).
Proof.
  unfold randomSpot.
  eapply gen_bind; [apply gen_random|]. intros r1 ->.
  eapply gen_bind; [apply gen_random|]. intros r2 ->.
  apply gen_ret. cbn [snd]. f_equal; unfold WORLD_SIZE; lra.
Qed.

Lemma gen_fireAttempts_half n fires :
  forall spot,
    snd spot = gridKey 0 0 ->
    gen_inv halfDraw (fireAttempts n fires spot)
      (fun found =>
         snd (snd found) = gridKey 0 0
         /\ (FireMap.has (gridKey 0 0) fires = true -> fst found = false)).
Proof.
  induction n as [|n IH]; intros spot Hspot; cbn [fireAttempts].
  - apply gen_ret. split; [exact Hspot|reflexivity].
  - eapply gen_bind; [apply gen_randomSpot_half|].
    intros [[x z] key] Hkey. cbn [snd] in Hkey. subst key.
    destruct (FireMap.has (gridKey 0 0) fires) eqn:Hhas; cbn [negb].
    + apply IH. reflexivity.
    + destruct (_ || _)%bool.
      * apply gen_ret. split; [reflexivity|discriminate].
      * eapply gen_weaken; [|apply IH; reflexivity].
        intros found [H1 _]. split; [exact H1|discriminate].
Qed.

Lemma gen_seedSpot_half fires :
  gen_inv halfDraw (seedSpot fires)
    (fun r => snd (snd r) = gridKey 0 0
              /\ (FireMap.has (gridKey 0 0) fires = true -> fst r = false)).
Proof.
  unfold seedSpot.
  eapply gen_bind; [apply gen_randomSpot_half|]. intros spot0 H0.
  eapply gen_bind; [apply gen_fireAttempts_half, H0|].
  intros [placed spot1] [H1 Hfail]. cbn [fst snd] in H1, Hfail.
  eapply gen_bind with (Q1 := fun spot => snd spot = gridKey 0 0).
  - destruct (negb placed); [apply gen_randomSpot_half|apply gen_ret, H1].
  - intros spot2 H2. apply gen_ret. split; assumption.
Qed.

(** On that tape a round writes the centre key, whatever the map holds. *)
Lemma gen_seedFire_half fires :
  fires = [] \/ FireMap.keys fires = [gridKey 0 0] ->
  gen_inv halfDraw (seedFire fires)
          (fun fires' => FireMap.keys fires' = [gridKey 0 0]).
Proof.
  intros Hf g Hg. rewrite seedFire_seedSpot.
  destruct (gen_seedSpot_half fires g Hg) as [[Hkey _] Hg1].
  destruct (seedSpot fires g) as [[placed [[x z] key]] g1].
  cbn [fst snd] in Hkey, Hg1. subst key.
  destruct (gen_random halfDraw g1 Hg1) as [_ Hg2].
  destruct (Math_random g1) as [r g2]. cbn [fst snd] in *.
  split; [|exact Hg2].
  destruct Hf as [->|Hk]; [reflexivity|].
  rewrite keys_set_has; [exact Hk|].
  apply has_In. rewrite Hk. left. reflexivity.
Qed.

Lemma gen_seedFires_half n :
  forall fires,
    FireMap.keys fires = [gridKey 0 0] ->
    gen_inv halfDraw (seedFires n fires)
            (fun fires' => FireMap.keys fires' = [gridKey 0 0]).
Proof.
  induction n as [|n IH]; intros fires Hk; cbn [seedFires].
  - apply gen_ret, Hk.
  - eapply gen_bind; [apply gen_seedFire_half; right; exact Hk|].
    intros fires' Hk'. apply IH, Hk'.
Qed.

Lemma initializeFires_half :
  FireMap.keys (fst (initializeFires true (constRng 0.5))) = [gridKey 0 0].
Proof.
  unfold initializeFires, INITIAL_FIRES. cbn [negb seedFires].
  assert (H : gen_inv halfDraw
                (fires' <- seedFire FireMap.empty ;; seedFires 4 fires')
                (fun fires' => FireMap.keys fires' = [gridKey 0 0])).
  { eapply gen_bind; [apply gen_seedFire_half; left; reflexivity|].
    intros fires' Hk. apply gen_seedFires_half, Hk. }
  apply (H (constRng 0.5) tape_all_half).
Qed.

Lemma initializeFires_half_size :
  FireMap.size (fst (initializeFires true (constRng 0.5))) = 1%nat.
Proof.
  unfold FireMap.size. rewrite <- length_keys, initializeFires_half.
  reflexivity.
Qed.

Lemma initializeFires_size_le scene g :
  (FireMap.size (fst (initializeFires scene g)) <= INITIAL_FIRES)%nat.
Proof.
  unfold initializeFires. destruct (negb scene).
  - simpl. unfold INITIAL_FIRES. lia.
  - destruct (seedFires_size INITIAL_FIRES FireMap.empty g) as [[_ H] _].
    unfold FireMap.size, FireMap.empty in *. cbn [List.length] in H. lia.
Qed.

Lemma initializeFires_size_ge g :
  (1 <= FireMap.size (fst (initializeFires true g)))%nat.
Proof.
  unfold initializeFires. cbn [negb].
  destruct (seedFires_size INITIAL_FIRES FireMap.empty g) as [_ H].
  apply H. unfold INITIAL_FIRES. lia.
Qed.

(** A round whose final spot has a key the map already holds leaves the
    size of the map as it was. *)
Lemma seedFire_overwrites fires g :
  FireMap.has (snd (snd (fst (seedSpot fires g)))) fires = true ->
  FireMap.size (fst (seedFire fires g)) = FireMap.size fires.
Proof.
  rewrite seedFire_seedSpot.
  destruct (seedSpot fires g) as [[placed [[x z] key]] g1].
  destruct (Math_random g1) as [r g2]. cbn [fst snd].
  intros Hhas. unfold FireMap.size. rewrite length_set, Hhas. reflexivity.
Qed.

(** C9. [initializeFires] returns at most [INITIAL_FIRES] cells, and at
    least one when the scene exists.  A round whose placement loop fails
    and whose fallback key is already in the map overwrites that cell and
    adds none; on the tape that always reads one half this happens in
    every round after the first, and the session starts with one fire. *)
Theorem initializeFires_size :
  (forall scene g,
     (FireMap.size (fst (initializeFires scene g)) <= INITIAL_FIRES)%nat)
  /\ (forall g, (1 <= FireMap.size (fst (initializeFires true g)))%nat)
  /\ (forall fires g,
        fst (fst (seedSpot fires g)) = false ->
        FireMap.has (snd (snd (fst (seedSpot fires g)))) fires = true ->
        FireMap.size (fst (seedFire fires g)) = FireMap.size fires)
  /\ (forall fires g,
        tape_all halfDraw g ->
        FireMap.has (gridKey 0 0) fires = true ->
        fst (fst (seedSpot fires g)) = false
        /\ snd (snd (fst (seedSpot fires g))) = gridKey 0 0)
  /\ valid_rng (constRng 0.5)
  /\ (FireMap.size (fst (initializeFires true (constRng 0.5))) = 1
      /\ 1 < INITIAL_FIRES)%nat.
Proof.
  split; [exact initializeFires_size_le|].
  split; [exact initializeFires_size_ge|].
  split; [intros fires g _; apply seedFire_overwrites|].
  split.
  - intros fires g Hg Hhas.
    destruct (gen_seedSpot_half fires g Hg) as [[Hkey Hfail] _].
    split; [apply Hfail, Hhas|exact Hkey].
  - split; [apply valid_constRng; lra|].
    split; [exact initializeFires_half_size|unfold INITIAL_FIRES; lia].
Qed.

Lemma initializeFires_size_witness :
  (FireMap.size (fst (initializeFires true (constRng 0.5))) <= 5)%nat
  /\ fst (fst (seedSpot [(gridKey 0 0, ripeCell)] (constRng 0.5))) = false.
Proof.
  destruct initializeFires_size as (Hle & _ & _ & Hhalf & _).
  split.
  - apply (Hle true (constRng 0.5)).
  - apply (Hhalf [(gridKey 0 0, ripeCell)] (constRng 0.5)).
    + exact tape_all_half.
    + simpl. rewrite key_eqb_refl. reflexivity.
Defined.

(** *** Trees *)

Lemma treeAttempts_length n stations :
  forall trees g,
    (List.length trees
     <= List.length (fst (treeAttempts n stations trees g))
     <= S (List.length trees))%nat.
Proof.
  induction n as [|n IH]; intros trees g; cbn [treeAttempts].
  - simpl. lia.
  - unfold bind. rewrite Math_random_eq.
    rewrite (Math_random_eq (advance g)).
    rewrite (Math_random_eq (advance (advance g))). cbv zeta.
    destruct (_ && _)%bool.
    + unfold ret. cbn [fst]. rewrite length_app. simpl. lia.
    + apply IH.
Qed.

Lemma treeRounds_length n stations :
  forall trees g,
    (List.length trees <= 40 ->
     List.length (fst (treeRounds n stations trees g)) <= 40)%nat.
Proof.
  induction n as [|n IH]; intros trees g Hlen; cbn [treeRounds].
  - exact Hlen.
  - destruct (Nat.ltb (List.length trees) 40) eqn:E; [|exact Hlen].
    apply Nat.ltb_lt in E. unfold bind.
    pose proof (treeAttempts_length 200 stations trees g) as H.
    destruct (treeAttempts 200 stations trees g) as [trees' g'].
    cbn [fst] in H. apply IH. lia.
Qed.

(** On the tape of halves every attempt lands on the centre of the world,
    which is kept free of trees: no attempt places a tree. *)
Lemma gen_treeAttempts_half n stations trees :
  gen_inv halfDraw (treeAttempts n stations trees) (fun t => t = trees).
Proof.
  induction n as [|n IH]; cbn [treeAttempts].
  - apply gen_ret. reflexivity.
  - eapply gen_bind; [apply gen_random|]. intros r1 ->.
    eapply gen_bind; [apply gen_random|]. intros r2 ->.
    eapply gen_bind; [apply gen_random|]. intros r3 _. cbv zeta.
    assert (Hc : (sqrt (((0.5 - 0.5) * (WORLD_SIZE - 5)) ^ 2
                        + ((0.5 - 0.5) * (WORLD_SIZE - 5)) ^ 2) <? 8)
                 = true).
    { apply Rltb_true. apply sqrt_lt_of_sq; [lra|].
      unfold WORLD_SIZE. cbn [pow]. lra. }
    rewrite Hc. cbn [negb]. rewrite andb_false_r. cbn [andb]. exact IH.
Qed.

Lemma gen_treeRounds_half n stations :
  gen_inv halfDraw (treeRounds n stations []) (fun t => t = []).
Proof.
  induction n as [|n IH]; cbn [treeRounds].
  - apply gen_ret. reflexivity.
  - cbn [List.length Nat.ltb Nat.leb].
    eapply gen_bind; [apply gen_treeAttempts_half|]. intros t ->. exact IH.
Qed.

Lemma generateTrees_half stations :
  fst (generateTrees stations (constRng 0.5)) = [].
Proof.
  apply (gen_treeRounds_half 40 stations (constRng 0.5) tape_all_half).
Qed.

(** On the tape of halves the session starts with no tree instead of forty
    and with one fire instead of five. *)
Lemma placement_falls_short :
  valid_rng (constRng 0.5)
  /\ fst (generateTrees (GameState.refillStations initialGameState)
                        (constRng 0.5)) = []
  /\ FireMap.size (fst (initializeFires true (constRng 0.5))) = 1%nat
  /\ INITIAL_FIRES = 5%nat.
Proof.
  split; [apply valid_constRng; lra|].
  split; [apply generateTrees_half|].
  split; [exact initializeFires_half_size|reflexivity].
Qed.

(** C5, as the code has it.  A round of [initializeFires] writes a cell
    under the key of the spot it ends on, also when its 100 attempts have
    all failed and that spot is the unconstrained fallback draw, so the
    key is in the map after the round (a cell already there is
    overwritten).  [generateTrees] has no fallback: a round adds one tree
    or none, and none when every attempt lands near the centre.  Both are
    bounded loops; they yield at most 40 trees and, with a scene, between
    1 and [INITIAL_FIRES] fires. *)
Theorem placement_fallback :
  (forall fires g,
     FireMap.has (snd (snd (fst (seedSpot fires g))))
                 (fst (seedFire fires g)) = true)
  /\ (forall fires g,
        let drawn := randomSpot g in
        let found := fireAttempts 100 fires (fst drawn) (snd drawn) in
        fst (fst found) = false ->
        fst (seedSpot fires g) = (false, fst (randomSpot (snd found))))
  /\ (forall n stations trees g,
        (List.length trees
         <= List.length (fst (treeAttempts n stations trees g))
         <= S (List.length trees))%nat)
  /\ (forall n stations trees g,
        tape_all halfDraw g ->
        fst (treeAttempts n stations trees g) = trees)
  /\ (forall stations g,
        (List.length (fst (generateTrees stations g)) <= 40)%nat)
  /\ (forall g,
        (1 <= FireMap.size (fst (initializeFires true g)) <= INITIAL_FIRES)%nat).
Proof.
  split.
  - intros fires g. rewrite seedFire_seedSpot.
    destruct (seedSpot fires g) as [[placed [[x z] key]] g1].
    destruct (Math_random g1) as [r g2]. cbn [fst snd].
    apply has_set_same.
  - split.
    { intros fires g drawn found Hfail. subst drawn found.
      unfold seedSpot, bind, ret.
      destruct (randomSpot g) as [spot0 g0]. cbn [fst snd] in *.
      destruct (fireAttempts 100 fires spot0 g0) as [[placed spot1] g1].
      cbn [fst snd] in *. subst placed. cbn [negb].
      destruct (randomSpot g1) as [spot2 g2]. reflexivity. }
    split; [exact treeAttempts_length|].
    split.
    + intros n stations trees g Hg.
      apply (gen_treeAttempts_half n stations trees g Hg).
    + split.
      * intros stations g. apply treeRounds_length. simpl. lia.
      * intros g. split;
          [apply initializeFires_size_ge|apply initializeFires_size_le].
Qed.

Lemma placement_fallback_witness :
  fst (treeAttempts 200 (GameState.refillStations initialGameState) []
                    (constRng 0.5)) = []
  /\ FireMap.has (snd (snd (fst (seedSpot [] (constRng 0.5))))) 
                 (fst (seedFire [] (constRng 0.5))) = true.
Proof.
  destruct placement_fallback as (Hwritten & _ & _ & Hskip & _).
  split.
  - apply (Hskip 200%nat (GameState.refillStations initialGameState) []
                 (constRng 0.5)).
    exact tape_all_half.
  - apply (Hwritten [] (constRng 0.5)).
Defined.

(** * Further properties *)

(** ** Geometry *)

Lemma sqrt_le_of_sq (x b : R) : 0 <= b -> x <= b * b -> sqrt x <= b.
Proof.
  intros Hb Hx. rewrite <- (sqrt_square b) by lra. apply sqrt_le_1_alt, Hx.
Qed.

(** X1. [normalize3D] returns a vector of length one that points the way
    its argument does, for every argument that is not the zero vector, and
    the zero vector for the zero vector. *)
Theorem normalize3D_unit (v : Vector3.t) :
  let n := normalize3D v in
  let len := sqrt (Vector3.x v * Vector3.x v + Vector3.y v * Vector3.y v
                   + Vector3.z v * Vector3.z v) in
  (v <> Vector3.mk 0 0 0 ->
   0 < len
   /\ Vector3.x n * Vector3.x n + Vector3.y n * Vector3.y n
      + Vector3.z n * Vector3.z n = 1
   /\ Vector3.x n * len = Vector3.x v
   /\ Vector3.y n * len = Vector3.y v
   /\ Vector3.z n * len = Vector3.z v)
  /\ (v = Vector3.mk 0 0 0 -> n = Vector3.mk 0 0 0).
Proof.
  intros n len. split.
  - intros Hv.
    assert (Hs : 0 < Vector3.x v * Vector3.x v + Vector3.y v * Vector3.y v
                     + Vector3.z v * Vector3.z v).
    { destruct v as [x y z]. cbn [Vector3.x Vector3.y Vector3.z].
      destruct (Req_dec x 0) as [Hx|Hx]; [|nra].
      destruct (Req_dec y 0) as [Hy|Hy]; [|nra].
      destruct (Req_dec z 0) as [Hz|Hz]; [|nra].
      subst. contradiction. }
    assert (Hlen : 0 < len) by (apply sqrt_lt_R0, Hs).
    assert (Hsq : len * len = Vector3.x v * Vector3.x v
                              + Vector3.y v * Vector3.y v
                              + Vector3.z v * Vector3.z v)
      by (apply sqrt_sqrt; lra).
    split; [exact Hlen|].
    subst n. unfold normalize3D. fold len. unfold Rgtb.
    apply Rltb_true in Hlen as Hb. rewrite Hb.
    cbn [Vector3.x Vector3.y Vector3.z].
    repeat split; try (field; lra).
    transitivity ((Vector3.x v * Vector3.x v + Vector3.y v * Vector3.y v
                   + Vector3.z v * Vector3.z v) / (len * len));
      [field; lra|rewrite <- Hsq; field; lra].
  - intros ->. subst n. unfold normalize3D.
    cbn [Vector3.x Vector3.y Vector3.z].
    replace (0 * 0 + 0 * 0 + 0 * 0) with 0 by lra. rewrite sqrt_0.
    unfold Rgtb. destruct (0 <? 0) eqn:E; [|reflexivity].
    apply Rltb_true in E. lra.
Qed.

Lemma normalize3D_unit_witness :
  let n := normalize3D (Vector3.mk 3 0 4) in
  Vector3.x n * Vector3.x n + Vector3.y n * Vector3.y n
  + Vector3.z n * Vector3.z n = 1.
Proof.
  destruct (normalize3D_unit (Vector3.mk 3 0 4)) as [Hunit _].
  apply Hunit. intros H. injection H as H _. lra.
Defined.

(** ** The player's step *)

Lemma moveVector_cases keys :
  let '(mx, mz) := moveVectorOf keys in
  (mx = -1 \/ mx = 0 \/ mx = 1) /\ (mz = -1 \/ mz = 0 \/ mz = 1).
Proof.
  unfold moveVectorOf.
  destruct (keys_has "w" keys), (keys_has "s" keys), (keys_has "a" keys),
    (keys_has "d" keys); split; lra.
Qed.

Lemma rotatedMove_unit keys rotation :
  moving keys = true ->
  let '(rx, rz) := rotatedMove keys rotation in rx * rx + rz * rz = 1.
Proof.
  unfold moving, rotatedMove. pose proof (moveVector_cases keys) as Hc.
  destruct (moveVectorOf keys) as [mx mz]. destruct Hc as [Hx Hz].
  intros Hm.
  assert (Hs : 0 < mx * mx + mz * mz).
  { unfold Rneqb in Hm. apply orb_true_iff in Hm.
    destruct Hm as [Hm|Hm]; apply negb_true_iff, Reqb_false in Hm; nra. }
  set (len := sqrt (mx * mx + mz * mz)).
  assert (Hlen : 0 < len) by (apply sqrt_lt_R0, Hs).
  assert (Hsq : len * len = mx * mx + mz * mz) by (apply sqrt_sqrt; lra).
  pose proof (sin2_cos2 rotation) as Hsc. unfold Rsqr in Hsc.
  assert (Hn : mx / len * (mx / len) + mz / len * (mz / len) = 1).
  { transitivity ((mx * mx + mz * mz) / (len * len));
      [field; lra|rewrite <- Hsq; field; lra]. }
  nra.
Qed.

Lemma clampToWorld_nonexpansive c x :
  Rabs x <= WORLD_SIZE / 2 - 2 ->
  (clampToWorld c - x) * (clampToWorld c - x) <= (c - x) * (c - x).
Proof.
  unfold clampToWorld, WORLD_SIZE. intros H. apply Rabs_le_iff in H.
  unfold Rmax, Rmin.
  destruct (Rle_dec (40 / 2 - 2) c);
    destruct (Rle_dec _ _); nra.
Qed.

(** X2. In one call of [updatePlayer] with a time step that is not
    negative, a player inside the world bounds moves by at most
    5 * deltaTime (the base speed times the step), stays at its height,
    and stays inside the world bounds; trees and the boundary can only
    shorten the step. *)
Theorem updatePlayer_step_bound (keys : KeySet) (gs : GameState.t)
    (player : Player.t) (deltaTime : R) :
  0 <= deltaTime ->
  inWorld (Player.position player) ->
  let pos := Player.position player in
  let pos' := Player.position (updatePlayer keys gs player deltaTime) in
  sqrt ((Vector3.x pos' - Vector3.x pos) ^ 2
        + (Vector3.z pos' - Vector3.z pos) ^ 2) <= 5 * deltaTime
  /\ Vector3.y pos' = Vector3.y pos
  /\ inWorld pos'.
Proof.
  intros Hdt Hin pos pos'.
  split; [|split; [|apply updatePlayer_inWorld, Hin]].
  - subst pos'. destruct (moving keys) eqn:Hm.
    + unfold updatePlayer. rewrite Hm. fold pos.
      pose proof (rotatedMove_unit keys
                    (turned keys (Player.rotation player) deltaTime) Hm)
        as Hunit.
      destruct (rotatedMove _ _) as [rx rz].
      destruct (treeCollisions _ _ _ _) as [trunk fol].
      destruct (refill _ _ _ _ _) as [b w].
      destruct Hin as [Hx Hz]. fold pos in Hx, Hz.
      apply sqrt_le_of_sq; [lra|]. cbn [pow].
      destruct trunk, fol; cbn [negb Player.position Vector3.x Vector3.z];
        match goal with
        | |- (clampToWorld ?a - _) * _ + (clampToWorld ?b - _) * _ <= _ =>
            pose proof (clampToWorld_nonexpansive a _ Hx);
            pose proof (clampToWorld_nonexpansive b _ Hz)
        end; nra.
    + rewrite updatePlayer_position_still by exact Hm. subst pos.
      apply sqrt_le_of_sq; [lra|]. cbn [pow].
      pose proof (Rle_0_sqr deltaTime) as Hsq. unfold Rsqr in Hsq. lra.
  - subst pos'. destruct (moving keys) eqn:Hm.
    + unfold updatePlayer. rewrite Hm.
      destruct (rotatedMove _ _) as [rx rz].
      destruct (treeCollisions _ _ _ _) as [trunk fol].
      destruct (if negb trunk then _ else _) as [px pz].
      destruct (refill _ _ _ _ _). reflexivity.
    + rewrite updatePlayer_position_still by exact Hm. reflexivity.
Qed.

Lemma updatePlayer_step_bound_witness :
  let pos' := Player.position
                (updatePlayer walkingKeys initialGameState originPlayer 0.1) in
  sqrt ((Vector3.x pos' - 0) ^ 2 + (Vector3.z pos' - 0) ^ 2) <= 5 * 0.1
  /\ Vector3.y pos' = 0
  /\ inWorld pos'.
Proof.
  apply (updatePlayer_step_bound walkingKeys initialGameState originPlayer 0.1).
  - lra.
  - apply inWorld_origin.
Defined.

(** ** Water *)

Lemma refill_spec stations pos mw w dt :
  (fst (refill stations pos mw w dt) = true
   <-> exists station, In station stations /\ inStation pos station)
  /\ snd (refill stations pos mw w dt)
     = if fst (refill stations pos mw w dt)
       then Rmin mw (w + REFILL_RATE * dt * 60) else w.
Proof.
  induction stations as [|st rest [IH1 IH2]]; cbn [refill].
  - split; [|reflexivity]. split; [discriminate|]. intros [s [[] _]].
  - destruct (_ <? RefillStation.radius st) eqn:E.
    + split; [|reflexivity]. split; [intros _|reflexivity].
      exists st. split; [left; reflexivity|]. apply Rltb_true in E. exact E.
    + split; [|exact IH2]. rewrite IH1. split.
      * intros [s [Hin Hs]]. exists s. split; [right; exact Hin|exact Hs].
      * intros [s [[->|Hin] Hs]].
        -- apply Rltb_false in E. unfold inStation in Hs. lra.
        -- exists s. split; assumption.
Qed.

Lemma updatePlayer_water_fields keys gs player dt :
  let player' := updatePlayer keys gs player dt in
  let shot :=
    if (keys_has " " keys && Rgtb (Player.waterLevel player) 0)%bool
    then Rmax 0 (Player.waterLevel player - 30 * dt)
    else Player.waterLevel player in
  (Player.isRefilling player' = true
   <-> exists station,
         In station (GameState.refillStations gs)
         /\ inStation (Player.position player') station)
  /\ Player.waterLevel player'
     = (if Player.isRefilling player'
        then Rmin (Player.maxWater player) (shot + REFILL_RATE * dt * 60)
        else shot).
Proof.
  intros player' shot. subst player'. unfold updatePlayer. fold shot.
  match goal with
  | |- context [refill ?st ?pos ?mw ?w ?d] =>
      pose proof (refill_spec st pos mw w d) as [H1 H2];
      destruct (refill st pos mw w d) as [b w2]
  end.
  cbn [fst snd Player.isRefilling Player.waterLevel Player.maxWater
       Player.position] in *.
  split; [exact H1|exact H2].
Qed.

(** X3. After [updatePlayer] the refilling flag is set exactly when the
    new position is inside some refill station.  The water level is first
    lowered by 30 * deltaTime, not below 0, when the shoot key is held and
    water is left; inside a station it is then raised once by
    REFILL_RATE * deltaTime * 60, not above [maxWater], however many
    stations contain the player.  The tank size is never changed. *)
Theorem updatePlayer_water_account (keys : KeySet) (gs : GameState.t)
    (player : Player.t) (deltaTime : R) :
  let player' := updatePlayer keys gs player deltaTime in
  let shot :=
    if (keys_has " " keys && Rgtb (Player.waterLevel player) 0)%bool
    then Rmax 0 (Player.waterLevel player - 30 * deltaTime)
    else Player.waterLevel player in
  (Player.isRefilling player' = true
   <-> exists station,
         In station (GameState.refillStations gs)
         /\ inStation (Player.position player') station)
  /\ Player.waterLevel player'
     = (if Player.isRefilling player'
        then Rmin (Player.maxWater player)
                  (shot + REFILL_RATE * deltaTime * 60)
        else shot)
  /\ Player.maxWater player' = Player.maxWater player.
Proof.
  intros player' shot.
  destruct (updatePlayer_water_fields keys gs player deltaTime) as [H1 H2].
  split; [exact H1|]. split; [exact H2|apply updatePlayer_maxWater].
Qed.

(** X4. Outside every refill station, with a time step that is not
    negative, [updatePlayer] never raises the water level, and leaves it as
    it is when the shoot key is up. *)
Theorem updatePlayer_water_only_falls (keys : KeySet) (gs : GameState.t)
    (player : Player.t) (deltaTime : R) :
  0 <= deltaTime ->
  0 <= Player.waterLevel player ->
  let player' := updatePlayer keys gs player deltaTime in
  (forall station,
     In station (GameState.refillStations gs) ->
     ~ inStation (Player.position player') station) ->
  0 <= Player.waterLevel player' <= Player.waterLevel player
  /\ (keys_has " " keys = false ->
      Player.waterLevel player' = Player.waterLevel player).
Proof.
  intros Hdt Hw player' Hout.
  destruct (updatePlayer_water_fields keys gs player deltaTime)
    as (Hflag & Hlevel).
  fold player' in Hflag, Hlevel.
  destruct (Player.isRefilling player') eqn:E.
  - exfalso. destruct (proj1 Hflag eq_refl) as [st [Hin Hs]].
    exact (Hout st Hin Hs).
  - rewrite Hlevel. split.
    + destruct (_ && _)%bool; [|lra].
      unfold Rmax. destruct (Rle_dec _ _); lra.
    + intros ->. reflexivity.
Qed.

Lemma origin_outside_stations y station :
  In station (GameState.refillStations initialGameState) ->
  ~ inStation (Vector3.mk 0 y 0) station.
Proof.
  intros Hin Hs. unfold inStation in Hs.
  assert (Hfar : 3 <= distance3D (Vector3.mk 0 y 0)
                        (RefillStation.position station)
                 /\ RefillStation.radius station = 3).
  { cbn [GameState.refillStations initialGameState] in Hin.
    destruct Hin as [<-|[<-|[<-|[<-|[]]]]];
      (split; [|reflexivity]); unfold distance3D;
      cbn [RefillStation.position Vector3.x Vector3.y Vector3.z];
      apply sqrt_ge_of_sq; try lra; cbn [pow]; nra. }
  destruct Hfar as [H1 H2]. rewrite H2 in Hs. lra.
Qed.

Lemma updatePlayer_water_only_falls_witness :
  let player' := updatePlayer [" "%string] initialGameState originPlayer 0.1 in
  0 <= Player.waterLevel player' <= 100.
Proof.
  intros player'.
  destruct (updatePlayer_water_only_falls [" "%string] initialGameState
              originPlayer 0.1) as [H _].
  - lra.
  - simpl. lra.
  - intros station Hin. unfold originPlayer.
    rewrite updatePlayer_standing by (try (right; reflexivity); reflexivity).
    cbn [Player.position]. apply origin_outside_stations, Hin.
  - exact H.
Defined.

Lemma updatePlayer_water_account_witness :
  Player.maxWater (updatePlayer [" "%string] initialGameState originPlayer 0.1)
  = 100.
Proof.
  destruct (updatePlayer_water_account [" "%string] initialGameState
              originPlayer 0.1) as (_ & _ & H).
  exact H.
Defined.

(** ** Growth and spread, on the whole map *)

Lemma nth_error_set_same key fire f' :
  forall m i,
    FireMap.wf m -> nth_error m i = Some (key, fire) ->
    nth_error (FireMap.set key f' m) i = Some (key, f').
Proof.
  unfold FireMap.wf.
  induction m as [|[k0 v0] rest IH]; intros i Hwf Hnth.
  - destruct i; discriminate.
  - simpl in Hwf. inversion Hwf as [|? ? Hnot Hrest]; subst.
    destruct i as [|i]; simpl in Hnth.
    + injection Hnth as -> ->. simpl. rewrite key_eqb_refl. reflexivity.
    + assert (Hne : key_eqb key k0 = false).
      { apply key_eqb_neq. intros ->. apply Hnot.
        apply nth_error_In in Hnth.
        change k0 with (fst (k0, fire)). apply in_map, Hnth. }
      simpl. rewrite Hne. simpl. apply IH; assumption.
Qed.

Lemma nth_error_set_other key fire f' :
  forall m i j,
    FireMap.wf m -> nth_error m i = Some (key, fire) -> j <> i ->
    nth_error (FireMap.set key f' m) j = nth_error m j.
Proof.
  unfold FireMap.wf.
  induction m as [|[k0 v0] rest IH]; intros i j Hwf Hnth Hne.
  - destruct i; discriminate.
  - simpl in Hwf. inversion Hwf as [|? ? Hnot Hrest]; subst.
    destruct i as [|i]; simpl in Hnth.
    + injection Hnth as -> ->. simpl. rewrite key_eqb_refl.
      destruct j; [contradiction|reflexivity].
    + assert (Hk : key_eqb key k0 = false).
      { apply key_eqb_neq. intros ->. apply Hnot.
        apply nth_error_In in Hnth.
        change k0 with (fst (k0, fire)). apply in_map, Hnth. }
      simpl. rewrite Hk. destruct j as [|j]; [reflexivity|].
      simpl. apply (IH i j); try assumption. lia.
Qed.

Lemma length_set_in key fire f' m :
  In (key, fire) m ->
  List.length (FireMap.set key f' m) = List.length m.
Proof.
  intros Hin. rewrite length_set, (In_has _ _ _ Hin). reflexivity.
Qed.

Lemma trySpread_shape gs fire chance dir m g :
  exists added,
    fst (trySpread gs fire chance dir m g) = m ++ added
    /\ Forall spreadEntry added.
Proof.
  destruct (spreads_dec gs fire chance dir m g) as [Hs|Hs].
  - rewrite trySpread_yes by exact Hs. eexists. split; [reflexivity|].
    destruct Hs as (_ & Hx & Hz & _).
    constructor; [|constructor]. eexists _, _. repeat split; eassumption.
  - rewrite trySpread_no by exact Hs. exists []. rewrite app_nil_r.
    split; [reflexivity|constructor].
Qed.

Lemma spreadAll_shape gs fire chance dirs :
  forall m g,
  exists added,
    fst (spreadAll gs fire chance dirs m g) = m ++ added
    /\ Forall spreadEntry added.
Proof.
  induction dirs as [|dir rest IH]; intros m g.
  - exists []. rewrite app_nil_r. split; [reflexivity|constructor].
  - cbn [spreadAll]. unfold bind.
    destruct (trySpread_shape gs fire chance dir m g) as (a1 & H1 & F1).
    destruct (trySpread gs fire chance dir m g) as [m1 g1].
    cbn [fst] in H1. subst m1.
    destruct (IH (m ++ a1) g1) as (a2 & H2 & F2).
    exists (a1 ++ a2). rewrite H2, app_assoc. split; [reflexivity|].
    apply Forall_app. split; assumption.
Qed.

Lemma visit_shape gs dt key fire m g :
  exists f' added,
    visited dt fire f'
    /\ fst (visit gs dt key fire m g) = FireMap.set key f' m ++ added
    /\ Forall spreadEntry added.
Proof.
  unfold visit. destruct (Rgtb _ _).
  - destruct (spreadAll_shape gs (timerReset (grown fire dt))
                (FireCell.intensity (timerReset (grown fire dt))
                 * GameState.windSpeed gs * 0.2)
                directions
                (FireMap.set key (timerReset (grown fire dt)) m) g)
      as (added & H & F).
    exists (timerReset (grown fire dt)), added.
    split; [right; reflexivity|]. split; assumption.
  - exists (grown fire dt), []. rewrite app_nil_r.
    split; [left; reflexivity|]. split; [reflexivity|constructor].
Qed.

Lemma visit_wf gs dt key fire m g :
  In (key, fire) m -> FireMap.wf m -> FireMap.wf (fst (visit gs dt key fire m g)).
Proof.
  intros Hin Hwf.
  apply (visit_preserves gs dt FireMap.wf); try assumption.
  - intros k f m0 _ H0. split; apply wf_set, H0.
  - intros m0 x z Hfree _ _ H0. rewrite <- set_fresh by exact Hfree.
    apply wf_set, H0.
Qed.

Lemma updateFires_wf scene gs fires dt g r :
  FireMap.wf fires ->
  updateFires scene gs fires dt g = Some r -> FireMap.wf (fst r).
Proof.
  apply (updateFires_preserves gs dt FireMap.wf).
  - intros k f m0 _ H0. split; apply wf_set, H0.
  - intros m0 x z Hfree _ _ H0. rewrite <- set_fresh by exact Hfree.
    apply wf_set, H0.
Qed.

(** The walk from position [i]: the entries before [i] stay, the entries
    from [i] on are visited once each, and whatever lies behind the end of
    the map it started on was added by a spread and visited once. *)
Lemma iterate_shape gs dt fuel :
  forall i m g m' g',
    FireMap.wf m ->
    iterate fuel gs dt i m g = Some (m', g') ->
    (forall j e,
       nth_error m j = Some e ->
       ((j < i)%nat -> nth_error m' j = Some e)
       /\ ((i <= j)%nat ->
           exists c', nth_error m' j = Some (fst e, c')
                      /\ visited dt (snd e) c'))
    /\ (forall j e',
          nth_error m' j = Some e' -> (List.length m <= j)%nat ->
          exists a c', spreadEntry a /\ e' = (fst a, c')
                       /\ visited dt (snd a) c')
    /\ (List.length m <= List.length m')%nat.
Proof.
  induction fuel as [|fuel IH]; intros i m g m' g' Hwf Hrun.
  - simpl in Hrun. destruct (nth_error m i) as [[key fire]|] eqn:Hnth;
      [discriminate|].
    injection Hrun as <- <-. apply nth_error_None in Hnth.
    split; [|split; [|lia]].
    + intros j e Hj. assert (j < List.length m)%nat
        by (apply nth_error_Some; congruence).
      split; [intros _; exact Hj|intros; lia].
    + intros j e' Hj Hlen. assert (j < List.length m)%nat
        by (apply nth_error_Some; congruence). lia.
  - simpl in Hrun. destruct (nth_error m i) as [[key fire]|] eqn:Hnth.
    + assert (Hin : In (key, fire) m) by (apply nth_error_In in Hnth; exact Hnth).
      assert (Hi : (i < List.length m)%nat)
        by (apply nth_error_Some; congruence).
      pose proof (visit_wf gs dt key fire m g Hin Hwf) as Hwf1.
      destruct (visit_shape gs dt key fire m g)
        as (f' & added & Hvis & Hm1 & Fadd).
      destruct (visit gs dt key fire m g) as [m1 g1]. cbn [fst] in *.
      destruct (IH (S i) m1 g1 m' g' Hwf1 Hrun) as (A1 & B1 & L1).
      assert (Hlen : List.length (FireMap.set key f' m) = List.length m)
        by (apply (length_set_in key fire), Hin).
      assert (Hl1 : List.length m1
                    = (List.length m + List.length added)%nat)
        by (rewrite Hm1, length_app, Hlen; reflexivity).
      split; [|split; [|lia]].
      * intros j e Hj.
        assert (Hjl : (j < List.length m)%nat)
          by (apply nth_error_Some; congruence).
        destruct (Nat.eq_dec j i) as [->|Hne].
        -- rewrite Hnth in Hj. injection Hj as <-.
           assert (H1 : nth_error m1 i = Some (key, f')).
           { rewrite Hm1, nth_error_app1 by lia.
             apply (nth_error_set_same key fire); assumption. }
           split; [lia|]. intros _. exists f'. split; [|exact Hvis].
           apply (A1 i (key, f') H1). lia.
        -- assert (H1 : nth_error m1 j = Some e).
           { rewrite Hm1, nth_error_app1 by lia.
             rewrite (nth_error_set_other key fire f' m i j); assumption. }
           destruct (A1 j e H1) as [Hlt Hge]. split.
           ++ intros H. apply Hlt. lia.
           ++ intros H. apply Hge. lia.
      * intros j e' Hj Hjl.
        destruct (Nat.lt_ge_cases j (List.length m1)) as [Hin1|Hout].
        -- destruct (nth_error m1 j) as [a|] eqn:Ha;
             [|apply nth_error_None in Ha; lia].
           assert (Hadd : nth_error added (j - List.length m) = Some a).
           { rewrite Hm1, nth_error_app2, Hlen in Ha by lia. exact Ha. }
           destruct (A1 j a Ha) as [_ Hge].
           destruct Hge as (c' & Hc & Hv); [lia|].
           rewrite Hj in Hc. injection Hc as ->.
           exists a, c'. split; [|split; [reflexivity|exact Hv]].
           rewrite Forall_forall in Fadd. apply Fadd.
           apply nth_error_In in Hadd. exact Hadd.
        -- apply (B1 j e' Hj). lia.
    + injection Hrun as <- <-. apply nth_error_None in Hnth.
      split; [|split; [|lia]].
      * intros j e Hj. assert (j < List.length m)%nat
          by (apply nth_error_Some; congruence).
        split; [intros _; exact Hj|intros; lia].
      * intros j e' Hj Hlen. assert (j < List.length m)%nat
          by (apply nth_error_Some; congruence). lia.
Qed.

Lemma updateFires_shape gs fires dt g :
  FireMap.wf fires ->
  exists m' g',
    updateFires true gs fires dt g = Some (m', g')
    /\ FireMap.wf m'
    /\ (forall j e,
          nth_error fires j = Some e ->
          exists c', nth_error m' j = Some (fst e, c')
                     /\ visited dt (snd e) c')
    /\ (forall j e',
          nth_error m' j = Some e' -> (List.length fires <= j)%nat ->
          exists a c', spreadEntry a /\ e' = (fst a, c')
                       /\ visited dt (snd a) c')
    /\ (List.length fires <= List.length m')%nat.
Proof.
  intros Hwf.
  destruct (updateFires_total true gs fires dt g) as [[m' g'] Hrun].
  exists m', g'. split; [exact Hrun|].
  split; [apply (updateFires_wf _ _ _ _ _ _ Hwf Hrun)|].
  unfold updateFires in Hrun. cbn [negb] in Hrun.
  destruct (iterate_shape _ _ _ _ _ _ _ _ Hwf Hrun) as (A & B & L).
  split; [|split; assumption].
  intros j e Hj. apply (A j e Hj). lia.
Qed.

Lemma visited_fields dt c c' :
  visited dt c c' ->
  FireCell.x c' = FireCell.x c /\ FireCell.z c' = FireCell.z c
  /\ FireCell.intensity c' = Rmin 1 (FireCell.intensity c + dt * 0.1)
  /\ (FireCell.spreadTime c' = FireCell.spreadTime c + dt
      \/ FireCell.spreadTime c' = 0).
Proof.
  intros [->| ->]; cbn; repeat split; auto.
Qed.

(** X5. [updateFires] visits every cell of the map it is given exactly
    once: the cell stays at its position in the order and under its key,
    keeps its coordinates, has its intensity raised by 0.1 * deltaTime and
    capped at 1, and has its timer either advanced by deltaTime or reset to
    0.  No cell is dropped. *)
Theorem updateFires_grows_each_cell (gs : GameState.t) (fires : Fires)
    (deltaTime : R) (g : Rng) :
  FireMap.wf fires ->
  exists m' g',
    updateFires true gs fires deltaTime g = Some (m', g')
    /\ forall j key c,
         nth_error fires j = Some (key, c) ->
         exists c',
           nth_error m' j = Some (key, c')
           /\ FireMap.get key m' = Some c'
           /\ FireCell.x c' = FireCell.x c /\ FireCell.z c' = FireCell.z c
           /\ FireCell.intensity c'
              = Rmin 1 (FireCell.intensity c + deltaTime * 0.1)
           /\ (FireCell.spreadTime c' = FireCell.spreadTime c + deltaTime
               \/ FireCell.spreadTime c' = 0).
Proof.
  intros Hwf.
  destruct (updateFires_shape gs fires deltaTime g Hwf)
    as (m' & g' & Hrun & Hwf' & A & _).
  exists m', g'. split; [exact Hrun|].
  intros j key c Hj. destruct (A j (key, c) Hj) as (c' & Hc & Hv).
  cbn [fst snd] in Hc, Hv. exists c'. split; [exact Hc|].
  split; [apply In_get; [exact Hwf'|apply nth_error_In in Hc; exact Hc]|].
  apply visited_fields, Hv.
Qed.

Lemma updateFires_grows_each_cell_witness :
  exists m' g',
    updateFires true initialGameState ripeFires 0.1 (constRng 0.1)
    = Some (m', g')
    /\ exists c',
         nth_error m' 0 = Some (gridKey 0 0, c')
         /\ FireCell.intensity c' = Rmin 1 (1 + 0.1 * 0.1).
Proof.
  destruct (updateFires_grows_each_cell initialGameState ripeFires 0.1
              (constRng 0.1) (wf_singleton _ _)) as (m' & g' & Hrun & H).
  exists m', g'. split; [exact Hrun|].
  destruct (H 0%nat (gridKey 0 0) ripeCell eq_refl)
    as (c' & Hn & _ & _ & _ & Hi & _).
  exists c'. split; [exact Hn|exact Hi].
Defined.

Lemma gridKey_aligned (a b : Z) :
  gridKey (IZR a * GRID_SIZE) (IZR b * GRID_SIZE) = (a, b).
Proof.
  unfold gridKey, GRID_SIZE. f_equal; apply floor_eq; lra.
Qed.

Lemma spreadCell_key x z :
  gridKey (FireCell.x (spreadCell x z)) (FireCell.z (spreadCell x z))
  = gridKey x z.
Proof. unfold spreadCell. cbn [FireCell.x FireCell.z]. apply gridKey_aligned. Qed.

Lemma aligned_in_world x :
  Rabs x < WORLD_SIZE / 2 ->
  Rabs (IZR (floor (x / GRID_SIZE)) * GRID_SIZE) <= WORLD_SIZE / 2.
Proof.
  intros Hx. pose proof (floor_half_world x Hx) as [Hlo Hhi].
  apply IZR_le in Hlo, Hhi. unfold WORLD_SIZE, GRID_SIZE in *.
  apply Rabs_le_iff. lra.
Qed.

(** X6. Every cell [updateFires] returns under a key its argument did not
    hold was added by a spread and then visited by the same call: it lies
    behind all the cells of the argument, sits under the grid key of its
    own coordinates, which are inside the world, and leaves the call with
    intensity min(1, 0.3 + 0.1 * deltaTime), not with the 0.3 it was added
    with. *)
Theorem updateFires_new_cells (gs : GameState.t) (fires : Fires)
    (deltaTime : R) (g : Rng) :
  FireMap.wf fires ->
  exists m' g',
    updateFires true gs fires deltaTime g = Some (m', g')
    /\ forall j key c',
         nth_error m' j = Some (key, c') ->
         FireMap.has key fires = false ->
         (List.length fires <= j)%nat
         /\ gridKey (FireCell.x c') (FireCell.z c') = key
         /\ Rabs (FireCell.x c') <= WORLD_SIZE / 2
         /\ Rabs (FireCell.z c') <= WORLD_SIZE / 2
         /\ FireCell.intensity c' = Rmin 1 (0.3 + deltaTime * 0.1)
         /\ (FireCell.spreadTime c' = 0 + deltaTime
             \/ FireCell.spreadTime c' = 0).
Proof.
  intros Hwf.
  destruct (updateFires_shape gs fires deltaTime g Hwf)
    as (m' & g' & Hrun & Hwf' & A & B & L).
  exists m', g'. split; [exact Hrun|].
  intros j key c' Hj Hnew.
  assert (Hlen : (List.length fires <= j)%nat).
  { destruct (Nat.lt_ge_cases j (List.length fires)) as [Hlt|Hge];
      [|exact Hge].
    exfalso. destruct (nth_error fires j) as [e|] eqn:He;
      [|apply nth_error_None in He; lia].
    destruct (A j e He) as (c'' & Hc & _). rewrite Hj in Hc.
    injection Hc as Hk _.
    assert (FireMap.has key fires = true).
    { apply has_In. rewrite Hk. apply nth_error_In in He.
      apply in_map, He. }
    congruence. }
  split; [exact Hlen|].
  destruct (B j (key, c') Hj Hlen) as (a & c'' & Ha & He & Hv).
  injection He as -> ->.
  destruct Ha as (x & z & Hx & Hz & ->). cbn [fst snd] in *.
  destruct (visited_fields _ _ _ Hv) as (Ex & Ez & Ei & Et).
  rewrite Ex, Ez, Ei. split; [apply spreadCell_key|].
  unfold spreadCell in *. cbn [FireCell.x FireCell.z FireCell.intensity
    FireCell.spreadTime] in *.
  split; [apply aligned_in_world, Hx|].
  split; [apply aligned_in_world, Hz|].
  split; [reflexivity|exact Et].
Qed.

Lemma updateFires_new_cells_witness :
  exists m' g',
    updateFires true initialGameState ripeFires 0.1 (constRng 0.1)
    = Some (m', g')
    /\ forall j key c',
         nth_error m' j = Some (key, c') ->
         FireMap.has key ripeFires = false ->
         FireCell.intensity c' = Rmin 1 (0.3 + 0.1 * 0.1).
Proof.
  destruct (updateFires_new_cells initialGameState ripeFires 0.1
              (constRng 0.1) (wf_singleton _ _)) as (m' & g' & Hrun & H).
  exists m', g'. split; [exact Hrun|].
  intros j key c' Hj Hnew. apply (H j key c' Hj Hnew).
Defined.

(** ** The spread rule, on the whole map *)


















(** ** Suppression, on the whole map *)

Lemma sprayLoop_wf player dt entries :
  forall m, FireMap.wf m -> FireMap.wf (sprayLoop player dt entries m).
Proof.
  induction entries as [|[k f] rest IH]; intros m Hm; [exact Hm|].
  cbn [sprayLoop]; cbv zeta. apply IH.
  destruct (inWaterCone player f); [|exact Hm].
  destruct (_ <=? 0); [apply wf_delete|apply wf_set]; exact Hm.
Qed.

Lemma checkWaterFireCollision_wf scene keys player fires dt :
  FireMap.wf fires ->
  FireMap.wf (checkWaterFireCollision scene keys player fires dt).
Proof.
  intros Hwf. unfold checkWaterFireCollision.
  destruct (negb scene); [exact Hwf|].
  destruct (_ && _)%bool; [|exact Hwf].
  apply sprayLoop_wf, Hwf.
Qed.

Lemma checkWaterFireCollision_lookup scene keys player fires dt k :
  FireMap.wf fires ->
  FireMap.get k (checkWaterFireCollision scene keys player fires dt)
  = match FireMap.get k fires with
    | Some fire =>
        if spraying scene keys player then sprayed player dt fire
        else Some fire
    | None => None
    end.
Proof.
  intros Hwf. unfold spraying.
  destruct scene.
  - destruct (keys_has " " keys) eqn:Hk.
    + destruct (Rgtb (Player.waterLevel player) 0) eqn:Hw.
      * cbn [andb]. apply checkWaterFireCollision_get; try assumption.
        unfold Rgtb in Hw. apply Rltb_true in Hw. exact Hw.
      * unfold checkWaterFireCollision. rewrite Hk, Hw. cbn.
        destruct (FireMap.get k fires); reflexivity.
    + unfold checkWaterFireCollision. rewrite Hk. cbn.
      destruct (FireMap.get k fires); reflexivity.
  - cbn. destruct (FireMap.get k fires); reflexivity.
Qed.

Lemma wf_incl_length (m m' : Fires) :
  FireMap.wf m' ->
  (forall k, FireMap.has k m' = true -> FireMap.has k m = true) ->
  (FireMap.size m' <= FireMap.size m)%nat.
Proof.
  intros Hwf Hincl. unfold FireMap.size. rewrite <- !length_keys.
  apply NoDup_incl_length; [exact Hwf|].
  intros k Hk. apply has_In, Hincl, has_In, Hk.
Qed.

Lemma has_true_get k m :
  FireMap.has k m = true <-> exists c, FireMap.get k m = Some c.
Proof.
  destruct (FireMap.get k m) as [c|] eqn:E.
  - split; [intros _; exists c; reflexivity|intros _].
    destruct (FireMap.has k m) eqn:H; [reflexivity|].
    apply has_get in H. congruence.
  - split.
    + intros H. apply has_get in E. congruence.
    + intros [c Hc]. discriminate.
Qed.

(** X7. The suppression step only ever lowers and removes: on a map
    without duplicate keys and with a time step that is not negative, the
    map it returns has no duplicate keys and no more cells; every cell in
    it was in the argument under the same key, with the same coordinates
    and timer and an intensity that is not higher; and a cell that is out
    of range or outside the cone is returned exactly as it was. *)
Theorem checkWaterFireCollision_only_lowers (scene : bool) (keys : KeySet)
    (player : Player.t) (fires : Fires) (deltaTime : R) :
  FireMap.wf fires -> 0 <= deltaTime ->
  let fires' := checkWaterFireCollision scene keys player fires deltaTime in
  FireMap.wf fires'
  /\ (FireMap.size fires' <= FireMap.size fires)%nat
  /\ (forall key c',
        FireMap.get key fires' = Some c' ->
        exists c,
          FireMap.get key fires = Some c
          /\ FireCell.x c' = FireCell.x c /\ FireCell.z c' = FireCell.z c
          /\ FireCell.spreadTime c' = FireCell.spreadTime c
          /\ FireCell.intensity c' <= FireCell.intensity c)
  /\ (forall key c,
        FireMap.get key fires = Some c -> inWaterCone player c = false ->
        FireMap.get key fires' = Some c).
Proof.
  intros Hwf Hdt fires'.
  assert (Hget : forall k,
             FireMap.get k fires'
             = match FireMap.get k fires with
               | Some fire =>
                   if spraying scene keys player
                   then sprayed player deltaTime fire else Some fire
               | None => None
               end)
    by (intros k; apply checkWaterFireCollision_lookup, Hwf).
  assert (Hwf' : FireMap.wf fires')
    by (apply checkWaterFireCollision_wf, Hwf).
  split; [exact Hwf'|]. split; [|split].
  - apply wf_incl_length; [exact Hwf'|].
    intros k Hk. apply has_true_get in Hk. destruct Hk as [c' Hc'].
    rewrite Hget in Hc'. apply has_true_get.
    destruct (FireMap.get k fires) as [c|]; [exists c; reflexivity|].
    discriminate.
  - intros key c' Hc'. rewrite Hget in Hc'.
    destruct (FireMap.get key fires) as [c|]; [|discriminate].
    exists c. split; [reflexivity|].
    destruct (spraying scene keys player).
    + unfold sprayed in Hc'. destruct (inWaterCone player c).
      * destruct (_ <=? 0); [discriminate|]. injection Hc' as <-.
        unfold doused. cbn. repeat split; lra.
      * injection Hc' as <-. repeat split; lra.
    + injection Hc' as <-. repeat split; lra.
  - intros key c Hc Hout. rewrite Hget, Hc.
    destruct (spraying scene keys player); [|reflexivity].
    unfold sprayed. rewrite Hout. reflexivity.
Qed.

Lemma checkWaterFireCollision_only_lowers_witness :
  let fires' := checkWaterFireCollision true [" "%string] originPlayer
                  (aheadFires 0.5) 0.1 in
  FireMap.wf fires' /\ (FireMap.size fires' <= 1)%nat.
Proof.
  destruct (checkWaterFireCollision_only_lowers true [" "%string] originPlayer
              (aheadFires 0.5) 0.1) as (Hwf & Hsize & _).
  - apply wf_singleton.
  - lra.
  - split; [exact Hwf|exact Hsize].
Defined.

(** ** The tick in which the tank runs dry *)

(** X8. A tick that starts with the shoot key held and with no more water
    than the tick uses up (0 < waterLevel <= 30 * deltaTime), outside every
    refill station, ends with an empty tank and puts out nothing: the fire
    map it returns is the one [updateFires] returned.  The suppression
    step looks at the water level after the tick's own use. *)
Theorem tick_last_water_is_lost (scene : bool) (keys : KeySet)
    (gs prev : GameState.t) (deltaTime : R) (g : Rng) :
  keys_has " " keys = true ->
  0 < Player.waterLevel (GameState.player prev) <= 30 * deltaTime ->
  (forall station,
     In station (GameState.refillStations gs) ->
     ~ inStation
         (Player.position
            (updatePlayer keys gs (GameState.player prev) deltaTime))
         station) ->
  exists s' g' fires1,
    tick scene keys gs prev deltaTime g = Some (s', g')
    /\ updateFires scene gs (GameState.fires prev) deltaTime g
       = Some (fires1, g')
    /\ Player.waterLevel (GameState.player s') = 0
    /\ GameState.fires s' = fires1.
Proof.
  intros Hshoot [Hw0 Hw1] Hout.
  destruct (tick_total scene keys gs prev deltaTime g) as [[s' g'] Htick].
  destruct (tick_fields _ _ _ _ _ _ _ _ Htick)
    as (fires1 & Hup & Hpl & Hf & _).
  exists s', g', fires1. split; [exact Htick|]. split; [exact Hup|].
  assert (Hzero : Player.waterLevel (GameState.player s') = 0).
  { rewrite Hpl.
    destruct (updatePlayer_water_fields keys gs (GameState.player prev)
                deltaTime) as [Hflag Hlevel].
    destruct (Player.isRefilling _) eqn:E.
    - exfalso. destruct (proj1 Hflag eq_refl) as [st [Hin Hs]].
      exact (Hout st Hin Hs).
    - rewrite Hlevel, Hshoot. unfold Rgtb.
      apply Rltb_true in Hw0 as Hb. rewrite Hb. cbn [andb].
      rewrite Rmax_left by lra. reflexivity. }
  split; [exact Hzero|].
  rewrite Hf. unfold checkWaterFireCollision.
  destruct (negb scene); [reflexivity|].
  rewrite Hzero. unfold Rgtb.
  destruct (0 <? 0) eqn:E; [apply Rltb_true in E; lra|].
  rewrite andb_false_r. reflexivity.
Qed.

Lemma tick_last_water_is_lost_witness :
  exists s' g' fires1,
    tick true [" "%string] nearlyDryState nearlyDryState 0.1 (constRng 0.5)
    = Some (s', g')
    /\ updateFires true nearlyDryState (aheadFires 0.5) 0.1 (constRng 0.5)
       = Some (fires1, g')
    /\ Player.waterLevel (GameState.player s') = 0
    /\ GameState.fires s' = fires1.
Proof.
  apply (tick_last_water_is_lost true [" "%string] nearlyDryState
           nearlyDryState 0.1 (constRng 0.5)).
  - reflexivity.
  - simpl. lra.
  - intros station Hin.
    cbn [GameState.player nearlyDryState].
    rewrite updatePlayer_standing by (try (right; reflexivity); reflexivity).
    cbn [Player.position]. apply origin_outside_stations, Hin.
Defined.

(** ** Where the trees stand *)

Lemma ForallOrdPairs_snoc {A} (R : A -> A -> Prop) (l : list A) (b : A) :
  ForallOrdPairs R l -> Forall (fun a => R a b) l ->
  ForallOrdPairs R (l ++ [b]).
Proof.
  induction 1 as [|a l Ha Hl IH]; intros Hb; simpl.
  - constructor; constructor.
  - inversion Hb; subst. constructor.
    + apply Forall_app. split; [exact Ha|]. constructor; [assumption|constructor].
    + apply IH. assumption.
Qed.

Lemma existsb_false_In {A} (f : A -> bool) (l : list A) (x : A) :
  existsb f l = false -> In x l -> f x = false.
Proof.
  intros He Hin. destruct (f x) eqn:E; [|reflexivity].
  assert (existsb f l = true) by (apply existsb_exists; exists x; auto).
  congruence.
Qed.

Lemma gen_treeAttempts_ok n stations :
  forall trees,
    treesOk stations trees ->
    gen_inv unitDraw (treeAttempts n stations trees) (treesOk stations).
Proof.
  induction n as [|n IH]; intros trees Hok; cbn [treeAttempts].
  - apply gen_ret, Hok.
  - eapply gen_bind; [apply gen_random|]. intros r1 [H1a H1b].
    eapply gen_bind; [apply gen_random|]. intros r2 [H2a H2b].
    eapply gen_bind; [apply gen_random|]. intros r3 [H3a H3b]. cbv zeta.
    destruct (existsb _ stations) eqn:Est; cbn [negb andb];
      [apply IH, Hok|].
    destruct (_ <? 8) eqn:Ec; cbn [negb andb]; [apply IH, Hok|].
    destruct (existsb _ trees) eqn:Etr; cbn [negb]; [apply IH, Hok|].
    apply gen_ret. destruct Hok as [Hc Hp]. split.
    + apply Forall_app. split; [exact Hc|]. constructor; [|constructor].
      unfold treeClear. cbn [Tree.x Tree.z Tree.radius].
      split; [|split; [|split; [|split]]].
      * intros station Hin.
        pose proof (existsb_false_In _ _ _ Est Hin) as Hn.
        cbv beta in Hn. apply Rltb_false in Hn. exact Hn.
      * apply Rltb_false in Ec. exact Ec.
      * lra.
      * unfold WORLD_SIZE. apply Rabs_le_iff. lra.
      * unfold WORLD_SIZE. apply Rabs_le_iff. lra.
    + apply ForallOrdPairs_snoc; [exact Hp|].
      apply Forall_forall. intros t Hin.
      unfold treesApart, treeDistance. cbn [Tree.x Tree.z Tree.radius].
      pose proof (existsb_false_In _ _ _ Etr Hin) as Hn.
      cbv beta in Hn. apply Rltb_false in Hn.
      replace ((r3 * 0.8 + 1) * 0.8 / 0.8) with (r3 * 0.8 + 1) by (field; lra).
      exact Hn.
Qed.

Lemma gen_treeRounds_ok n stations :
  forall trees,
    treesOk stations trees ->
    gen_inv unitDraw (treeRounds n stations trees) (treesOk stations).
Proof.
  induction n as [|n IH]; intros trees Hok; cbn [treeRounds].
  - apply gen_ret, Hok.
  - destruct (Nat.ltb _ _); [|apply gen_ret, Hok].
    eapply gen_bind; [apply gen_treeAttempts_ok, Hok|].
    intros trees' Hok'. apply IH, Hok'.
Qed.

(** X9. On a tape of [Math.random], [generateTrees] returns at most 40
    trees; each is at least 5 from every refill station and at least 8
    from the centre of the world, has a radius in [0.8, 1.44) and lies
    within (WORLD_SIZE - 5) / 2 of the centre on both axes; and each is at
    least the earlier tree's radius plus its own drawn radius plus 1 away
    from every tree placed before it. *)
Theorem generateTrees_clear (stations : list RefillStation.t) (g : Rng) :
  valid_rng g ->
  let trees := fst (generateTrees stations g) in
  (List.length trees <= 40)%nat
  /\ Forall (treeClear stations) trees
  /\ ForallOrdPairs treesApart trees.
Proof.
  intros Hg trees. split.
  - apply treeRounds_length. simpl. lia.
  - assert (H0 : treesOk stations []) by (split; constructor).
    destruct (gen_treeRounds_ok 40 stations [] H0 g
                (proj1 (valid_rng_tape_all g) Hg)) as [[H1 H2] _].
    split; assumption.
Qed.

(** *** Two trees *)

Lemma valid_twoTreeTape : valid_rng twoTreeTape.
Proof.
  intros n. unfold twoTreeTape. cbn [tape].
  do 6 (destruct n as [|n]; [lra|]). lra.
Qed.

Lemma existsb_none {A} (f : A -> bool) (l : list A) :
  (forall x, In x l -> f x = false) -> existsb f l = false.
Proof.
  intros H. destruct (existsb f l) eqn:E; [|reflexivity].
  apply existsb_exists in E. destruct E as (x & Hin & Hx).
  rewrite (H x Hin) in Hx. discriminate.
Qed.

(** An attempt that passes the three checks places its tree. *)
Lemma treeAttempts_first n stations trees g :
  let x := (tape g (cursor g) - 0.5) * (WORLD_SIZE - 5) in
  let z := (tape g (S (cursor g)) - 0.5) * (WORLD_SIZE - 5) in
  let treeRadius := tape g (S (S (cursor g))) * 0.8 + 1 in
  (forall station,
     In station stations ->
     5 <= sqrt ((x - Vector3.x (RefillStation.position station)) ^ 2
                + (z - Vector3.z (RefillStation.position station)) ^ 2)) ->
  8 <= sqrt (x ^ 2 + z ^ 2) ->
  (forall tree,
     In tree trees ->
     Tree.radius tree + treeRadius + 1
     <= sqrt ((x - Tree.x tree) ^ 2 + (z - Tree.z tree) ^ 2)) ->
  treeAttempts (S n) stations trees g
  = (trees ++ [Tree.mk x z (treeRadius * 0.8)],
     mkRng (tape g) (S (S (S (cursor g))))).
Proof.
  intros x z treeRadius Hst Hc Htr.
  cbn [treeAttempts]. unfold bind, Math_random. cbn [tape cursor].
  fold x z treeRadius.
  assert (E1 : existsb
                 (fun station =>
                    sqrt ((x - Vector3.x (RefillStation.position station)) ^ 2
                          + (z - Vector3.z (RefillStation.position station))
                            ^ 2) <? 5) stations = false).
  { apply existsb_none. intros station Hin.
    apply Rltb_false. apply Hst, Hin. }
  assert (E2 : (sqrt (x ^ 2 + z ^ 2) <? 8) = false)
    by (apply Rltb_false; exact Hc).
  assert (E3 : existsb
                 (fun tree =>
                    sqrt ((x - Tree.x tree) ^ 2 + (z - Tree.z tree) ^ 2)
                    <? Tree.radius tree + treeRadius + 1) trees = false).
  { apply existsb_none. intros tree Hin.
    apply Rltb_false. apply Htr, Hin. }
  rewrite E1, E2, E3. reflexivity.
Qed.

Lemma treeAttempts_prefix n stations :
  forall trees g,
  exists rest, fst (treeAttempts n stations trees g) = trees ++ rest.
Proof.
  induction n as [|n IH]; intros trees g.
  - exists []. rewrite app_nil_r. reflexivity.
  - cbn [treeAttempts]. unfold bind, Math_random.
    destruct (_ && _ && _)%bool.
    + eexists. reflexivity.
    + apply IH.
Qed.

Lemma treeRounds_prefix n stations :
  forall trees g,
  exists rest, fst (treeRounds n stations trees g) = trees ++ rest.
Proof.
  induction n as [|n IH]; intros trees g.
  - exists []. rewrite app_nil_r. reflexivity.
  - cbn [treeRounds]. destruct (Nat.ltb _ _).
    + unfold bind.
      destruct (treeAttempts_prefix 200 stations trees g) as (r1 & E1).
      destruct (treeAttempts 200 stations trees g) as [t1 g1].
      cbn [fst] in E1. subst t1.
      destruct (IH (trees ++ r1) g1) as (r2 & E2).
      exists (r1 ++ r2). rewrite E2, app_assoc. reflexivity.
    + exists []. rewrite app_nil_r. reflexivity.
Qed.

Lemma treeRounds_step n stations trees g :
  (List.length trees < 40)%nat ->
  treeRounds (S n) stations trees g
  = (let (trees', g') := treeAttempts 200 stations trees g in
     treeRounds n stations trees' g').
Proof.
  intros Hlen. cbn [treeRounds].
  apply Nat.ltb_lt in Hlen. rewrite Hlen. reflexivity.
Qed.

Lemma generateTrees_two :
  exists rest,
    fst (generateTrees (GameState.refillStations initialGameState)
                       twoTreeTape)
    = eastTree :: westTree :: rest.
Proof.
  unfold generateTrees.
  rewrite treeRounds_step by (cbn [List.length]; lia).
  rewrite treeAttempts_first.
  - rewrite treeRounds_step by (cbn [List.length app]; lia).
    rewrite treeAttempts_first.
    + cbn [twoTreeTape tape cursor app].
      match goal with
      | |- exists rest, fst (treeRounds _ _ ?t _) = _ =>
          assert (Ht : t = [eastTree; westTree])
      end.
      { unfold eastTree, westTree, WORLD_SIZE.
        repeat f_equal; lra. }
      rewrite Ht.
      match goal with
      | |- exists rest, fst (treeRounds ?n ?s ?t ?g) = _ =>
          destruct (treeRounds_prefix n s t g) as (rest & E)
      end.
      exists rest. rewrite E. reflexivity.
    + cbn [twoTreeTape tape cursor initialGameState
           GameState.refillStations]. unfold WORLD_SIZE.
      intros station [<-|[<-|[<-|[<-|[]]]]];
        cbn [RefillStation.position Vector3.x Vector3.z];
        (apply sqrt_ge_of_sq; [lra|cbn [pow]; lra]).
    + cbn [twoTreeTape tape cursor]. unfold WORLD_SIZE.
      apply sqrt_ge_of_sq; [lra|cbn [pow]; lra].
    + cbn [twoTreeTape tape cursor app]. unfold WORLD_SIZE.
      intros tree [<-|[]]. cbn [Tree.x Tree.z Tree.radius].
      apply sqrt_ge_of_sq; [lra|cbn [pow]; lra].
  - cbn [twoTreeTape tape cursor initialGameState GameState.refillStations].
    unfold WORLD_SIZE.
    intros station [<-|[<-|[<-|[<-|[]]]]];
      cbn [RefillStation.position Vector3.x Vector3.z];
      (apply sqrt_ge_of_sq; [lra|cbn [pow]; lra]).
  - cbn [twoTreeTape tape cursor]. unfold WORLD_SIZE.
    apply sqrt_ge_of_sq; [lra|cbn [pow]; lra].
  - intros tree [].
Qed.

Lemma generateTrees_clear_witness :
  let trees :=
    fst (generateTrees (GameState.refillStations initialGameState)
                       twoTreeTape) in
  (exists rest, trees = eastTree :: westTree :: rest)
  /\ (List.length trees <= 40)%nat
  /\ Forall (treeClear (GameState.refillStations initialGameState)) trees
  /\ ForallOrdPairs treesApart trees.
Proof.
  split; [exact generateTrees_two|].
  apply (generateTrees_clear (GameState.refillStations initialGameState)
           twoTreeTape).
  exact valid_twoTreeTape.
Defined.

(** ** Where the first fires are *)

Lemma gen_randomSpot_ok : gen_inv unitDraw randomSpot spotOk.
Proof.
  unfold randomSpot.
  eapply gen_bind; [apply gen_random|]. intros r1 [H1a H1b].
  eapply gen_bind; [apply gen_random|]. intros r2 [H2a H2b].
  apply gen_ret. unfold spotOk, WORLD_SIZE. repeat split; lra.
Qed.

Lemma gen_fireAttempts_ok n fires :
  forall spot,
    spotOk spot ->
    gen_inv unitDraw (fireAttempts n fires spot) (fun r => spotOk (snd r)).
Proof.
  induction n as [|n IH]; intros spot Hs; cbn [fireAttempts].
  - apply gen_ret. exact Hs.
  - eapply gen_bind; [apply gen_randomSpot_ok|]. intros [[x z] key] Hs'.
    destruct (if negb (FireMap.has key fires) then _ else false).
    + apply gen_ret. exact Hs'.
    + apply IH, Hs'.
Qed.

Lemma gen_seedSpot_ok fires :
  gen_inv unitDraw (seedSpot fires) (fun r => spotOk (snd r)).
Proof.
  unfold seedSpot.
  eapply gen_bind; [apply gen_randomSpot_ok|]. intros spot0 H0.
  eapply gen_bind; [apply gen_fireAttempts_ok, H0|].
  intros [placed spot1] H1. cbn [snd] in H1.
  eapply gen_bind with (Q1 := spotOk).
  - destruct (negb placed); [apply gen_randomSpot_ok|apply gen_ret, H1].
  - intros spot2 H2. apply gen_ret. exact H2.
Qed.

Lemma Forall_set (P : Key * FireCell.t -> Prop) k v m :
  P (k, v) -> Forall P m -> Forall P (FireMap.set k v m).
Proof.
  intros Hv. induction m as [|[k0 v0] rest IH]; simpl; intros Hm.
  - constructor; [exact Hv|constructor].
  - inversion Hm; subst. destruct (key_eqb k k0).
    + constructor; assumption.
    + constructor; [assumption|apply IH; assumption].
Qed.

Lemma Forall_delete (P : Key * FireCell.t -> Prop) k m :
  Forall P m -> Forall P (FireMap.delete k m).
Proof.
  induction m as [|[k0 v0] rest IH]; simpl; intros Hm; [constructor|].
  inversion Hm; subst. destruct (key_eqb k k0).
  - assumption.
  - constructor; [assumption|apply IH; assumption].
Qed.

Lemma floor_seed (x : R) :
  - (WORLD_SIZE - 10) / 2 <= x < (WORLD_SIZE - 10) / 2 ->
  -16 <= IZR (floor (x / GRID_SIZE)) * GRID_SIZE <= 14.
Proof.
  unfold WORLD_SIZE, GRID_SIZE. intros Hx.
  pose proof (floor_bounds (x / 2)) as [Hlo Hhi].
  assert (H1 : IZR (-9) < IZR (floor (x / 2))) by lra.
  assert (H2 : IZR (floor (x / 2)) < IZR 8) by lra.
  apply lt_IZR in H1, H2.
  assert (H3 : (-8 <= floor (x / 2))%Z) by lia.
  assert (H4 : (floor (x / 2) <= 7)%Z) by lia.
  apply IZR_le in H3, H4. lra.
Qed.

Lemma gen_seedFire_ok fires :
  FireMap.wf fires /\ Forall seedOk fires ->
  gen_inv unitDraw (seedFire fires)
          (fun m => FireMap.wf m /\ Forall seedOk m).
Proof.
  intros [Hwf Hok] g Hg. rewrite seedFire_seedSpot.
  destruct (gen_seedSpot_ok fires g Hg) as [Hspot Hg1].
  destruct (seedSpot fires g) as [[placed [[x z] key]] g1].
  cbn [fst snd] in Hspot, Hg1.
  destruct (gen_random unitDraw g1 Hg1) as [Hr Hg2].
  destruct (Math_random g1) as [r g2]. cbn [fst snd] in *.
  split; [|exact Hg2]. split; [apply wf_set, Hwf|].
  apply Forall_set; [|exact Hok].
  destruct Hspot as (Hkey & Hx & Hz). destruct Hr as [Hr0 Hr1].
  unfold seedOk. cbn [FireCell.x FireCell.z FireCell.intensity
    FireCell.spreadTime].
  split; [rewrite gridKey_aligned; exact Hkey|].
  split; [eexists _, _; split; reflexivity|].
  split; [apply floor_seed, Hx|]. split; [apply floor_seed, Hz|].
  split; [lra|reflexivity].
Qed.

Lemma gen_seedFires_ok n :
  forall fires,
    FireMap.wf fires /\ Forall seedOk fires ->
    gen_inv unitDraw (seedFires n fires)
            (fun m => FireMap.wf m /\ Forall seedOk m).
Proof.
  induction n as [|n IH]; intros fires Hok; cbn [seedFires].
  - apply gen_ret, Hok.
  - eapply gen_bind; [apply gen_seedFire_ok, Hok|]. intros m Hm.
    apply IH, Hm.
Qed.

Lemma initializeFires_ok scene g :
  valid_rng g ->
  FireMap.wf (fst (initializeFires scene g))
  /\ Forall seedOk (fst (initializeFires scene g)).
Proof.
  intros Hg. unfold initializeFires. destruct (negb scene).
  - split; constructor.
  - assert (H0 : FireMap.wf FireMap.empty /\ Forall seedOk FireMap.empty)
      by (split; constructor).
    apply (gen_seedFires_ok INITIAL_FIRES FireMap.empty H0 g
             (proj1 (valid_rng_tape_all g) Hg)).
Qed.

(** X10. On a tape of [Math.random], every cell [initializeFires] returns
    sits under the grid key of its own coordinates, which are multiples of
    GRID_SIZE between -16 and 14, has an intensity in [0.5, 1) and a timer
    of 0; and no key occurs twice. *)
Theorem initializeFires_seeds (scene : bool) (g : Rng) :
  valid_rng g ->
  let fires := fst (initializeFires scene g) in
  FireMap.wf fires
  /\ forall key cell,
       In (key, cell) fires ->
       key = gridKey (FireCell.x cell) (FireCell.z cell)
       /\ (exists a b : Z,
             FireCell.x cell = IZR a * GRID_SIZE
             /\ FireCell.z cell = IZR b * GRID_SIZE)
       /\ -16 <= FireCell.x cell <= 14 /\ -16 <= FireCell.z cell <= 14
       /\ 0.5 <= FireCell.intensity cell < 1
       /\ FireCell.spreadTime cell = 0.
Proof.
  intros Hg fires. destruct (initializeFires_ok scene g Hg) as [Hwf Hok].
  split; [exact Hwf|]. intros key cell Hin.
  rewrite Forall_forall in Hok. apply (Hok (key, cell) Hin).
Qed.

Lemma initializeFires_seeds_witness :
  FireMap.wf (fst (initializeFires true (constRng 0.5))).
Proof.
  destruct (initializeFires_seeds true (constRng 0.5)) as [Hwf _].
  - apply valid_constRng. lra.
  - exact Hwf.
Defined.

(** *** A spot the loop accepts is clear of the fires placed before *)

Lemma minDistance_fold x z cells :
  forall acc,
    farEnough
      (fold_left
         (fun minDistance existingFire =>
            let distance :=
              sqrt ((x - FireCell.x existingFire) ^ 2
                    + (z - FireCell.z existingFire) ^ 2) in
            match minDistance with
            | None => Some distance
            | Some m => Some (Rmin m distance)
            end) cells acc) = true ->
    farEnough acc = true /\ Forall (farFrom x z) cells.
Proof.
  induction cells as [|c rest IH]; intros acc H; cbn [fold_left] in H.
  - split; [exact H|constructor].
  - apply IH in H. destruct H as [Hacc Hrest]. cbv zeta in Hacc.
    destruct acc as [m|]; cbn [farEnough] in *.
    + unfold Rgtb in *. apply Rltb_true in Hacc.
      unfold Rmin in Hacc. destruct (Rle_dec _ _).
      * split; [apply Rltb_true; lra|].
        constructor; [unfold farFrom; lra|exact Hrest].
      * split; [apply Rltb_true; lra|].
        constructor; [unfold farFrom; lra|exact Hrest].
    + split; [reflexivity|]. unfold Rgtb in Hacc. apply Rltb_true in Hacc.
      constructor; [exact Hacc|exact Hrest].
Qed.

Lemma fireAttempts_placed n fires :
  forall spot g,
    fst (fst (fireAttempts n fires spot g)) = true ->
    let '(x, z, key) := snd (fst (fireAttempts n fires spot g)) in
    FireMap.has key fires = false
    /\ Forall (farFrom x z) (FireMap.values fires).
Proof.
  induction n as [|n IH]; intros spot g; cbn [fireAttempts].
  - cbn. discriminate.
  - unfold bind. destruct (randomSpot g) as [[[x z] key] g1].
    destruct (FireMap.has key fires) eqn:Hhas; cbn [negb].
    + apply IH.
    + destruct (Nat.eqb (FireMap.size fires) 0) eqn:Hsize; cbn [orb].
      * intros _. cbn. split; [exact Hhas|].
        apply Nat.eqb_eq in Hsize. destruct fires; [constructor|discriminate].
      * destruct (farEnough (minDistanceTo x z fires)) eqn:Hfar.
        -- intros _. cbn. split; [exact Hhas|].
           apply (minDistance_fold x z (FireMap.values fires) None Hfar).
        -- apply IH.
Qed.

(** X11. When the placement loop of a round of [initializeFires] accepts
    a spot, the key of the spot is not in the map and the spot is more
    than 6 away from every cell placed so far, so the round adds a cell.
    (A round whose loop fails gives no such guarantee.) *)
Theorem seedSpot_placed_apart (fires : Fires) (g : Rng) :
  fst (fst (seedSpot fires g)) = true ->
  let '(x, z, key) := snd (fst (seedSpot fires g)) in
  FireMap.has key fires = false
  /\ (forall k cell,
        In (k, cell) fires ->
        6 < sqrt ((x - FireCell.x cell) ^ 2 + (z - FireCell.z cell) ^ 2))
  /\ FireMap.size (fst (seedFire fires g)) = S (FireMap.size fires).
Proof.
  intros Hplaced.
  assert (Hsize : FireMap.has (snd (snd (fst (seedSpot fires g)))) fires
                  = false ->
                  FireMap.size (fst (seedFire fires g))
                  = S (FireMap.size fires)).
  { rewrite seedFire_seedSpot.
    destruct (seedSpot fires g) as [[placed [[x z] key]] g1].
    destruct (Math_random g1) as [r g2]. cbn [fst snd]. intros Hh.
    unfold FireMap.size. rewrite length_set, Hh. reflexivity. }
  revert Hplaced Hsize. unfold seedSpot, bind, ret.
  destruct (randomSpot g) as [spot0 g0].
  pose proof (fireAttempts_placed 100 fires spot0 g0) as Hloop.
  destruct (fireAttempts 100 fires spot0 g0) as [[placed spot1] g1].
  cbn [fst snd] in Hloop. destruct placed; cbn [negb fst snd].
  - destruct spot1 as [[x z] key]. intros _ Hsize.
    destruct (Hloop eq_refl) as [Hhas Hfar].
    split; [exact Hhas|]. split; [|apply Hsize, Hhas].
    intros k cell Hin. rewrite Forall_forall in Hfar. apply Hfar.
    unfold FireMap.values. change cell with (snd (k, cell)).
    apply in_map, Hin.
  - destruct (randomSpot g1) as [spot2 g2]. cbn [fst]. discriminate.
Qed.

(** An attempt on a free key far enough from the cells placed so far is
    accepted. *)
Lemma fireAttempts_first n fires spot g :
  let x := (tape g (cursor g) - 0.5) * (WORLD_SIZE - 10) in
  let z := (tape g (S (cursor g)) - 0.5) * (WORLD_SIZE - 10) in
  FireMap.has (gridKey x z) fires = false ->
  farEnough (minDistanceTo x z fires) = true ->
  fst (fireAttempts (S n) fires spot g) = (true, (x, z, gridKey x z)).
Proof.
  intros x z Hfree Hfar.
  cbn [fireAttempts]. unfold bind, randomSpot, bind, ret, Math_random.
  cbn [tape cursor]. fold x z. rewrite Hfree, Hfar.
  cbn [negb]. rewrite orb_true_r. reflexivity.
Qed.

Lemma seedSpot_next_to_ripe :
  fst (seedSpot ripeFires (constRng 0.9)) = (true, (12, 12, (6, 6)%Z)).
Proof.
  unfold seedSpot, bind at 1 2. unfold randomSpot at 1.
  unfold bind, ret, Math_random. cbn [tape cursor constRng].
  match goal with
  | |- context [fireAttempts 100 ?f ?s ?g] =>
      pose proof (fireAttempts_first 99 f s g) as H;
      destruct (fireAttempts 100 f s g) as [[placed spot] g1]
  end.
  cbn [tape cursor fst] in H. cbv zeta in H.
  assert (E : (0.9 - 0.5) * (WORLD_SIZE - 10) = 12)
    by (unfold WORLD_SIZE; lra).
  rewrite E in H.
  assert (Hk : gridKey 12 12 = (6, 6)%Z)
    by (apply gridKey_eq; simpl; lra).
  rewrite Hk in H.
  assert (Hfree : FireMap.has (6, 6)%Z ripeFires = false).
  { unfold ripeFires. rewrite (gridKey_eq 0 0 0 0) by (simpl; lra).
    reflexivity. }
  assert (Hfar : farEnough (minDistanceTo 12 12 ripeFires) = true).
  { unfold minDistanceTo, ripeFires, FireMap.values.
    cbn [map snd fold_left farEnough ripeCell FireCell.x FireCell.z].
    unfold Rgtb. apply Rltb_true.
    apply Rlt_le_trans with 12; [lra|].
    apply sqrt_ge_of_sq; [lra|cbn [pow]; lra]. }
  specialize (H Hfree Hfar). injection H as -> ->. reflexivity.
Qed.

Lemma seedSpot_placed_apart_witness :
  fst (seedSpot ripeFires (constRng 0.9)) = (true, (12, 12, (6, 6)%Z))
  /\ FireMap.has (6, 6)%Z ripeFires = false
  /\ (forall k cell,
        In (k, cell) ripeFires ->
        6 < sqrt ((12 - FireCell.x cell) ^ 2 + (12 - FireCell.z cell) ^ 2))
  /\ FireMap.size (fst (seedFire ripeFires (constRng 0.9))) = 2%nat.
Proof.
  split; [exact seedSpot_next_to_ripe|].
  pose proof (seedSpot_placed_apart ripeFires (constRng 0.9)) as H.
  rewrite seedSpot_next_to_ripe in H. exact (H eq_refl).
Defined.

(** ** The fire map of a session *)

Lemma seedOk_placedOk entry : seedOk entry -> placedOk entry.
Proof.
  destruct entry as [key cell]. intros (Hk & _ & Hx & Hz & _).
  split; [exact Hk|]. cbn [fst snd]. rewrite Hk.
  apply gridKey_in_world; unfold WORLD_SIZE; apply Rabs_lt_iff; lra.
Qed.

Lemma updateFires_tidy scene gs fires dt g r :
  tidy fires -> updateFires scene gs fires dt g = Some r -> tidy (fst r).
Proof.
  apply (updateFires_preserves gs dt tidy).
  - intros key fire m Hin [Hwf Hok].
    assert (Hp : placedOk (key, fire))
      by (rewrite Forall_forall in Hok; apply Hok, Hin).
    split; (split; [apply wf_set, Hwf|apply Forall_set; [exact Hp|exact Hok]]).
  - intros m x z Hfree Hx Hz [Hwf Hok]. split.
    + rewrite <- set_fresh by exact Hfree. apply wf_set, Hwf.
    + apply Forall_app. split; [exact Hok|]. constructor; [|constructor].
      split; cbn [fst snd].
      * symmetry. apply spreadCell_key.
      * apply gridKey_in_world; assumption.
Qed.

Lemma sprayLoop_placedOk player dt entries :
  forall m, Forall placedOk entries -> Forall placedOk m ->
            Forall placedOk (sprayLoop player dt entries m).
Proof.
  induction entries as [|[k f] rest IH]; intros m He Hm; [exact Hm|].
  cbn [sprayLoop]; cbv zeta. inversion He as [|? ? Hk Hrest]; subst.
  apply IH; [exact Hrest|].
  destruct (inWaterCone player f); [|exact Hm].
  destruct (_ <=? 0).
  - apply Forall_delete, Hm.
  - apply Forall_set; [exact Hk|exact Hm].
Qed.

Lemma checkWaterFireCollision_tidy scene keys player fires dt :
  tidy fires -> tidy (checkWaterFireCollision scene keys player fires dt).
Proof.
  intros [Hwf Hok]. split; [apply checkWaterFireCollision_wf, Hwf|].
  unfold checkWaterFireCollision.
  destruct (negb scene); [exact Hok|].
  destruct (_ && _)%bool; [|exact Hok].
  apply sprayLoop_placedOk; assumption.
Qed.

Lemma tick_tidy scene keys gs prev dt g s' g' :
  tidy (GameState.fires prev) ->
  tick scene keys gs prev dt g = Some (s', g') -> tidy (GameState.fires s').
Proof.
  intros Ht Htick.
  destruct (tick_fields _ _ _ _ _ _ _ _ Htick) as (fires1 & Hup & _ & Hf & _).
  rewrite Hf. apply checkWaterFireCollision_tidy.
  apply (updateFires_tidy _ _ _ _ _ _ Ht Hup).
Qed.

Lemma initializeFires_tidy scene g :
  valid_rng g -> tidy (fst (initializeFires scene g)).
Proof.
  intros Hg. destruct (initializeFires_ok scene g Hg) as [Hwf Hok].
  split; [exact Hwf|].
  eapply Forall_impl; [|exact Hok]. intros e. apply seedOk_placedOk.
Qed.

Lemma startGame_fires scene prev g :
  GameState.fires (fst (startGame scene prev g))
  = fst (initializeFires scene g).
Proof.
  unfold startGame, bind, ret.
  destruct (initializeFires scene g) as [fires g1]. reflexivity.
Qed.

Lemma generateTrees_valid stations g :
  valid_rng g -> valid_rng (snd (generateTrees stations g)).
Proof.
  intros Hg. apply valid_rng_tape_all.
  apply (gen_generateTrees unitDraw stations g).
  apply valid_rng_tape_all, Hg.
Qed.

Lemma reachable_tidy w : reachable w -> tidy (GameState.fires (state w)).
Proof.
  induction 1 as [g Hg|w Hw IH|scene w Hw IH|scene w Hw IH
                  |w Hw IH|scene keys t w w' Hw IH Ht Hrun];
    cbn [state].
  - split; constructor.
  - unfold initScene, bind, ret.
    destruct (generateTrees _ _) as [trees g1]. exact IH.
  - rewrite startGame_fires. apply initializeFires_tidy.
    apply (reachable_steady w Hw).
  - unfold resetGame, bind.
    assert (Hv : valid_rng (snd (regenerateTrees scene (state w) (rng w)))).
    { unfold regenerateTrees. destruct (negb scene).
      - apply (reachable_steady w Hw).
      - unfold bind, ret.
        pose proof (generateTrees_valid
                      (GameState.refillStations (state w)) (rng w)
                      (proj2 (reachable_steady w Hw))) as Hg.
        destruct (generateTrees _ _) as [trees g1]. exact Hg. }
    destruct (regenerateTrees scene (state w) (rng w)) as [s1 g1].
    rewrite startGame_fires. apply initializeFires_tidy, Hv.
  - exact IH.
  - unfold gameLoop in Hrun.
    destruct (GameState.gameStatus (state w));
      try (injection Hrun as <-; exact IH).
    destruct (tick _ _ _ _ _ _) as [[s' g']|] eqn:Htick; [|discriminate].
    injection Hrun as <-. cbn [state].
    apply (tick_tidy _ _ _ _ _ _ _ _ IH Htick).
Qed.

Lemma placedOk_bounds key cell :
  placedOk (key, cell) ->
  - (WORLD_SIZE / 2) <= FireCell.x cell < WORLD_SIZE / 2
  /\ - (WORLD_SIZE / 2) <= FireCell.z cell < WORLD_SIZE / 2.
Proof.
  intros [Hk Hin]. cbn [fst snd] in *. rewrite Hk in Hin.
  unfold gridKey, worldKeys in Hin. apply in_prod_iff in Hin.
  destruct Hin as [Ha Hb].
  apply in_map_iff in Ha, Hb.
  destruct Ha as (na & Ha & Hna), Hb as (nb & Hb & Hnb).
  apply in_seq in Hna, Hnb.
  pose proof (floor_bounds (FireCell.x cell / GRID_SIZE)) as [Hx1 Hx2].
  pose proof (floor_bounds (FireCell.z cell / GRID_SIZE)) as [Hz1 Hz2].
  rewrite <- Ha in Hx1, Hx2. rewrite <- Hb in Hz1, Hz2.
  assert (Ea : -10 <= IZR (Z.of_nat na - 10) <= 9)
    by (split; apply IZR_le; lia).
  assert (Eb : -10 <= IZR (Z.of_nat nb - 10) <= 9)
    by (split; apply IZR_le; lia).
  unfold WORLD_SIZE, GRID_SIZE in *. lra.
Qed.

(** X12. In every state a session can be in, the fire map has no key
    twice, every cell sits under the grid key of its own coordinates, the
    coordinates lie in [-WORLD_SIZE/2, WORLD_SIZE/2), no two cells share
    their grid square, and the map holds at most 400 cells. *)
Theorem reachable_fire_map (w : World) :
  reachable w ->
  let fires := GameState.fires (state w) in
  FireMap.wf fires
  /\ (FireMap.size fires <= 400)%nat
  /\ (forall key cell,
        In (key, cell) fires ->
        key = gridKey (FireCell.x cell) (FireCell.z cell)
        /\ - (WORLD_SIZE / 2) <= FireCell.x cell < WORLD_SIZE / 2
        /\ - (WORLD_SIZE / 2) <= FireCell.z cell < WORLD_SIZE / 2)
  /\ (forall i j ki ci kj cj,
        nth_error fires i = Some (ki, ci) ->
        nth_error fires j = Some (kj, cj) ->
        i <> j ->
        gridKey (FireCell.x ci) (FireCell.z ci)
        <> gridKey (FireCell.x cj) (FireCell.z cj)).
Proof.
  intros Hw fires. destruct (reachable_tidy w Hw) as [Hwf Hok].
  fold fires in Hwf, Hok. rewrite Forall_forall in Hok.
  split; [exact Hwf|]. split; [|split].
  - unfold FireMap.size. rewrite <- length_keys, <- worldKeys_length.
    apply NoDup_incl_length; [exact Hwf|].
    intros k Hk. unfold FireMap.keys in Hk. apply in_map_iff in Hk.
    destruct Hk as ([k' c] & <- & Hin). apply (Hok _ Hin).
  - intros key cell Hin. split; [apply (Hok _ Hin)|].
    apply (placedOk_bounds key cell), Hok, Hin.
  - intros i j ki ci kj cj Hi Hj Hne Heq.
    destruct (Hok _ (nth_error_In _ _ Hi)) as [Eki _].
    destruct (Hok _ (nth_error_In _ _ Hj)) as [Ekj _].
    cbn [fst snd] in Eki, Ekj. rewrite <- Eki, <- Ekj in Heq.
    apply Hne. unfold FireMap.wf in Hwf.
    apply (proj1 (NoDup_nth_error (FireMap.keys fires)) Hwf).
    + rewrite length_keys. apply nth_error_Some. congruence.
    + unfold FireMap.keys. rewrite !nth_error_map, Hi, Hj. cbn.
      rewrite Heq. reflexivity.
Qed.

Lemma reachable_fire_map_witness :
  (FireMap.size (GameState.fires (state startedWorld)) <= 400)%nat.
Proof.
  destruct (reachable_fire_map startedWorld reachable_startedWorld)
    as (_ & H & _).
  exact H.
Defined.

(** ** Elapsed time and difficulty *)

Lemma startGame_clock scene prev g :
  GameState.timeElapsed (fst (startGame scene prev g)) = 0
  /\ GameState.gameSpeed (fst (startGame scene prev g)) = 1.
Proof.
  unfold startGame, bind, ret.
  destruct (initializeFires scene g) as [fires g1]. split; reflexivity.
Qed.

Lemma gameLoop_clock scene keys t w w' :
  gameLoop scene keys t w = Some w' ->
  (GameState.gameStatus (state w) = playing
   /\ GameState.timeElapsed (state w')
      = GameState.timeElapsed (state w) + frameDelta t (lastFrameTime w)
   /\ GameState.gameSpeed (state w')
      = Rmin 1.8 (1 + GameState.timeElapsed (state w) / 90))
  \/ (GameState.gameStatus (state w) <> playing /\ state w' = state w
      /\ rng w' = rng w).
Proof.
  unfold gameLoop. intros Hrun.
  destruct (GameState.gameStatus (state w)) eqn:Hs;
    try (right; injection Hrun as <-; split; [discriminate|split; reflexivity]).
  left. destruct (tick _ _ _ _ _ _) as [[s' g']|] eqn:Htick; [|discriminate].
  injection Hrun as <-. cbn [state].
  destruct (tick_fields _ _ _ _ _ _ _ _ Htick)
    as (fires1 & _ & _ & _ & _ & Ht & Hg).
  split; [reflexivity|]. split; assumption.
Qed.

Lemma gameLoop_paced scene keys t w w' :
  lastFrameTime w <= t -> paced (state w) ->
  gameLoop scene keys t w = Some w' ->
  paced (state w')
  /\ GameState.timeElapsed (state w) <= GameState.timeElapsed (state w')
  /\ GameState.gameSpeed (state w) <= GameState.gameSpeed (state w').
Proof.
  intros Ht (H0 & H1 & H2) Hrun.
  pose proof (frameDelta_nonneg t (lastFrameTime w) Ht) as Hd.
  destruct (gameLoop_clock _ _ _ _ _ Hrun) as [(_ & Et & Eg)|(_ & -> & _)].
  - unfold paced. rewrite Et, Eg. unfold Rmin.
    destruct (Rle_dec _ _); repeat split; lra.
  - repeat split; lra.
Qed.

Lemma reachable_paced w : reachable w -> paced (state w).
Proof.
  induction 1 as [g Hg|w Hw IH|scene w Hw IH|scene w Hw IH
                  |w Hw IH|scene keys t w w' Hw IH Ht Hrun];
    cbn [state].
  - unfold paced. cbn. lra.
  - unfold initScene, bind, ret.
    destruct (generateTrees _ _) as [trees g1]. exact IH.
  - destruct (startGame_clock scene (state w) (rng w)) as [E1 E2].
    unfold paced. rewrite E1, E2. lra.
  - unfold resetGame, bind.
    destruct (regenerateTrees scene (state w) (rng w)) as [s1 g1].
    destruct (startGame_clock scene s1 g1) as [E1 E2].
    unfold paced. rewrite E1, E2. lra.
  - exact IH.
  - apply (gameLoop_paced scene keys t w w' Ht IH Hrun).
Qed.

(** X13. From every state a session can be in, a frame at a time not
    before the last frame returns a state whose elapsed time and whose
    difficulty multiplier are not lower than before, with the multiplier
    between 1 and 1.8; in the playing state the multiplier is
    min(1.8, 1 + t / 90) for the elapsed time t before the frame. *)
Theorem gameLoop_difficulty (scene : bool) (keys : KeySet) (t : R)
    (w : World) :
  reachable w -> lastFrameTime w <= t ->
  exists w',
    gameLoop scene keys t w = Some w'
    /\ 0 <= GameState.timeElapsed (state w)
         <= GameState.timeElapsed (state w')
    /\ GameState.gameSpeed (state w) <= GameState.gameSpeed (state w')
    /\ 1 <= GameState.gameSpeed (state w') <= 1.8
    /\ (GameState.gameStatus (state w) = playing ->
        GameState.gameSpeed (state w')
        = Rmin 1.8 (1 + GameState.timeElapsed (state w) / 90)).
Proof.
  intros Hw Ht.
  destruct (gameLoop_total scene keys t w) as [w' Hrun].
  exists w'. split; [exact Hrun|].
  pose proof (reachable_paced w Hw) as Hp.
  destruct (gameLoop_paced scene keys t w w' Ht Hp Hrun)
    as ((_ & H1 & _) & Hte & Hgs).
  destruct Hp as (H0 & _).
  split; [lra|]. split; [exact Hgs|]. split; [exact H1|].
  intros Hplay.
  destruct (gameLoop_clock _ _ _ _ _ Hrun) as [(_ & _ & Eg)|(Hn & _)];
    [exact Eg|contradiction].
Qed.

Lemma gameLoop_difficulty_witness :
  exists w',
    gameLoop true [] 16 startedWorld = Some w'
    /\ 1 <= GameState.gameSpeed (state w') <= 1.8.
Proof.
  destruct (gameLoop_difficulty true [] 16 startedWorld
              reachable_startedWorld) as (w' & Hrun & _ & _ & H & _).
  - cbn [lastFrameTime startedWorld mountedWorld]. lra.
  - exists w'. split; [exact Hrun|exact H].
Defined.

(** ** Frames outside the playing state *)

Lemma last_default_irrelevant {A} (l : list A) (a d d' : A) :
  last (a :: l) d = last (a :: l) d'.
Proof.
  revert a. induction l as [|b l IH]; intros a; [reflexivity|].
  cbn [last]. apply IH.
Qed.

(** X14. Once the status is not [playing] (tutorial, won or lost), frames
    change nothing but the time of the last frame: after any number of
    frames, at whatever times and with whatever keys held, the game state
    and the random tape are the ones before. *)
Theorem frames_outside_play_change_nothing
    (frames : list (bool * KeySet * R)) (w : World) :
  GameState.gameStatus (state w) <> playing ->
  exists w',
    runFrames frames w = Some w'
    /\ state w' = state w /\ rng w' = rng w
    /\ lastFrameTime w' = last (map snd frames) (lastFrameTime w).
Proof.
  revert w. induction frames as [|[[scene keys] t] rest IH]; intros w Hs.
  - exists w. repeat split; reflexivity.
  - cbn [runFrames].
    assert (Hrun : gameLoop scene keys t w
                   = Some (mkWorld t (state w) (rng w))).
    { unfold gameLoop. destruct (GameState.gameStatus (state w));
        try reflexivity. contradiction. }
    rewrite Hrun.
    destruct (IH (mkWorld t (state w) (rng w)) Hs) as (w' & H1 & H2 & H3 & H4).
    exists w'. split; [exact H1|]. split; [exact H2|]. split; [exact H3|].
    rewrite H4. cbn [lastFrameTime map snd].
    destruct rest as [|f rest']; [reflexivity|].
    cbn [map last]. apply last_default_irrelevant.
Qed.

Lemma frames_outside_play_change_nothing_witness :
  exists w',
    runFrames [(true, [" "%string], 16); (true, ["w"%string], 33)]
              mountedWorld = Some w'
    /\ state w' = initialGameState.
Proof.
  destruct (frames_outside_play_change_nothing
              [(true, [" "%string], 16); (true, ["w"%string], 33)]
              mountedWorld) as (w' & H1 & H2 & _).
  - cbn. discriminate.
  - exists w'. split; [exact H1|exact H2].
Defined.

(** ** A session without a scene *)

Lemma updateFires_empty scene gs dt g :
  updateFires scene gs [] dt g = Some ([], g).
Proof.
  unfold updateFires. destruct (negb scene); [reflexivity|].
  apply iterate_done. reflexivity.
Qed.

(** X15. When [sceneRef.current] is not set, [startGame] starts the
    session with an empty fire map, and the first frame after it, whatever
    it finds in the refs, ends the session as [won]. *)
Theorem startGame_without_scene_is_won (prev : GameState.t) (g : Rng)
    (last : R) (scene : bool) (keys : KeySet) (t : R) :
  let started := startGame false prev g in
  GameState.fires (fst started) = []
  /\ GameState.gameStatus (fst started) = playing
  /\ exists w',
       gameLoop scene keys t (mkWorld last (fst started) (snd started))
       = Some w'
       /\ GameState.gameStatus (state w') = won
       /\ GameState.fires (state w') = [].
Proof.
  intros started. subst started. unfold startGame, initializeFires.
  cbn [negb]. unfold bind, ret. cbn [fst snd FireMap.empty].
  cbn [GameState.fires GameState.gameStatus].
  split; [reflexivity|]. split; [reflexivity|].
  unfold gameLoop. cbn [state rng lastFrameTime GameState.gameStatus].
  unfold tick. cbn [GameState.fires]. rewrite updateFires_empty.
  eexists. split; [reflexivity|]. cbn [state GameState.gameStatus
    GameState.fires].
  assert (Hf : forall p dt, checkWaterFireCollision scene keys p [] dt = []).
  { intros p dt. unfold checkWaterFireCollision.
    destruct (negb scene); [reflexivity|].
    destruct (_ && _)%bool; reflexivity. }
  rewrite Hf. split; reflexivity.
Qed.

(** ** No spread before the timer runs out *)

Lemma set_middle k v c (done rest : Fires) :
  ~ In k (FireMap.keys done) ->
  FireMap.set k v (done ++ (k, c) :: rest) = done ++ (k, v) :: rest.
Proof.
  induction done as [|[k0 v0] done IH]; intros Hn; simpl.
  - rewrite key_eqb_refl. reflexivity.
  - simpl in Hn. destruct (key_eqb k k0) eqn:E.
    + apply key_eqb_eq in E. subst. exfalso. apply Hn. left. reflexivity.
    + f_equal. apply IH. intros H. apply Hn. right. exact H.
Qed.

Lemma iterate_quiet gs dt :
  forall todo done fuel g,
    FireMap.wf (done ++ todo) ->
    Forall (fun e => quiet gs dt (snd e)) todo ->
    (List.length todo <= fuel)%nat ->
    iterate fuel gs dt (List.length done) (done ++ todo) g
    = Some (done ++ map (grownEntry dt) todo, g).
Proof.
  induction todo as [|[k c] rest IH]; intros done fuel g Hwf Hq Hfuel.
  - cbn [map]. rewrite !app_nil_r. apply iterate_done.
    apply nth_error_None. lia.
  - destruct fuel as [|fuel]; [simpl in Hfuel; lia|].
    inversion Hq as [|? ? Hc Hrest]; subst. cbn [snd] in Hc.
    assert (Hnth : nth_error (done ++ (k, c) :: rest) (List.length done)
                   = Some (k, c)).
    { rewrite nth_error_app2 by lia. rewrite Nat.sub_diag. reflexivity. }
    assert (Hnot : ~ In k (FireMap.keys done)).
    { unfold FireMap.wf, FireMap.keys in *. rewrite map_app in Hwf.
      simpl in Hwf. apply NoDup_remove_2 in Hwf. intros H. apply Hwf.
      apply in_or_app. left. exact H. }
    rewrite (iterate_step fuel gs dt (List.length done)
               (done ++ (k, c) :: rest) g k c
               (done ++ (k, grown c dt) :: rest) g Hnth).
    + replace (S (List.length done))
        with (List.length (done ++ [(k, grown c dt)]))
        by (rewrite length_app; simpl; lia).
      replace (done ++ (k, grown c dt) :: rest)
        with ((done ++ [(k, grown c dt)]) ++ rest)
        by (rewrite <- app_assoc; reflexivity).
      rewrite IH.
      * rewrite <- app_assoc. reflexivity.
      * unfold FireMap.wf, FireMap.keys in *.
        rewrite <- app_assoc. rewrite map_app in *. exact Hwf.
      * exact Hrest.
      * simpl in Hfuel. lia.
    + rewrite visit_quiet by exact Hc. rewrite set_middle by exact Hnot.
      reflexivity.
Qed.

(** X16. When no cell's timer, advanced by the time step, exceeds
    [FIRE_SPREAD_RATE / gameSpeed], [updateFires] adds no cell and resets
    no timer: the map it returns has the same keys in the same order, each
    cell with its intensity raised by 0.1 * deltaTime and capped at 1 and
    its timer advanced by deltaTime. *)
Theorem updateFires_quiet (gs : GameState.t) (fires : Fires)
    (deltaTime : R) (g : Rng) :
  FireMap.wf fires ->
  (forall key c,
     In (key, c) fires ->
     FireCell.spreadTime c + deltaTime
     <= FIRE_SPREAD_RATE / GameState.gameSpeed gs) ->
  option_map fst (updateFires true gs fires deltaTime g)
  = Some (map (fun e => (fst e, grown (snd e) deltaTime)) fires).
Proof.
  intros Hwf Hq. unfold updateFires. cbn [negb].
  rewrite (iterate_quiet gs deltaTime fires [] _ g).
  - reflexivity.
  - exact Hwf.
  - apply Forall_forall. intros [k c] Hin. apply (Hq k c Hin).
  - unfold FireMap.size. lia.
Qed.

Lemma updateFires_quiet_witness :
  option_map fst
    (updateFires true initialGameState (aheadFires 0.5) 0.1 (constRng 0.5))
  = Some [(gridKey 0 (-4), grown (aheadCell 0.5) 0.1)].
Proof.
  apply (updateFires_quiet initialGameState (aheadFires 0.5) 0.1
           (constRng 0.5)).
  - apply wf_singleton.
  - intros key c [[= <- <-]|[]]. unfold FIRE_SPREAD_RATE. simpl. lra.
Defined.

(** ** Input handlers *)

(** *** Keys *)

Lemma keys_has_app k keys keys' :
  keys_has k (keys ++ keys') = (keys_has k keys || keys_has k keys')%bool.
Proof. unfold keys_has. apply existsb_app. Qed.

Lemma keys_has_add k k' keys :
  keys_has k (keys_add k' keys)
  = (String.eqb k k' || keys_has k keys)%bool.
Proof.
  unfold keys_add. destruct (keys_has k' keys) eqn:E.
  - destruct (String.eqb k k') eqn:Ek; [|reflexivity].
    apply String.eqb_eq in Ek. subst. rewrite E. reflexivity.
  - rewrite keys_has_app. cbn [keys_has existsb].
    rewrite orb_false_r, orb_comm. reflexivity.
Qed.

Lemma keys_has_delete k k' keys :
  keys_has k (keys_delete k' keys)
  = (negb (String.eqb k k') && keys_has k keys)%bool.
Proof.
  unfold keys_delete, keys_has.
  induction keys as [|a keys IH]; cbn [filter existsb].
  - rewrite andb_false_r. reflexivity.
  - destruct (String.eqb k' a) eqn:Ea; cbn [negb existsb].
    + apply String.eqb_eq in Ea. subst a. rewrite IH.
      destruct (String.eqb k k'); reflexivity.
    + rewrite IH. destruct (String.eqb k a) eqn:Eka; [|reflexivity].
      apply String.eqb_eq in Eka. subst a.
      rewrite String.eqb_sym, Ea. reflexivity.
Qed.

(** X17. A key that goes down is held, under its lower-case name; a key
    that goes up is no longer held, whatever the set held before, also
    when the two events name the key in different case; and neither event
    changes whether any other key is held. *)
Theorem key_events (toLowerCase : string -> string) (key : string)
    (keys : KeySet) :
  keys_has (toLowerCase key) (handleKeyDown toLowerCase key keys) = true
  /\ keys_has (toLowerCase key) (handleKeyUp toLowerCase key keys) = false
  /\ (forall key',
        toLowerCase key' = toLowerCase key ->
        keys_has (toLowerCase key)
                 (handleKeyUp toLowerCase key'
                    (handleKeyDown toLowerCase key keys)) = false)
  /\ (forall k,
        k <> toLowerCase key ->
        keys_has k (handleKeyDown toLowerCase key keys) = keys_has k keys
        /\ keys_has k (handleKeyUp toLowerCase key keys) = keys_has k keys).
Proof.
  unfold handleKeyDown, handleKeyUp. split; [|split; [|split]].
  - rewrite keys_has_add, String.eqb_refl. reflexivity.
  - rewrite keys_has_delete, String.eqb_refl. reflexivity.
  - intros key' ->. rewrite keys_has_delete, String.eqb_refl. reflexivity.
  - intros k Hne. apply String.eqb_neq in Hne.
    rewrite keys_has_add, keys_has_delete, Hne. split; reflexivity.
Qed.

(** *** Touches *)

Lemma keys_add_idem k keys : keys_add k (keys_add k keys) = keys_add k keys.
Proof.
  unfold keys_add at 1. rewrite keys_has_add, String.eqb_refl. reflexivity.
Qed.

Lemma touchOne_keys mobileControls touch keys prev :
  fst (touchOne mobileControls touch (keys, prev)) = keys
  \/ fst (touchOne mobileControls touch (keys, prev)) = keys_add " " keys.
Proof.
  unfold touchOne. destruct (_ <? MobileControl.size
                                   (MobileControls.shootButton mobileControls));
    [right|left]; reflexivity.
Qed.

Lemma touches_keys mobileControls touches :
  forall keys prev,
    fst (fold_left (fun st touch => touchOne mobileControls touch st)
                   touches (keys, prev)) = keys
    \/ fst (fold_left (fun st touch => touchOne mobileControls touch st)
                      touches (keys, prev)) = keys_add " " keys.
Proof.
  induction touches as [|touch rest IH]; intros keys prev; cbn [fold_left].
  - left. reflexivity.
  - destruct (touchOne_keys mobileControls touch keys prev) as [H|H];
      destruct (touchOne mobileControls touch (keys, prev)) as [keys1 prev1];
      cbn [fst] in H; subst keys1.
    + apply IH.
    + destruct (IH (keys_add " " keys) prev1) as [H|H]; right.
      * exact H.
      * rewrite H. apply keys_add_idem.
Qed.

Lemma handleTouchStart_keys isMobile gameState mobileControls touches keys
    prev :
  fst (handleTouchStart isMobile gameState mobileControls touches (keys, prev))
  = keys
  \/ fst (handleTouchStart isMobile gameState mobileControls touches
            (keys, prev)) = keys_add " " keys.
Proof.
  unfold handleTouchStart. destruct isMobile; [|left; reflexivity].
  destruct (GameState.gameStatus gameState); try (left; reflexivity).
  apply touches_keys.
Qed.

(** The position and the heading [updatePlayer] returns depend on the keys
    only through the six movement and turn keys. *)
Lemma updatePlayer_position_keys keys keys' gs player dt :
  (forall k, k <> " "%string -> keys_has k keys' = keys_has k keys) ->
  Player.position (updatePlayer keys' gs player dt)
  = Player.position (updatePlayer keys gs player dt)
  /\ Player.rotation (updatePlayer keys' gs player dt)
     = Player.rotation (updatePlayer keys gs player dt).
Proof.
  intros Hk.
  assert (Hw : keys_has "w" keys' = keys_has "w" keys)
    by (apply Hk; discriminate).
  assert (Hs : keys_has "s" keys' = keys_has "s" keys)
    by (apply Hk; discriminate).
  assert (Ha : keys_has "a" keys' = keys_has "a" keys)
    by (apply Hk; discriminate).
  assert (Hd : keys_has "d" keys' = keys_has "d" keys)
    by (apply Hk; discriminate).
  assert (Hl : keys_has "arrowleft" keys' = keys_has "arrowleft" keys)
    by (apply Hk; discriminate).
  assert (Hr : keys_has "arrowright" keys' = keys_has "arrowright" keys)
    by (apply Hk; discriminate).
  assert (Hmv : moveVectorOf keys' = moveVectorOf keys)
    by (unfold moveVectorOf; rewrite Hw, Hs, Ha, Hd; reflexivity).
  assert (Hm : moving keys' = moving keys)
    by (unfold moving; rewrite Hmv; reflexivity).
  assert (Ht : forall r, turned keys' r dt = turned keys r dt)
    by (intros r; unfold turned; rewrite Hl, Hr; reflexivity).
  assert (Hrot : forall r, rotatedMove keys' r = rotatedMove keys r)
    by (intros r; unfold rotatedMove; rewrite Hmv; reflexivity).
  unfold updatePlayer. rewrite Hm, Ht, Hrot.
  destruct (refill _ _ _ _ _) as [b1 w1].
  destruct (refill _ _ _ _ _) as [b2 w2].
  split; reflexivity.
Qed.

(** X18. A touch never moves or turns the player.  Whatever the touches,
    [handleTouchStart] changes the set of keys at most by adding the shoot
    key: every other key is held after it exactly when it was before, a
    held shoot key stays held, and [updatePlayer] returns the same
    position and heading with the keys after the touch as with the keys
    before. *)
Theorem touch_never_moves (isMobile : bool) (gameState : GameState.t)
    (mobileControls : MobileControls.t) (touches : list Touch.t)
    (keys : KeySet) (prev : MobileControls.t)
    (gs : GameState.t) (player : Player.t) (deltaTime : R) :
  let keys' :=
    fst (handleTouchStart isMobile gameState mobileControls touches
           (keys, prev)) in
  (forall k, k <> " "%string -> keys_has k keys' = keys_has k keys)
  /\ (keys_has " " keys = true -> keys_has " " keys' = true)
  /\ Player.position (updatePlayer keys' gs player deltaTime)
     = Player.position (updatePlayer keys gs player deltaTime)
  /\ Player.rotation (updatePlayer keys' gs player deltaTime)
     = Player.rotation (updatePlayer keys gs player deltaTime).
Proof.
  intros keys'.
  assert (Hother : forall k, k <> " "%string ->
                             keys_has k keys' = keys_has k keys).
  { intros k Hne. subst keys'.
    destruct (handleTouchStart_keys isMobile gameState mobileControls touches
                keys prev) as [-> | ->]; [reflexivity|].
    rewrite keys_has_add. apply String.eqb_neq in Hne. rewrite Hne.
    reflexivity. }
  split; [exact Hother|]. split.
  - intros Hheld. subst keys'.
    destruct (handleTouchStart_keys isMobile gameState mobileControls touches
                keys prev) as [-> | ->]; [exact Hheld|].
    rewrite keys_has_add. reflexivity.
  - apply updatePlayer_position_keys, Hother.
Qed.

(** ** The trees of a session *)

Lemma generateTrees_wooded stations g :
  valid_rng g ->
  (List.length (fst (generateTrees stations g)) <= 40)%nat
  /\ treesOk stations (fst (generateTrees stations g)).
Proof.
  intros Hg. split.
  - apply treeRounds_length. simpl. lia.
  - assert (H0 : treesOk stations []) by (split; constructor).
    apply (gen_treeRounds_ok 40 stations [] H0 g
             (proj1 (valid_rng_tape_all g) Hg)).
Qed.

Lemma startGame_keeps scene prev g :
  GameState.refillStations (fst (startGame scene prev g))
  = GameState.refillStations prev
  /\ GameState.trees (fst (startGame scene prev g)) = GameState.trees prev.
Proof.
  unfold startGame, bind, ret.
  destruct (initializeFires scene g) as [fires g1]. split; reflexivity.
Qed.

Lemma tick_keeps scene keys gs prev dt g s' g' :
  tick scene keys gs prev dt g = Some (s', g') ->
  GameState.refillStations s' = GameState.refillStations prev
  /\ GameState.trees s' = GameState.trees prev
  /\ GameState.windDirection s' = GameState.windDirection prev
  /\ GameState.windSpeed s' = GameState.windSpeed prev.
Proof.
  unfold tick. destruct (updateFires _ _ _ _ _) as [[m g1]|]; [|discriminate].
  intros [= <- <-]. repeat split; reflexivity.
Qed.

Lemma reachable_wooded w : reachable w -> wooded (state w).
Proof.
  induction 1 as [g Hg|w Hw IH|scene w Hw IH|scene w Hw IH
                  |w Hw IH|scene keys t w w' Hw IH Ht Hrun];
    cbn [state].
  - split; [reflexivity|]. split; [simpl; lia|split; constructor].
  - destruct IH as (Hst & _). unfold initScene, bind, ret.
    pose proof (generateTrees_wooded (GameState.refillStations (state w))
                  (rng w) (proj2 (reachable_steady w Hw))) as [Hl Hok].
    destruct (generateTrees _ _) as [trees g1]. cbn [fst] in *.
    split; [exact Hst|]. rewrite Hst in Hok. split; assumption.
  - destruct (startGame_keeps scene (state w) (rng w)) as [E1 E2].
    unfold wooded. rewrite E1, E2. exact IH.
  - unfold resetGame, bind.
    assert (Hre : wooded (fst (regenerateTrees scene (state w) (rng w)))).
    { unfold regenerateTrees. destruct (negb scene); [exact IH|].
      destruct IH as (Hst & _). unfold bind, ret.
      pose proof (generateTrees_wooded (GameState.refillStations (state w))
                    (rng w) (proj2 (reachable_steady w Hw))) as [Hl Hok].
      destruct (generateTrees _ _) as [trees g1]. cbn [fst] in *.
      split; [exact Hst|]. rewrite Hst in Hok. split; assumption. }
    destruct (regenerateTrees scene (state w) (rng w)) as [s1 g1].
    cbn [fst] in Hre.
    destruct (startGame_keeps scene s1 g1) as [E1 E2].
    unfold wooded. rewrite E1, E2. exact Hre.
  - exact IH.
  - unfold gameLoop in Hrun.
    destruct (GameState.gameStatus (state w));
      try (injection Hrun as <-; exact IH).
    destruct (tick _ _ _ _ _ _) as [[s' g']|] eqn:Htick; [|discriminate].
    injection Hrun as <-. cbn [state].
    destruct (tick_keeps _ _ _ _ _ _ _ _ Htick) as (E1 & E2 & _).
    unfold wooded. rewrite E1, E2. exact IH.
Qed.

(** X19. In every state a session can be in, the refill stations are the
    four of the initial state, there are at most 40 trees, and every tree
    is at least 5 from each station and at least 8 from the start
    position; so the start position, where [startGame] puts the player,
    is outside the trunk zone and the foliage zone of every tree. *)
Theorem reachable_trees (w : World) :
  reachable w ->
  GameState.refillStations (state w)
  = GameState.refillStations initialGameState
  /\ (List.length (GameState.trees (state w)) <= 40)%nat
  /\ forall tree,
       In tree (GameState.trees (state w)) ->
       treeClear (GameState.refillStations initialGameState) tree
       /\ ~ inTrunk 0 0 tree /\ ~ inFoliageOf 0 0 tree.
Proof.
  intros Hw. destruct (reachable_wooded w Hw) as (Hst & Hlen & Hclear & _).
  split; [exact Hst|]. split; [exact Hlen|].
  intros tree Hin. rewrite Forall_forall in Hclear.
  pose proof (Hclear tree Hin) as Hc. split; [exact Hc|].
  destruct Hc as (_ & Hcentre & Hrad & _).
  assert (Hd : sqrt ((0 - Tree.x tree) ^ 2 + (0 - Tree.z tree) ^ 2)
               = sqrt (Tree.x tree ^ 2 + Tree.z tree ^ 2))
    by (f_equal; cbn [pow]; lra).
  unfold inTrunk, inFoliageOf. rewrite Hd. split; lra.
Qed.

Lemma reachable_woodedWorld : reachable woodedWorld.
Proof.
  unfold woodedWorld.
  apply (reach_startGame true).
  apply (reach_initScene (mkWorld 0 initialGameState twoTreeTape)).
  apply reach_mount, valid_twoTreeTape.
Qed.

Lemma woodedWorld_trees :
  exists rest,
    GameState.trees (state woodedWorld) = eastTree :: westTree :: rest.
Proof.
  destruct generateTrees_two as (rest & E). exists rest.
  unfold woodedWorld. cbn [state rng lastFrameTime].
  match goal with
  | |- GameState.trees (fst (startGame true ?s ?g)) = _ =>
      rewrite (proj2 (startGame_keeps true s g))
  end.
  unfold initScene, bind, ret.
  destruct (generateTrees _ _) as [trees g1]. cbn [fst] in *.
  exact E.
Qed.

Lemma reachable_trees_witness :
  In westTree (GameState.trees (state woodedWorld))
  /\ treeClear (GameState.refillStations initialGameState) westTree
  /\ ~ inTrunk 0 0 westTree /\ ~ inFoliageOf 0 0 westTree.
Proof.
  assert (Hin : In westTree (GameState.trees (state woodedWorld))).
  { destruct woodedWorld_trees as (rest & E). rewrite E.
    right. left. reflexivity. }
  split; [exact Hin|].
  destruct (reachable_trees woodedWorld reachable_woodedWorld)
    as (_ & _ & H).
  apply (H westTree Hin).
Defined.

(** ** A cell where the player stands *)

Lemma normalize3D_still a b :
  normalize3D (Vector3.mk (a - a) 0 (b - b)) = Vector3.mk 0 0 0.
Proof.
  unfold normalize3D. cbn [Vector3.x Vector3.y Vector3.z].
  replace ((a - a) * (a - a) + 0 * 0 + (b - b) * (b - b)) with 0 by lra.
  rewrite sqrt_0. unfold Rgtb.
  destruct (0 <? 0) eqn:E; [apply Rltb_true in E; lra|reflexivity].
Qed.

(** X20. A cell whose coordinates are those of the player (at ground
    level) is never hit by the water, whatever the heading: the direction
    to it is the zero vector, whose dot product with the water direction
    is 0.  The suppression step returns such a cell as it was. *)
Theorem cell_underfoot_is_never_hit (player : Player.t) (cell : FireCell.t) :
  Player.position player = firePosition cell ->
  inWaterCone player cell = false
  /\ forall deltaTime, sprayed player deltaTime cell = Some cell.
Proof.
  intros Hpos.
  assert (Hcone : inWaterCone player cell = false).
  { unfold inWaterCone, aimDot. rewrite Hpos.
    destruct (_ <? WATER_RANGE); [|reflexivity].
    rewrite normalize3D_still. cbn [Vector3.x Vector3.y Vector3.z].
    unfold Rgtb. apply Rltb_false. lra. }
  split; [exact Hcone|]. intros dt. unfold sprayed. rewrite Hcone.
  reflexivity.
Qed.

Lemma cell_underfoot_is_never_hit_witness :
  inWaterCone originPlayer (FireCell.mk 0 0 1 0) = false.
Proof.
  destruct (cell_underfoot_is_never_hit originPlayer (FireCell.mk 0 0 1 0))
    as [H _].
  - reflexivity.
  - exact H.
Defined.
